(** * CmdOption: a command-line option parser driven by usage text

    A shallow embedding of [CmdOption.h].  The two classes of the header,
    [StringValue] and [CmdOption], become records; member functions become
    functions on those records, with the object passed in and the updated
    object returned.  C++ exceptions are modelled by the [result] type.

    Conventions:
    - [std::string] is [string]; [char] is [ascii]; [int] is [Z]
      (no usage text is long enough to overflow the counters, so the
      arithmetic on [int] is not wrapped);
    - [std::map<K,V>] is [gmap K V]; [std::vector<T>] is [list T]. *)

From Stdlib Require Import ZArith Ascii String List Lia Bool.
From stdpp Require Import base option list strings gmap pretty.

Local Open Scope string_scope.
Local Open Scope Z_scope.

(** ** Characters and strings *)

Definition NUL : ascii := "000"%char.
Definition newline : ascii := "010"%char.

(** Conversion [char -> int]: [char] is signed on the platforms the header
    targets (x86-64 Linux with glibc's getopt). *)
Definition int_of_char (c : ascii) : Z :=
  let n := Z.of_N (N_of_ascii c) in
  if n <? 128 then n else n - 256.

(** Conversion [int -> char], as in [(char)c] and [char(optopt)]. *)
Definition char_of_int (z : Z) : ascii :=
  ascii_of_N (Z.to_N (z mod 256)).

(** [std::isspace] in the classic locale. *)
Definition isspace (c : ascii) : bool :=
  let n := N_of_ascii c in
  ((n =? 32) || ((9 <=? n) && (n <=? 13)))%N.

(** [s[i]]; reading at [s.length()] yields the terminator. *)
Definition at_ (s : string) (i : nat) : ascii :=
  match String.get i s with
  | Some c => c
  | None => NUL
  end.

(** [s.back()] *)
Definition back (s : string) : ascii := at_ s (String.length s - 1)%nat.

(** [s.empty()] *)
Definition empty (s : string) : bool :=
  match s with
  | EmptyString => true
  | String _ _ => false
  end.

(** [s.find_first_of(c)] for a single character; [None] is [npos]. *)
Fixpoint find_first_of (c : ascii) (s : string) : option nat :=
  match s with
  | EmptyString => None
  | String a s' =>
      if Ascii.eqb a c then Some 0%nat
      else match find_first_of c s' with
           | Some k => Some (S k)
           | None => None
           end
  end.

(** [s.substr(pos)] and [s.substr(pos, len)], for [pos <= s.length()]. *)
Definition substr_from (s : string) (pos : nat) : string :=
  substring pos (String.length s - pos)%nat s.

Definition substr (s : string) (pos len : nat) : string :=
  substring pos len s.

(** The string holding the single character [c], as built by
    [std::string str; str = c;]. *)
Definition str_of_char (c : ascii) : string := String c EmptyString.

(** [std::to_string(int)] *)
Definition to_string (z : Z) : string := pretty z.

(** The words [ss >> word] extracts from a stream, in order: maximal runs
    of non-space characters.  [cur] is the word being read. *)
Fixpoint words_from (cur : string) (s : string) : list string :=
  match s with
  | EmptyString => if empty cur then [] else [cur]
  | String c s' =>
      if isspace c
      then (if empty cur then words_from EmptyString s'
            else cur :: words_from EmptyString s')
      else words_from (cur ++ str_of_char c) s'
  end.

Definition words (s : string) : list string := words_from EmptyString s.

(** The lines [std::getline] extracts from a stream, in order.  A final
    line without a newline is delivered; nothing follows a final newline. *)
Fixpoint lines_from (cur : string) (s : string) : list string :=
  match s with
  | EmptyString => if empty cur then [] else [cur]
  | String c s' =>
      if Ascii.eqb c newline then cur :: lines_from EmptyString s'
      else lines_from (cur ++ str_of_char c) s'
  end.

Definition getlines (s : string) : list string := lines_from EmptyString s.

(** ** Exceptions *)

Inductive exception : Type :=
| invalid_argument (what : string).

Inductive result (A : Type) : Type :=
| Ok (a : A)
| Throw (e : exception).
Arguments Ok {A} a.
Arguments Throw {A} e.

(** ** StringValue *)

Module StringValue.

Record t : Type := mk { m_text : string; m_count : Z }.

(** The default constructor. *)
Definition default : t := {| m_text := ""; m_count := 0 |}.

(** [void add(const std::string & str)] *)
Definition add (str : string) (v : t) : t :=
  if m_count v =? 0
  then {| m_text := str; m_count := m_count v + 1 |}
  else {| m_text := m_text v ++ String newline str; m_count := m_count v + 1 |}.

(** [explicit operator bool() const] *)
Definition to_bool (v : t) : bool := 0 <? m_count v.

(** [int count() const] *)
Definition count (v : t) : Z := m_count v.

(** [void validate() const] *)
Definition validate (v : t) : result unit :=
  if m_count v =? 0 then Throw (invalid_argument "null value") else Ok tt.

(** [template<typename T> T as() const].  The overloads of [getValue]
    are the parameter [getValue]: any of them may throw. *)
Definition as_ {T : Type} (getValue : string -> result T) (v : t) : result T :=
  match validate v with
  | Throw e => Throw e
  | Ok _ => getValue (m_text v)
  end.

(** [getValue] for [std::string], and [str()]. *)
Definition getValue_string (s : string) : result string := Ok s.
Definition str (v : t) : result string := as_ getValue_string v.

(** [add] applied to each string of a list, in order. *)
Definition add_all (l : list string) (v : t) : t :=
  fold_left (fun acc s => add s acc) l v.

(** [StringValue(const std::string & str)] *)
Definition of_string (str : string) : t := {| m_text := str; m_count := 1 |}.

(** [template<typename T> T valueOr(T t) const]; [catch (...)] takes
    whatever [as<T>] throws. *)
Definition valueOr {T : Type} (getValue : string -> result T) (d : T) (v : t) : T :=
  if m_count v =? 0 then d
  else match as_ getValue v with
       | Ok x => x
       | Throw _ => d
       end.

(** [std::string valueOr(const char * pstr) const]; [None] is the null
    pointer. *)
Definition valueOr_cstr (pstr : option string) (v : t) : string :=
  if m_count v =? 0 then
    match pstr with
    | Some s => s
    | None => ""
    end
  else m_text v.

(** The loop [while (std::getline(s, line))] of [getValue] for
    [std::vector<T>], over the lines still to be read: each line is
    converted and pushed; the first conversion that throws ends it. *)
Fixpoint getValue_lines {T : Type} (getValue : string -> result T)
    (lines : list string) (vec : list T) : result (list T) :=
  match lines with
  | [] => Ok vec
  | line :: rest =>
      match getValue line with
      | Throw e => Throw e
      | Ok x => getValue_lines getValue rest (vec ++ [x])
      end
  end.

(** [getValue] for [std::vector<T>].  It reads the lines of [m_text],
    not of its argument [str]. *)
Definition getValue_vector {T : Type} (getValue : string -> result T) (v : t)
    (str : string) : result (list T) :=
  getValue_lines getValue (getlines (m_text v)) [].

(** [as<std::vector<T>>()] *)
Definition as_vector {T : Type} (getValue : string -> result T) (v : t)
    : result (list T) :=
  as_ (getValue_vector getValue v) v.

End StringValue.

(** ** The option table *)

(** Values of [has_arg], from [<getopt.h>]. *)
Definition no_argument : Z := 0.
Definition required_argument : Z := 1.
Definition optional_argument : Z := 2.

(** [struct option] of [<getopt.h>].  The header always leaves [flag]
    null, so the field is omitted; a null [name] is [None]. *)
Record long_option : Type := mk_long_option {
  lo_name : option string;
  lo_has_arg : Z;
  lo_val : Z
}.

Record CmdOption : Type := mk_CmdOption {
  m_usage : string;
  m_errorStr : string;
  m_shortOptStr : string;
  m_longOptions : list long_option;
  m_longOptNames : list string;
  m_maxIndex : Z;
  m_indexMap : gmap string Z;
  m_options : gmap Z StringValue.t;
  m_arguments : StringValue.t;
  m_nullStrValue : StringValue.t
}.

(** A freshly constructed object (the in-class member initialisers). *)
Definition fresh : CmdOption := {|
  m_usage := "";
  m_errorStr := "";
  m_shortOptStr := ":";
  m_longOptions := [];
  m_longOptNames := [];
  m_maxIndex := 0;
  m_indexMap := ∅;
  m_options := ∅;
  m_arguments := StringValue.default;
  m_nullStrValue := StringValue.default
|}.

Definition set_usage (x : string) (o : CmdOption) : CmdOption :=
  mk_CmdOption x (m_errorStr o) (m_shortOptStr o) (m_longOptions o)
    (m_longOptNames o) (m_maxIndex o) (m_indexMap o) (m_options o)
    (m_arguments o) (m_nullStrValue o).
Definition set_errorStr (x : string) (o : CmdOption) : CmdOption :=
  mk_CmdOption (m_usage o) x (m_shortOptStr o) (m_longOptions o)
    (m_longOptNames o) (m_maxIndex o) (m_indexMap o) (m_options o)
    (m_arguments o) (m_nullStrValue o).
Definition set_shortOptStr (x : string) (o : CmdOption) : CmdOption :=
  mk_CmdOption (m_usage o) (m_errorStr o) x (m_longOptions o)
    (m_longOptNames o) (m_maxIndex o) (m_indexMap o) (m_options o)
    (m_arguments o) (m_nullStrValue o).
Definition set_longOptions (x : list long_option) (o : CmdOption) : CmdOption :=
  mk_CmdOption (m_usage o) (m_errorStr o) (m_shortOptStr o) x
    (m_longOptNames o) (m_maxIndex o) (m_indexMap o) (m_options o)
    (m_arguments o) (m_nullStrValue o).
Definition set_longOptNames (x : list string) (o : CmdOption) : CmdOption :=
  mk_CmdOption (m_usage o) (m_errorStr o) (m_shortOptStr o) (m_longOptions o)
    x (m_maxIndex o) (m_indexMap o) (m_options o)
    (m_arguments o) (m_nullStrValue o).
Definition set_maxIndex (x : Z) (o : CmdOption) : CmdOption :=
  mk_CmdOption (m_usage o) (m_errorStr o) (m_shortOptStr o) (m_longOptions o)
    (m_longOptNames o) x (m_indexMap o) (m_options o)
    (m_arguments o) (m_nullStrValue o).
Definition set_indexMap (x : gmap string Z) (o : CmdOption) : CmdOption :=
  mk_CmdOption (m_usage o) (m_errorStr o) (m_shortOptStr o) (m_longOptions o)
    (m_longOptNames o) (m_maxIndex o) x (m_options o)
    (m_arguments o) (m_nullStrValue o).
Definition set_options (x : gmap Z StringValue.t) (o : CmdOption) : CmdOption :=
  mk_CmdOption (m_usage o) (m_errorStr o) (m_shortOptStr o) (m_longOptions o)
    (m_longOptNames o) (m_maxIndex o) (m_indexMap o) x
    (m_arguments o) (m_nullStrValue o).
Definition set_arguments (x : StringValue.t) (o : CmdOption) : CmdOption :=
  mk_CmdOption (m_usage o) (m_errorStr o) (m_shortOptStr o) (m_longOptions o)
    (m_longOptNames o) (m_maxIndex o) (m_indexMap o) (m_options o)
    x (m_nullStrValue o).

(** [bool good()] *)
Definition good (o : CmdOption) : bool := empty (m_errorStr o).

(** [void addErrorStr(const std::string & str)] *)
Definition addErrorStr (str : string) (o : CmdOption) : CmdOption :=
  let e := m_errorStr o in
  let e := if negb (empty e) then e ++ String newline "" else e in
  set_errorStr (e ++ str) o.

(** ** The usage-line parser *)

(** The long-option branch of the word loop of [parseOptLine]: the name
    and the argument requirement of a word that starts with two dashes,
    or [None] where the loop returns [false]. *)
Definition long_option_word (word : string) : option (string * Z) :=
  match find_first_of "="%char word with
  | None => Some (substr_from word 2, no_argument)
  | Some pos =>
      if Ascii.eqb (at_ word (pos - 1)) "["%char then
        if negb (Ascii.eqb (back word) "]"%char) then None
        else Some (substr word 2 (pos - 1 - 2), optional_argument)
      else Some (substr word 2 (pos - 2), required_argument)
  end.

(** The short-option branch: the conditions under which the loop
    returns [false]. *)
Definition short_option_bad (shortOpt : ascii) (word : string) : bool :=
  negb (Ascii.eqb shortOpt NUL)
  || ((String.length word =? 3)%nat && negb (Ascii.eqb (at_ word 2) ","%char))
  || (3 <? String.length word)%nat.

(** How the word loop of [parseOptLine] ends. *)
Inductive scan : Type :=
| ScanFalse                      (* [return false] inside the loop *)
| ScanTrue                       (* [return true] inside the loop  *)
| ScanEnd (n : Z) (shortOpt : ascii) (longOpt : string) (argReqmt : Z).

(** The loop [while (ss >> word)] of [parseOptLine], over the words still
    to be read, with the loop's local variables as arguments. *)
Fixpoint scan_words (ws : list string) (n : Z) (shortOpt : ascii)
    (longOpt : string) (argReqmt : Z) : scan :=
  match ws with
  | [] => ScanEnd n shortOpt longOpt argReqmt
  | word :: ws' =>
      let n := n + 1 in
      if 2 <? n then ScanEnd n shortOpt longOpt argReqmt
      else if (String.length word <=? 1)%nat then ScanFalse
      else if negb (Ascii.eqb (at_ word 0) "-"%char) then
        (if n =? 1 then ScanTrue
         else scan_words ws' n shortOpt longOpt argReqmt)
      else if Ascii.eqb (at_ word 1) "-"%char then
        match long_option_word word with
        | None => ScanFalse
        | Some (name, req) => scan_words ws' n shortOpt name req
        end
      else if short_option_bad shortOpt word then ScanFalse
      else scan_words ws' n (at_ word 1) longOpt argReqmt
  end.

(** The word loop run on a whole line. *)
Definition scan_line (line : string) : scan :=
  scan_words (words line) 0 NUL "" 0.

(** The argument requirement once the loop is over: the long option's
    own, or inferred from the word count when there is no long option. *)
Definition final_argReqmt (n : Z) (longOpt : string) (argReqmt : Z) : Z :=
  if empty longOpt
  then (if n =? 2 then required_argument else no_argument)
  else argReqmt.

(** ** The option table builder *)

(** The short-option part of the registration in [parseOptLine].  The
    flag is [indexUsed]. *)
Definition register_short (shortOpt : ascii) (argReqmt : Z)
    (o : CmdOption) : bool * CmdOption :=
  if negb (Ascii.eqb shortOpt NUL) then
    let o := set_shortOptStr (m_shortOptStr o ++ str_of_char shortOpt) o in
    let o :=
      if (argReqmt =? required_argument) || (argReqmt =? optional_argument)
      then set_shortOptStr (m_shortOptStr o ++ ":") o
      else o in
    let str := str_of_char shortOpt in
    match m_indexMap o !! str with
    | Some _ => (false, addErrorStr ("duplicate short option: " ++ str) o)
    | None => (true, set_indexMap (<[str := m_maxIndex o]> (m_indexMap o)) o)
    end
  else (false, o).

(** The long-option part of the registration. *)
Definition register_long (shortOpt : ascii) (longOpt : string) (argReqmt : Z)
    (indexUsed : bool) (o : CmdOption) : bool * CmdOption :=
  if negb (empty longOpt) then
    let o := set_longOptNames (m_longOptNames o ++ [longOpt]) o in
    let o := set_longOptions
               (m_longOptions o ++
                  [mk_long_option None argReqmt (int_of_char shortOpt)]) o in
    match m_indexMap o !! longOpt with
    | Some _ => (indexUsed, addErrorStr ("duplicate long option: " ++ longOpt) o)
    | None => (true, set_indexMap (<[longOpt := m_maxIndex o]> (m_indexMap o)) o)
    end
  else (indexUsed, o).

(** Everything [parseOptLine] does after the checks that follow the loop. *)
Definition register (shortOpt : ascii) (longOpt : string) (argReqmt : Z)
    (o : CmdOption) : CmdOption :=
  let '(indexUsed, o) := register_short shortOpt argReqmt o in
  let '(indexUsed, o) := register_long shortOpt longOpt argReqmt indexUsed o in
  if indexUsed then set_maxIndex (m_maxIndex o + 1) o else o.

(** [bool parseOptLine(int i, const std::string & line)] *)
Definition parseOptLine (i : Z) (line : string) (o : CmdOption)
    : bool * CmdOption :=
  match scan_line line with
  | ScanFalse => (false, o)
  | ScanTrue => (true, o)
  | ScanEnd n shortOpt longOpt argReqmt =>
      if n =? 0 then (true, o)
      else if Ascii.eqb shortOpt NUL && empty longOpt then (false, o)
      else (true, register shortOpt longOpt
                    (final_argReqmt n longOpt argReqmt) o)
  end.

(** [void parseLine(int i, const std::string & line)] *)
Definition parseLine (i : Z) (line : string) (o : CmdOption) : CmdOption :=
  let '(ok, o) := parseOptLine i line o in
  if negb ok
  then addErrorStr ("invalid option at line: " ++ to_string i
                      ++ String newline line) o
  else o.

(** The loop [while (good() && std::getline(s, line)) parseLine(i++, line)]
    of [init], over the lines still to be read. *)
Fixpoint init_loop (i : Z) (lines : list string) (o : CmdOption) : CmdOption :=
  match lines with
  | [] => o
  | line :: rest =>
      if good o then init_loop (i + 1) rest (parseLine i line o) else o
  end.

(** The final loop of [init]: [m_longOptions[i].name = m_longOptNames[i]]
    for every name.  Each name was pushed together with a descriptor, so
    the descriptors never run out first. *)
Fixpoint set_names (names : list string) (opts : list long_option)
    : list long_option :=
  match names, opts with
  | nm :: names', d :: opts' =>
      mk_long_option (Some nm) (lo_has_arg d) (lo_val d) :: set_names names' opts'
  | _, _ => opts
  end.

(** [void init()] *)
Definition init (o : CmdOption) : CmdOption :=
  let o := init_loop 0 (getlines (m_usage o)) o in
  let o := set_longOptions
             (m_longOptions o ++ [mk_long_option None 0 0]) o in
  set_longOptions (set_names (m_longOptNames o) (m_longOptions o)) o.

(** [void operator<<(const std::string & usage)] *)
Definition load_usage (usage : string) (o : CmdOption) : CmdOption :=
  init (set_usage usage o).

(** The table built from a usage text by a new object. *)
Definition table_of (usage : string) : CmdOption := load_usage usage fresh.

(** ** The token scanner

    [parse] drives [getopt_long] of the C library, which is not part of
    the header.  The dispatcher is therefore written against an interface:
    the global variables of [<getopt.h>], the scanner's private state, and
    the properties of the scanner that the dispatcher relies on. *)

(** The global variables of [<getopt.h>] together with the scanner's
    private state. *)
Record getopt_state (H : Type) : Type := mk_getopt_state {
  optind : Z;
  opterr : Z;
  optopt : Z;
  optarg : option string;        (* [None] is the null pointer *)
  internal : H
}.
Arguments mk_getopt_state {H}.
Arguments optind {H}.
Arguments opterr {H}.
Arguments optopt {H}.
Arguments optarg {H}.
Arguments internal {H}.

(** What one call of [getopt_long] leaves behind: the value returned, the
    value of [*longindex] (which the caller sets to 0 before the call),
    the argument vector (the scanner may reorder it) and the new state. *)
Record getopt_return (H : Type) : Type := mk_getopt_return {
  ret : Z;
  longindex : Z;
  argv_after : list string;
  state_after : getopt_state H
}.
Arguments mk_getopt_return {H}.
Arguments ret {H}.
Arguments longindex {H}.
Arguments argv_after {H}.
Arguments state_after {H}.

Definition set_optind {H} (x : Z) (g : getopt_state H) : getopt_state H :=
  mk_getopt_state x (opterr g) (optopt g) (optarg g) (internal g).
Definition set_opterr {H} (x : Z) (g : getopt_state H) : getopt_state H :=
  mk_getopt_state (optind g) x (optopt g) (optarg g) (internal g).

Class Scanner : Type := {
  hidden : Type;
  (** the private state before the first call in the process *)
  hidden0 : hidden;
  (** [getopt_long(argc, argv, optstring, longopts, &longindex)] *)
  getopt_long :
    Z -> list string -> string -> list long_option ->
    getopt_state hidden -> getopt_return hidden;
  (** a bound on the number of options still to be reported *)
  remaining : Z -> list string -> getopt_state hidden -> nat
}.

(** What the dispatcher relies on. *)
Class ScannerLaws (S : Scanner) : Prop := {
  (** every call that reports something consumes input *)
  scanner_progress :
    forall argc argv optstring longopts g,
      let r := getopt_long argc argv optstring longopts g in
      0 <= ret r ->
      (remaining argc (argv_after r) (state_after r) < remaining argc argv g)%nat;
  (** a call with [optind = 0] starts a new scan: it behaves as the first
      call in the process does *)
  scanner_restart :
    forall argc argv optstring longopts g,
      1 <= argc -> optind g = 0 ->
      getopt_long argc argv optstring longopts g =
      getopt_long argc argv optstring longopts
        (mk_getopt_state 1 (opterr g) (optopt g) None hidden0);
  (** without arguments the scanner returns at once: there is nothing
      to report and nothing is changed *)
  scanner_no_arguments :
    forall argc argv optstring longopts g,
      argc < 1 ->
      let r := getopt_long argc argv optstring longopts g in
      ret r < 0 /\ argv_after r = argv /\ state_after r = g
}.

(** The state of the scanner when the process starts. *)
Definition process_start `{Scanner} : getopt_state hidden :=
  mk_getopt_state 1 1 (int_of_char "?"%char) None hidden0.

(** ** The argument dispatcher *)

(** [argv[i]] *)
Definition arg (argv : list string) (i : Z) : string :=
  if i <? 0 then "" else default "" (argv !! Z.to_nat i).

(** [m_indexMap[key]]: [std::map::operator[]] inserts a zero for a key
    that is absent. *)
Definition indexMap_at (key : string) (o : CmdOption) : Z * CmdOption :=
  match m_indexMap o !! key with
  | Some index => (index, o)
  | None => (0, set_indexMap (<[key := 0]> (m_indexMap o)) o)
  end.

(** [m_options[index].add(str)]: [operator[]] creates an empty
    [StringValue] for an index that is absent. *)
Definition options_add (index : Z) (str : string) (o : CmdOption) : CmdOption :=
  let v := default StringValue.default (m_options o !! index) in
  set_options (<[index := StringValue.add str v]> (m_options o)) o.

(** How the option just reported is resolved inside the loop of [parse]. *)
Inductive resolution : Type :=
| Resolved (index : Z) (o : CmdOption)   (* falls through to the [add] *)
| Skipped (o : CmdOption)                (* [continue] *)
| Aborted (o : CmdOption).               (* [break] *)

Definition resolve (c option_index opt : Z) (o : CmdOption) : resolution :=
  if c =? 0 then
    let '(index, o) :=
      indexMap_at (default "" (m_longOptNames o !! Z.to_nat option_index)) o in
    Resolved index o
  else if c =? int_of_char "?"%char then
    Skipped (addErrorStr ("Unknown option: " ++ str_of_char (char_of_int opt)) o)
  else if c =? int_of_char ":"%char then
    Skipped (addErrorStr ("Missing argument for: " ++ str_of_char (char_of_int opt)) o)
  else
    let str := str_of_char (char_of_int c) in
    match m_indexMap o !! str with
    | None => Aborted (addErrorStr ("unknown short option: " ++ str) o)
    | Some index => Resolved index o
    end.

(** The state the loop of [parse] works on: the object, the argument
    vector and the scanner. *)
Definition config `{Scanner} : Type :=
  (CmdOption * list string * getopt_state hidden)%type.

Inductive flow : Type := Again | Leave.

(** One pass through the body of [while (true)] in [parse].  (The
    local [this_option_optind] is never read, and [option_index] is the
    [longindex] of the call.) *)
Definition parse_body `{Scanner} (argc : Z) (k : config) : flow * config :=
  let '(o, argv, g) := k in
  let r := getopt_long argc argv (m_shortOptStr o) (m_longOptions o) g in
  let argv := argv_after r in
  let g := state_after r in
  if ret r <? 0 then (Leave, (o, argv, g))
  else
    match resolve (ret r) (longindex r) (optopt g) o with
    | Skipped o => (Again, (o, argv, g))
    | Aborted o => (Leave, (o, argv, g))
    | Resolved index o =>
        match optarg g with
        | Some a => (Again, (options_add index a o, argv, g))
        | None => (Again, (options_add index "" o, argv, g))
        end
    end.

(** The loop [while (true)], with a bound on the number of passes. *)
Fixpoint parse_loop `{Scanner} (fuel : nat) (argc : Z) (k : config)
    : option config :=
  match fuel with
  | O => None
  | S fuel' =>
      match parse_body argc k with
      | (Leave, k') => Some k'
      | (Again, k') => parse_loop fuel' argc k'
      end
  end.

(** The loop [while (optind < argc) m_arguments.add(argv[optind++])],
    which runs [argc - optind] times. *)
Fixpoint collect (n : nat) (argv : list string) (i : Z) (a : StringValue.t)
    : Z * StringValue.t :=
  match n with
  | O => (i, a)
  | S n' => collect n' argv (i + 1) (StringValue.add (arg argv i) a)
  end.

(** The tokens [argv[i]], ..., [argv[argc - 1]]. *)
Definition tokens_from (argc : Z) (argv : list string) (i : Z) : list string :=
  map (fun j => arg argv (i + Z.of_nat j)) (seq 0 (Z.to_nat (argc - i))).

(** What [parse] does once the loop is left. *)
Definition parse_finish `{Scanner} (argc : Z) (k : config) : config :=
  let '(o, argv, g) := k in
  let '(i, a) := collect (Z.to_nat (argc - optind g)) argv (optind g)
                   (m_arguments o) in
  (set_arguments a o, argv, set_optind 0 (set_optind i g)).

(** [void parse(int argc, char** argv)], where [argc] is the length of
    [argv], as [main] receives them.  The result is [None] only when
    [fuel] passes do not exhaust the options. *)
Definition parse `{Scanner} (fuel : nat) (argv : list string) (o : CmdOption)
    (g : getopt_state hidden) : option config :=
  let argc := Z.of_nat (length argv) in
  match parse_loop fuel argc (o, argv, set_opterr 0 g) with
  | Some k => Some (parse_finish argc k)
  | None => None
  end.

(** [StringValue& operator[](const std::string & opt)] *)
Definition get (opt : string) (o : CmdOption) : result StringValue.t :=
  match m_indexMap o !! opt with
  | None => Throw (invalid_argument ("unknown option: " ++ opt))
  | Some index =>
      match m_options o !! index with
      | None => Ok (m_nullStrValue o)
      | Some v => Ok v
      end
  end.

(** [const StringValue & arguments()] *)
Definition arguments (o : CmdOption) : StringValue.t := m_arguments o.

(** [void usage(std::ostream& os)]: the stream is the text written to it
    so far; [std::endl] writes a newline. *)
Definition usage (os : string) (o : CmdOption) : string :=
  os ++ m_usage o ++ String newline "".

(** [void reportError(std::ostream & os)] *)
Definition reportError (os : string) (o : CmdOption) : string :=
  if negb (good o) then os ++ m_errorStr o ++ String newline "" else os.

(** ** A model of the C library's scanner

    Modelled from the documentation and behaviour of glibc's
    [getopt_long] (the scanner itself is outside the header).  The model
    covers what the header can make it do: the option string always
    starts with [':'] (so error messages are off, a missing argument is
    reported as [':'], and arguments are permuted so that non-options come
    last); every descriptor has a null [flag]; the environment variable
    POSIXLY_CORRECT is taken to be unset.  The [W;] extension is left out.
    In a scan [1 <= optind <= argc] always holds; outside that range (where
    the C function reads outside [argv]) the model restarts, respectively
    ends, the scan, so that it is a total function. *)

Module Glibc.

Record internal_state : Type := mk_internal {
  nextchar : string;           (* [""] is null, or at the terminator *)
  first_nonopt : Z;
  last_nonopt : Z;
  initialized : bool
}.

Definition internal0 : internal_state := mk_internal "" 0 0 false.

(** [NONOPTION_P] *)
Definition nonoption_p (argv : list string) (i : Z) : bool :=
  negb (Ascii.eqb (at_ (arg argv i) 0) "-"%char)
  || Ascii.eqb (at_ (arg argv i) 1) NUL.

(** [exchange]: the non-options at [bottom, middle) and the options at
    [middle, top) change places. *)
Definition exchange (argv : list string) (bottom middle top : Z) : list string :=
  if (0 <=? bottom) && (bottom <=? middle) && (middle <=? top)
     && (top <=? Z.of_nat (length argv))
  then
    let b := Z.to_nat bottom in
    let m := Z.to_nat middle in
    let t := Z.to_nat top in
    take b argv ++ drop m (take t argv) ++ drop b (take m argv) ++ drop t argv
  else argv.

(** [while (optind < argc && NONOPTION_P) optind++], which runs at most
    [argc - optind] times. *)
Fixpoint skip_nonoptions (n : nat) (argv : list string) (i : Z) : Z :=
  match n with
  | O => i
  | S n' => if nonoption_p argv i then skip_nonoptions n' argv (i + 1) else i
  end.

(** The descriptors up to the one with a null name. *)
Fixpoint table (longopts : list long_option) : list (string * Z * Z) :=
  match longopts with
  | [] => []
  | d :: rest =>
      match lo_name d with
      | None => []
      | Some nm => (nm, lo_has_arg d, lo_val d) :: table rest
      end
  end.

(** The first descriptor named exactly [name], with its index. *)
Fixpoint find_exact (name : string) (t : list (string * Z * Z)) (i : Z)
    : option (Z * (string * Z * Z)) :=
  match t with
  | [] => None
  | e :: rest =>
      if String.eqb (fst (fst e)) name then Some (i, e)
      else find_exact name rest (i + 1)
  end.

(** The descriptors whose name starts with [name], with their indices. *)
Fixpoint find_abbrev (name : string) (t : list (string * Z * Z)) (i : Z)
    : list (Z * (string * Z * Z)) :=
  match t with
  | [] => []
  | e :: rest =>
      if String.prefix name (fst (fst e))
      then (i, e) :: find_abbrev name rest (i + 1)
      else find_abbrev name rest (i + 1)
  end.

(** An abbreviation is ambiguous when a later match differs from the
    first one in [has_arg] or [val]. *)
Definition ambiguous (first : string * Z * Z)
    (others : list (Z * (string * Z * Z))) : bool :=
  existsb (fun p => negb (snd (fst (snd p)) =? snd (fst first))
                    || negb (snd (snd p) =? snd first)) others.

Inductive lookup_result : Type :=
| Found (i : Z) (e : string * Z * Z)
| Ambiguous
| NotFound.

Definition lookup_long (name : string) (longopts : list long_option)
    : lookup_result :=
  match find_exact name (table longopts) 0 with
  | Some (i, e) => Found i e
  | None =>
      match find_abbrev name (table longopts) 0 with
      | [] => NotFound
      | (i, e) :: others => if ambiguous e others then Ambiguous else Found i e
      end
  end.

(** The value returned for a missing argument. *)
Definition missing (optstring : string) : Z :=
  if Ascii.eqb (at_ optstring 0) ":"%char
  then int_of_char ":"%char else int_of_char "?"%char.

Definition answer (c longind : Z) (argv : list string) (optind_ opterr_ optopt_ : Z)
    (optarg_ : option string) (nc : string) (fst_ lst_ : Z)
    : getopt_return internal_state :=
  mk_getopt_return c longind argv
    (mk_getopt_state optind_ opterr_ optopt_ optarg_
       (mk_internal nc fst_ lst_ true)).

(** [process_long_option], entered with [nextchar] just after the two
    dashes of [argv[optind]]. *)
Definition process_long_option (argc : Z) (argv : list string)
    (optstring : string) (longopts : list long_option)
    (optind_ opterr_ optopt_ : Z) (nc : string) (fst_ lst_ : Z)
    : getopt_return internal_state :=
  let nameend := find_first_of "="%char nc in
  let name := match nameend with
              | Some k => substr nc 0 k
              | None => nc
              end in
  match lookup_long name longopts with
  | Ambiguous | NotFound =>
      answer (int_of_char "?"%char) 0 argv (optind_ + 1) opterr_ 0 None "" fst_ lst_
  | Found i (_, has_arg, val) =>
      let optind_ := optind_ + 1 in
      match nameend with
      | Some k =>
          if negb (has_arg =? 0) then
            answer val i argv optind_ opterr_ optopt_
              (Some (substr_from nc (S k))) "" fst_ lst_
          else
            answer (int_of_char "?"%char) 0 argv optind_ opterr_ val None "" fst_ lst_
      | None =>
          if has_arg =? 1 then
            if optind_ <? argc then
              answer val i argv (optind_ + 1) opterr_ optopt_
                (Some (arg argv optind_)) "" fst_ lst_
            else
              answer (missing optstring) 0 argv optind_ opterr_ val None "" fst_ lst_
          else
            answer val i argv optind_ opterr_ optopt_ None "" fst_ lst_
      end
  end.

(** The part of [_getopt_internal_r] that handles the next short
    option character; [nc] is not empty. *)
Definition process_short_option (argc : Z) (argv : list string)
    (optstring : string)
    (optind_ opterr_ optopt_ : Z) (nc : string) (fst_ lst_ : Z)
    : getopt_return internal_state :=
  let c := at_ nc 0 in
  let nc := substr_from nc 1 in
  let temp := find_first_of c optstring in
  let optind_ := if empty nc then optind_ + 1 else optind_ in
  match temp with
  | None =>
      answer (int_of_char "?"%char) 0 argv optind_ opterr_ (int_of_char c) None nc fst_ lst_
  | Some t =>
      if Ascii.eqb c ":"%char || Ascii.eqb c ";"%char then
        answer (int_of_char "?"%char) 0 argv optind_ opterr_ (int_of_char c) None nc fst_ lst_
      else if Ascii.eqb (at_ optstring (t + 1)) ":"%char then
        if Ascii.eqb (at_ optstring (t + 2)) ":"%char then
          (* an optional argument *)
          if negb (empty nc) then
            answer (int_of_char c) 0 argv (optind_ + 1) opterr_ optopt_ (Some nc) "" fst_ lst_
          else
            answer (int_of_char c) 0 argv optind_ opterr_ optopt_ None "" fst_ lst_
        else
          (* a required argument *)
          if negb (empty nc) then
            answer (int_of_char c) 0 argv (optind_ + 1) opterr_ optopt_ (Some nc) "" fst_ lst_
          else if argc <=? optind_ then
            answer (missing optstring) 0 argv optind_ opterr_ (int_of_char c) None "" fst_ lst_
          else
            answer (int_of_char c) 0 argv (optind_ + 1) opterr_ optopt_
              (Some (arg argv optind_)) "" fst_ lst_
      else
        answer (int_of_char c) 0 argv optind_ opterr_ optopt_ None nc fst_ lst_
  end.

(** The part of [_getopt_internal_r] that advances to the next element
    of [argv]; entered when [nextchar] is empty. *)
Definition next_element (argc : Z) (argv : list string)
    (optstring : string) (longopts : list long_option)
    (optind_ opterr_ optopt_ : Z) (fst_ lst_ : Z)
    : getopt_return internal_state :=
  let lst_ := if optind_ <? lst_ then optind_ else lst_ in
  let fst_ := if optind_ <? fst_ then optind_ else fst_ in
  (* permute *)
  let '(argv, fst_, lst_) :=
    if negb (fst_ =? lst_) && negb (lst_ =? optind_)
    then (exchange argv fst_ lst_ optind_, fst_ + (optind_ - lst_), optind_)
    else if negb (lst_ =? optind_) then (argv, optind_, lst_)
    else (argv, fst_, lst_) in
  let optind_ := skip_nonoptions (Z.to_nat (argc - optind_)) argv optind_ in
  let lst_ := optind_ in
  (* the element "--" ends the options *)
  let '(argv, optind_, fst_, lst_) :=
    if (optind_ <? argc) && String.eqb (arg argv optind_) "--" then
      let optind_ := optind_ + 1 in
      let '(argv, fst_, lst_) :=
        if negb (fst_ =? lst_) && negb (lst_ =? optind_)
        then (exchange argv fst_ lst_ optind_, fst_ + (optind_ - lst_), optind_)
        else if fst_ =? lst_ then (argv, optind_, lst_)
        else (argv, fst_, lst_) in
      (argv, argc, fst_, argc)
    else (argv, optind_, fst_, lst_) in
  if argc <=? optind_ then
    (* all elements done: back over the non-options that were skipped *)
    let optind_ := if negb (fst_ =? lst_) then fst_ else optind_ in
    answer (-1) 0 argv optind_ opterr_ optopt_ None "" fst_ lst_
  else if Ascii.eqb (at_ (arg argv optind_) 1) "-"%char then
    process_long_option argc argv optstring longopts
      optind_ opterr_ optopt_ (substr_from (arg argv optind_) 2) fst_ lst_
  else
    process_short_option argc argv optstring
      optind_ opterr_ optopt_ (substr_from (arg argv optind_) 1) fst_ lst_.

(** [getopt_long] *)
Definition getopt_long (argc : Z) (argv : list string) (optstring : string)
    (longopts : list long_option) (g : getopt_state internal_state)
    : getopt_return internal_state :=
  if argc <? 1 then
    mk_getopt_return (-1) 0 argv
      (mk_getopt_state (optind g) (opterr g) (optopt g) (optarg g) (internal g))
  else
    (* [optarg = NULL], then [_getopt_initialize] where it applies *)
    let restart := (optind g <=? 0) || negb (initialized (internal g)) in
    let optind_ := if optind g <=? 0 then 1 else optind g in
    let nc := if restart then "" else nextchar (internal g) in
    let fst_ := if restart then optind_ else first_nonopt (internal g) in
    let lst_ := if restart then optind_ else last_nonopt (internal g) in
    if empty nc then
      next_element argc argv optstring longopts
        optind_ (opterr g) (optopt g) fst_ lst_
    else
      process_short_option argc argv optstring
        optind_ (opterr g) (optopt g) nc fst_ lst_.

(** The characters still to be scanned from [argv], one more per element. *)
Definition weight (l : list string) : nat :=
  foldr (fun e n => (S (String.length e) + n)%nat) 0%nat l.

Definition remaining (argc : Z) (argv : list string)
    (g : getopt_state internal_state) : nat :=
  let restart := (optind g <=? 0) || negb (initialized (internal g)) in
  let optind_ := if optind g <=? 0 then 1 else optind g in
  let nc := if restart then "" else nextchar (internal g) in
  if empty nc then weight (drop (Z.to_nat optind_) argv)
  else (String.length nc + weight (drop (S (Z.to_nat optind_)) argv))%nat.

End Glibc.

#[export] Instance glibc : Scanner := {|
  hidden := Glibc.internal_state;
  hidden0 := Glibc.internal0;
  getopt_long := Glibc.getopt_long;
  remaining := Glibc.remaining
|}.

(** ** Scans *)

(** The configurations the loop of [parse] passes through. *)
Inductive loop_reaches `{Scanner} (argc : Z) : config -> config -> Prop :=
| reaches_here k : loop_reaches argc k k
| reaches_next k k1 k2 :
    parse_body argc k = (Again, k1) ->
    loop_reaches argc k1 k2 ->
    loop_reaches argc k k2.

(** The raw value collection of an identity: empty when the map has no
    entry for it. *)
Definition collection (o : CmdOption) (index : Z) : StringValue.t :=
  default StringValue.default (m_options o !! index).

(** The identity, if any, to which a pass through the loop adds an
    occurrence. *)
Definition recorded `{Scanner} (argc : Z) (k : config) : option Z :=
  let '(o, argv, g) := k in
  let r := getopt_long argc argv (m_shortOptStr o) (m_longOptions o) g in
  if ret r <? 0 then None
  else
    match resolve (ret r) (longindex r) (optopt (state_after r)) o with
    | Resolved index _ => Some index
    | Skipped _ | Aborted _ => None
    end.

(** The identities of the options that occur in a scan, in order. *)
Fixpoint occurrences `{Scanner} (fuel : nat) (argc : Z) (k : config) : list Z :=
  match fuel with
  | O => []
  | S fuel' =>
      match parse_body argc k with
      | (Again, k') => option_list (recorded argc k) ++ occurrences fuel' argc k'
      | (Leave, _) => []
      end
  end.

(** ** Objects a program can hold *)

(** The objects that arise from a new one through [operator<<] and
    [parse]. *)
Inductive reachable `{Scanner} : CmdOption -> Prop :=
| reachable_fresh : reachable fresh
| reachable_load usage o :
    reachable o -> reachable (load_usage usage o)
| reachable_parse fuel argv o g o' argv' g' :
    reachable o ->
    parse fuel argv o g = Some (o', argv', g') ->
    reachable o'.

(** ** Reading the specification

    Following the words of the specification, not the code: table
    building that examines every line, whatever the earlier lines
    recorded. *)
Fixpoint every_line (i : Z) (lines : list string) (o : CmdOption) : CmdOption :=
  match lines with
  | [] => o
  | line :: rest => every_line (i + 1) rest (parseLine i line o)
  end.

(** ** Notions used in the statements *)

(** The identities in use are those below [m_maxIndex]. *)
Definition identities_bounded (o : CmdOption) : Prop :=
  0 <= m_maxIndex o /\
  forall alias id, m_indexMap o !! alias = Some id -> 0 <= id < m_maxIndex o.

(** An alias of a line is taken when it is registered already: by an
    earlier line or, for the long option, by the short option of the same
    line (the two share one index). *)
Definition short_taken (shortOpt : ascii) (o : CmdOption) : bool :=
  negb (Ascii.eqb shortOpt NUL)
  && bool_decide (is_Some (m_indexMap o !! str_of_char shortOpt)).

Definition long_taken (shortOpt : ascii) (longOpt : string) (o : CmdOption) : bool :=
  negb (empty longOpt)
  && (bool_decide (is_Some (m_indexMap o !! longOpt))
      || (negb (Ascii.eqb shortOpt NUL) && String.eqb longOpt (str_of_char shortOpt))).

(** The duplicate-option diagnostics a line with these aliases calls for. *)
Definition duplicates (shortOpt : ascii) (longOpt : string) (o : CmdOption)
    : list string :=
  let short := "duplicate short option: " ++ str_of_char shortOpt in
  let long := "duplicate long option: " ++ longOpt in
  ((if short_taken shortOpt o then [short] else [])
   ++ (if long_taken shortOpt longOpt o then [long] else []))%list.

(** Diagnostics recorded one after the other. *)
Definition record_all (diagnostics : list string) (o : CmdOption) : CmdOption :=
  fold_left (fun o d => addErrorStr d o) diagnostics o.

(** Strings joined by newlines. *)
Fixpoint join_lines (l : list string) : string :=
  match l with
  | [] => ""
  | [s] => s
  | s :: rest => s ++ String newline (join_lines rest)
  end.

(** A string without a newline. *)
Definition no_newline (s : string) : Prop := find_first_of newline s = None.

(** A list of strings without its last element when that is empty. *)
Definition drop_final_empty (l : list string) : list string :=
  if empty (List.last l "") then List.removelast l else l.

(** The number of times an identity occurs in a list. *)
Definition times (index : Z) (l : list Z) : Z :=
  Z.of_nat (length (filter (fun i => i = index) l)).

(** The table agrees with the alias index: every option character of
    the option string, every long name and the short character of every
    descriptor is a registered alias, and every argument requirement is
    one of the three values. *)
Definition descriptor_known (o : CmdOption) (d : long_option) : Prop :=
  0 <= lo_has_arg d <= 2 /\
  (lo_val d = 0 \/
   exists s, s <> NUL /\ lo_val d = int_of_char s /\
             is_Some (m_indexMap o !! str_of_char s)).

Definition aliases_known (o : CmdOption) : Prop :=
  (forall c,
     find_first_of c (m_shortOptStr o) <> None ->
     c = ":"%char \/ (c <> NUL /\ is_Some (m_indexMap o !! str_of_char c))) /\
  Forall (fun name => is_Some (m_indexMap o !! name)) (m_longOptNames o) /\
  Forall (descriptor_known o) (m_longOptions o).

(** While the table is being built, the descriptors have no names yet
    and are as many as the names. *)
Definition descriptors_pending (o : CmdOption) : Prop :=
  length (m_longOptions o) = length (m_longOptNames o) /\
  Forall (fun d => lo_name d = None) (m_longOptions o).

(** Once it is built, the descriptors carry the names, in order, and a
    descriptor with a null name ends them. *)
Definition descriptors_named (o : CmdOption) : Prop :=
  map lo_name (m_longOptions o) = (map Some (m_longOptNames o) ++ [None])%list.

(** What [parse] leaves of the table of [o] in [o']: the usage text, the
    option string, the descriptors, the names, the number of identities
    and the null value as they were, and every alias with its
    identity. *)
Definition table_kept (o o' : CmdOption) : Prop :=
  m_usage o' = m_usage o /\
  m_shortOptStr o' = m_shortOptStr o /\
  m_longOptions o' = m_longOptions o /\
  m_longOptNames o' = m_longOptNames o /\
  m_maxIndex o' = m_maxIndex o /\
  m_nullStrValue o' = m_nullStrValue o /\
  (forall alias id,
     m_indexMap o !! alias = Some id -> m_indexMap o' !! alias = Some id).

(** A scanner that reports only what it was given, as [getopt_long] is
    documented to: the end of the options (a negative value), an unknown
    option (['?']), a missing argument ([':'], for an option string that
    starts with a colon), an option character of the option string, or the
    [val] of the descriptor (one with a name and a null [flag]) whose index
    it stores in [*longindex]. *)
Definition reported {H : Type} (optstring : string)
    (longopts : list long_option) (r : getopt_return H) : Prop :=
  ret r < 0 \/
  ret r = int_of_char "?"%char \/
  ret r = int_of_char ":"%char \/
  (exists c, ret r = int_of_char c /\ c <> ":"%char /\
             find_first_of c optstring <> None) \/
  (exists d, 0 <= longindex r /\
             longopts !! Z.to_nat (longindex r) = Some d /\
             lo_name d <> None /\ ret r = lo_val d).

Definition reports_given_options (S : Scanner) : Prop :=
  forall argc argv optstring longopts g,
    reported optstring longopts (getopt_long argc argv optstring longopts g).

(** A word of prose: longer than one character and not starting with a
    dash.  The word loop passes over it when it is not the first word. *)
Definition prose_word (w : string) : Prop :=
  (1 < String.length w)%nat /\ at_ w 0 <> "-"%char.

(** The word [word] is classified on a usage line as the long option
    [name] with the argument requirement [req]: the classifier yields
    them; wherever the word loop meets the word among the first two
    words, it goes on with them as the long option and its requirement;
    and a line on which the word comes first, or second after a short
    option [-x,], and is followed by nothing or by prose, is valid and
    registers the long option [name] with the requirement [req]. *)
Definition classified_as (word name : string) (req : Z) : Prop :=
  long_option_word word = Some (name, req) /\
  (forall ws n s l a,
     n < 2 ->
     scan_words (word :: ws) n s l a = scan_words ws (n + 1) s name req) /\
  (name <> "" ->
   forall line ws i o,
     (forall w2, head ws = Some w2 -> prose_word w2) ->
     (words line = word :: ws ->
      parseOptLine i line o = (true, register NUL name req o) /\
      m_shortOptStr (register NUL name req o) = m_shortOptStr o) /\
     (forall x,
        x <> "-"%char -> x <> NUL ->
        words line = ("-" ++ str_of_char x ++ ",") :: word :: ws ->
        parseOptLine i line o = (true, register x name req o)) /\
     (forall x,
        m_longOptNames (register x name req o)
          = (m_longOptNames o ++ [name])%list /\
        m_longOptions (register x name req o)
          = (m_longOptions o
               ++ [mk_long_option None req (int_of_char x)])%list /\
        is_Some (m_indexMap (register x name req o) !! name))).

(** A string without white space, as [ss >> word] delivers them. *)
Fixpoint spaceless (s : string) : bool :=
  match s with
  | EmptyString => true
  | String c s' => negb (isspace c) && spaceless s'
  end.

(** ** The model of the scanner meets the interface *)

Lemma substring_all (s : string) : substring 0 (String.length s) s = s.
Proof. induction s as [|a s IH]; simpl; [reflexivity | by rewrite IH]. Qed.

Lemma substr_from_0 (s : string) : substr_from s 0 = s.
Proof. unfold substr_from. rewrite Nat.sub_0_r. apply substring_all. Qed.

Lemma substr_from_S (a : ascii) (s : string) (n : nat) :
  substr_from (String a s) (S n) = substr_from s n.
Proof. reflexivity. Qed.

Lemma substr_from_length (s : string) (n : nat) :
  String.length (substr_from s n) = (String.length s - n)%nat.
Proof.
  revert n. induction s as [|a s IH]; intros [|n].
  - reflexivity.
  - reflexivity.
  - by rewrite substr_from_0.
  - rewrite substr_from_S. apply IH.
Qed.

Lemma empty_length (s : string) : empty s = true <-> String.length s = 0%nat.
Proof. destruct s; simpl; split; congruence. Qed.

Lemma empty_false_length (s : string) :
  empty s = false <-> (0 < String.length s)%nat.
Proof. destruct s; simpl; split; (congruence || lia). Qed.

Module GlibcFacts.
Import Glibc.

Lemma weight_drop_mono (l : list string) (n m : nat) :
  (n <= m)%nat -> (weight (drop m l) <= weight (drop n l))%nat.
Proof.
  revert n m. induction l as [|e l IH]; intros n m Hnm.
  - by rewrite !drop_nil.
  - destruct m as [|m]; [replace n with 0%nat by lia; done|].
    destruct n as [|n]; simpl.
    + specialize (IH 0%nat m). rewrite drop_0 in IH. lia.
    + apply IH. lia.
Qed.

Lemma weight_drop_lookup (l : list string) (n : nat) (e : string) :
  l !! n = Some e ->
  weight (drop n l) = (S (String.length e) + weight (drop (S n) l))%nat.
Proof.
  revert n. induction l as [|a l IH]; intros [|n] Hn; simpl in *; try done.
  - by inversion Hn.
  - by apply IH.
Qed.

Lemma remaining_answer c li argv oi e oo oa nc f l argc :
  1 <= oi ->
  remaining argc argv (state_after (answer c li argv oi e oo oa nc f l)) =
  if empty nc then weight (drop (Z.to_nat oi) argv)
  else (String.length nc + weight (drop (S (Z.to_nat oi)) argv))%nat.
Proof.
  intros Hoi. unfold remaining, answer. simpl.
  assert ((oi <=? 0) = false) as -> by lia. simpl. reflexivity.
Qed.

Lemma argv_after_answer c li argv oi e oo oa nc f l :
  argv_after (answer c li argv oi e oo oa nc f l) = argv.
Proof. reflexivity. Qed.

Lemma ret_answer c li argv oi e oo oa nc f l :
  ret (answer c li argv oi e oo oa nc f l) = c.
Proof. reflexivity. Qed.

(** A short option shortens what is left of the current element, or
    leaves the element. *)
Lemma process_short_option_progress argc argv optstring oi e oo nc f l :
  1 <= oi -> empty nc = false ->
  let r := process_short_option argc argv optstring oi e oo nc f l in
  argv_after r = argv /\
  (remaining argc argv (state_after r)
   < String.length nc + weight (drop (S (Z.to_nat oi)) argv))%nat.
Proof.
  intros Hoi Hnc. destruct nc as [|a nc]; [done|]. clear Hnc.
  unfold process_short_option. rewrite substr_from_S, substr_from_0.
  cbn [at_ String.get String.length].
  assert (weight (drop (S (S (Z.to_nat oi))) argv)
          <= weight (drop (S (Z.to_nat oi)) argv))%nat as Hw
    by (apply weight_drop_mono; lia).
  assert (Z.to_nat (oi + 1) = S (Z.to_nat oi)) as E1 by lia.
  assert (Z.to_nat (oi + 1 + 1) = S (S (Z.to_nat oi))) as E2 by lia.
  destruct nc as [|b nc]; cbn [empty negb];
    repeat case_match; rewrite ?argv_after_answer;
    (split; [reflexivity|]);
    rewrite remaining_answer by lia; cbn [empty String.length];
    rewrite ?E1, ?E2; lia.
Qed.

(** A long option leaves the element. *)
Lemma process_long_option_progress argc argv optstring longopts oi e oo nc f l :
  1 <= oi ->
  let r := process_long_option argc argv optstring longopts oi e oo nc f l in
  argv_after r = argv /\
  (remaining argc argv (state_after r)
   <= weight (drop (S (Z.to_nat oi)) argv))%nat.
Proof.
  intros Hoi.
  assert (weight (drop (S (S (Z.to_nat oi))) argv)
          <= weight (drop (S (Z.to_nat oi)) argv))%nat as Hw
    by (apply weight_drop_mono; lia).
  assert (Z.to_nat (oi + 1) = S (Z.to_nat oi)) as E1 by lia.
  assert (Z.to_nat (oi + 1 + 1) = S (S (Z.to_nat oi))) as E2 by lia.
  unfold process_long_option.
  repeat case_match; rewrite ?argv_after_answer;
    (split; [reflexivity|]);
    rewrite remaining_answer by lia; cbn [empty];
    rewrite ?E1, ?E2; lia.
Qed.

Lemma exchange_drop (argv : list string) (b m t : Z) (p : nat) :
  (Z.to_nat t <= p)%nat ->
  drop p (exchange argv b m t) = drop p argv.
Proof.
  intros Hp. unfold exchange. case_match eqn:Hg; [|reflexivity].
  apply andb_prop in Hg as [Hg Ht]. apply andb_prop in Hg as [Hg Hm].
  apply andb_prop in Hg as [H0 Hb].
  rewrite !app_assoc. rewrite drop_app_ge.
  - rewrite !length_app, !length_drop, !length_take.
    replace p with (Z.to_nat t + (p - Z.to_nat t))%nat at 2 by lia.
    rewrite <- drop_drop. f_equal. lia.
  - rewrite !length_app, !length_drop, !length_take. lia.
Qed.

Lemma arg_drop (argv1 argv2 : list string) (p : Z) :
  0 <= p ->
  drop (Z.to_nat p) argv1 = drop (Z.to_nat p) argv2 ->
  arg argv1 p = arg argv2 p.
Proof.
  intros Hp Hd. unfold arg. assert ((p <? 0) = false) as -> by lia.
  rewrite <- (Nat.add_0_r (Z.to_nat p)), <- !lookup_drop, Hd. reflexivity.
Qed.

Lemma skip_nonoptions_spec (n : nat) (argv : list string) (i : Z) :
  let p := skip_nonoptions n argv i in
  i <= p /\ (p < i + Z.of_nat n -> nonoption_p argv p = false).
Proof.
  revert i. induction n as [|n IH]; intros i; simpl.
  - lia.
  - destruct (nonoption_p argv i) eqn:Hn.
    + destruct (IH (i + 1)) as [IH1 IH2]. split; [lia|].
      intros Hp. apply IH2. lia.
    + split; [lia | done].
Qed.

(** An element that is not a non-option has at least two characters. *)
Lemma option_element (argv : list string) (p : Z) :
  nonoption_p argv p = false ->
  0 <= p /\ exists a b rest, argv !! Z.to_nat p = Some (String a (String b rest)).
Proof.
  unfold nonoption_p, arg. intros Hn.
  apply orb_false_elim in Hn as [H0 H1].
  destruct (p <? 0) eqn:Hp; [done|]. split; [lia|].
  destruct (argv !! Z.to_nat p) as [[|a [|b rest]]|]; try done.
  by exists a, b, rest.
Qed.

(** Advancing to the next element and reporting an option from it
    uses up that element, or part of it. *)
Lemma next_element_progress argc argv optstring longopts oi e oo f l :
  1 <= oi ->
  let r := next_element argc argv optstring longopts oi e oo f l in
  0 <= ret r ->
  (remaining argc (argv_after r) (state_after r)
   < weight (drop (Z.to_nat oi) argv))%nat.
Proof.
  intros Hoi. unfold next_element.
  set (l1 := if oi <? l then oi else l).
  set (f1 := if oi <? f then oi else f).
  set (perm := if negb (f1 =? l1) && negb (l1 =? oi)
               then (exchange argv f1 l1 oi, f1 + (oi - l1), oi)
               else if negb (l1 =? oi) then (argv, oi, l1) else (argv, f1, l1)).
  assert (forall p, (Z.to_nat oi <= p)%nat ->
                    drop p perm.1.1 = drop p argv) as Hperm.
  { intros p Hp. unfold perm. repeat case_match; simpl; try reflexivity.
    by apply exchange_drop. }
  destruct perm as [[argv1 f2] l2]. simpl in Hperm.
  pose proof (skip_nonoptions_spec (Z.to_nat (argc - oi)) argv1 oi) as Hskip.
  set (p := skip_nonoptions (Z.to_nat (argc - oi)) argv1 oi) in *.
  simpl in Hskip. destruct Hskip as [Hle Hopt].
  destruct ((p <? argc) && String.eqb (arg argv1 p) "--") eqn:Hdd.
  { (* the element "--": the scan ends *)
    repeat case_match; simplify_eq; simpl; lia. }
  destruct (argc <=? p) eqn:Hend; [simpl; lia|].
  assert (nonoption_p argv1 p = false) as Hn by (apply Hopt; lia).
  destruct (option_element _ _ Hn) as [Hp0 (a & b & rest & Hel)].
  assert (arg argv1 p = String a (String b rest)) as Harg.
  { unfold arg. assert ((p <? 0) = false) as -> by lia. by rewrite Hel. }
  rewrite Harg.
  assert (weight (drop (Z.to_nat p) argv1)
          <= weight (drop (Z.to_nat oi) argv))%nat as Hw.
  { rewrite Hperm by lia. apply weight_drop_mono. lia. }
  rewrite (weight_drop_lookup _ _ _ Hel) in Hw. cbn [String.length] in Hw.
  case_match.
  - intros _.
    destruct (process_long_option_progress argc argv1 optstring longopts
                p e oo (substr_from (String a (String b rest)) 2) f2 p
                ltac:(lia)) as [-> Hlt].
    lia.
  - intros _.
    destruct (process_short_option_progress argc argv1 optstring
                p e oo (substr_from (String a (String b rest)) 1) f2 p
                ltac:(lia) eq_refl) as [-> Hlt].
    rewrite substr_from_S, substr_from_0 in Hlt |- *.
    cbn [String.length] in Hlt.
    lia.
Qed.

Lemma getopt_long_progress argc argv optstring longopts g :
  let r := Glibc.getopt_long argc argv optstring longopts g in
  0 <= ret r ->
  (remaining argc (argv_after r) (state_after r) < remaining argc argv g)%nat.
Proof.
  unfold Glibc.getopt_long, remaining.
  destruct (argc <? 1); [simpl; lia|].
  set (oi := if optind g <=? 0 then 1 else optind g).
  assert (1 <= oi) as Hoi by (unfold oi; case_match; lia).
  set (restart := (optind g <=? 0) || negb (initialized (internal g))).
  destruct (empty (if restart then "" else nextchar (internal g))) eqn:Hnc.
  - apply next_element_progress. exact Hoi.
  - intros _.
    by destruct (process_short_option_progress argc argv optstring
                   oi (opterr g) (optopt g)
                   (if restart then "" else nextchar (internal g))
                   (if restart then oi else first_nonopt (internal g))
                   (if restart then oi else last_nonopt (internal g))
                   Hoi Hnc) as [-> Hlt].
Qed.

Lemma getopt_long_restart argc argv optstring longopts
    (g : getopt_state internal_state) :
  1 <= argc -> optind g = 0 ->
  Glibc.getopt_long argc argv optstring longopts g =
  Glibc.getopt_long argc argv optstring longopts
    (mk_getopt_state 1 (opterr g) (optopt g) None internal0).
Proof.
  intros Hargc Hg. unfold Glibc.getopt_long. rewrite Hg. simpl.
  assert ((argc <? 1) = false) as -> by lia. reflexivity.
Qed.

Lemma getopt_long_no_arguments argc argv optstring longopts
    (g : getopt_state internal_state) :
  argc < 1 ->
  let r := Glibc.getopt_long argc argv optstring longopts g in
  ret r < 0 /\ argv_after r = argv /\ state_after r = g.
Proof.
  intros Hargc. unfold Glibc.getopt_long.
  assert ((argc <? 1) = true) as -> by lia. simpl.
  split; [lia|]. split; [reflexivity|]. by destruct g.
Qed.

End GlibcFacts.

(** ** Diagnostics *)

Lemma empty_app (s t : string) : empty (s ++ t) = empty s && empty t.
Proof. by destruct s. Qed.

(** Recording a diagnostic leaves the object not good, and the
    diagnostics are never emptied. *)
Lemma addErrorStr_not_good (str : string) (o : CmdOption) :
  empty str = false -> good (addErrorStr str o) = false.
Proof.
  intros Hs. unfold good, addErrorStr. simpl.
  rewrite empty_app, Hs. apply andb_false_r.
Qed.

Lemma addErrorStr_keeps_not_good (str : string) (o : CmdOption) :
  good o = false -> good (addErrorStr str o) = false.
Proof.
  unfold good, addErrorStr. simpl. intros ->. simpl.
  by rewrite !empty_app, andb_false_r.
Qed.

Lemma register_short_keeps_not_good s a o :
  good o = false -> good (register_short s a o).2 = false.
Proof.
  intros Hg. unfold register_short.
  repeat case_match; simpl; try done.
  all: by apply addErrorStr_keeps_not_good.
Qed.

Lemma register_long_keeps_not_good s l a u o :
  good o = false -> good (register_long s l a u o).2 = false.
Proof.
  intros Hg. unfold register_long.
  repeat case_match; simpl; try done.
  all: by apply addErrorStr_keeps_not_good.
Qed.

Lemma register_keeps_not_good s l a o :
  good o = false -> good (register s l a o) = false.
Proof.
  intros Hg. unfold register.
  pose proof (register_short_keeps_not_good s a o Hg) as H1.
  destruct (register_short s a o) as [u1 o1]. simpl in H1.
  pose proof (register_long_keeps_not_good s l a u1 o1 H1) as H2.
  destruct (register_long s l a u1 o1) as [u2 o2]. simpl in H2.
  by destruct u2.
Qed.

Lemma parseOptLine_keeps_not_good i line o :
  good o = false -> good (parseOptLine i line o).2 = false.
Proof.
  intros Hg. unfold parseOptLine.
  repeat case_match; simpl; try done.
  by apply register_keeps_not_good.
Qed.

Lemma parseLine_keeps_not_good i line o :
  good o = false -> good (parseLine i line o) = false.
Proof.
  intros Hg. unfold parseLine.
  pose proof (parseOptLine_keeps_not_good i line o Hg) as H1.
  destruct (parseOptLine i line o) as [ok o1]. simpl in H1.
  destruct ok; simpl; [done|]. by apply addErrorStr_keeps_not_good.
Qed.

Lemma every_line_keeps_not_good i lines o :
  good o = false -> good (every_line i lines o) = false.
Proof.
  revert i o. induction lines as [|line rest IH]; intros i o Hg; simpl.
  - done.
  - apply IH. by apply parseLine_keeps_not_good.
Qed.

(** A line that fails leaves the object as it was, apart from the
    diagnostic. *)
Lemma parseOptLine_false i line o :
  (parseOptLine i line o).1 = false -> (parseOptLine i line o).2 = o.
Proof. unfold parseOptLine. repeat case_match; simpl; done. Qed.

Lemma parseLine_invalid i line o :
  (parseOptLine i line o).1 = false ->
  parseLine i line o =
  addErrorStr ("invalid option at line: " ++ to_string i ++ String newline line) o.
Proof.
  intros Hf. unfold parseLine.
  pose proof (parseOptLine_false i line o Hf) as Ho.
  destruct (parseOptLine i line o) as [ok o1]. simpl in *. by subst.
Qed.

(** ** The loop of [init] *)

Lemma init_loop_not_good i lines o :
  good o = false -> init_loop i lines o = o.
Proof. intros Hg. destruct lines; simpl; [done | by rewrite Hg]. Qed.

(** While nothing is recorded, [init] examines line after line. *)
Lemma init_loop_every_line i lines o :
  good (every_line i lines o) = true ->
  init_loop i lines o = every_line i lines o.
Proof.
  revert i o. induction lines as [|line rest IH]; intros i o Hg; simpl in *.
  - done.
  - destruct (good o) eqn:Ho.
    + by apply IH.
    + rewrite every_line_keeps_not_good in Hg; [done|].
      by apply parseLine_keeps_not_good.
Qed.

Lemma every_line_app i pre post o :
  every_line i (pre ++ post) o =
  every_line (i + Z.of_nat (length pre)) post (every_line i pre o).
Proof.
  revert i o. induction pre as [|line rest IH]; intros i o; simpl.
  - by rewrite Z.add_0_r.
  - rewrite IH. f_equal. lia.
Qed.

Lemma init_loop_app i pre post o :
  good (every_line i pre o) = true ->
  init_loop i (pre ++ post) o =
  init_loop (i + Z.of_nat (length pre)) post (every_line i pre o).
Proof.
  revert i o. induction pre as [|line rest IH]; intros i o Hg; simpl in *.
  - by rewrite Z.add_0_r.
  - destruct (good o) eqn:Ho.
    + rewrite IH by done. f_equal. lia.
    + rewrite every_line_keeps_not_good in Hg; [done|].
      by apply parseLine_keeps_not_good.
Qed.

(** Once a line has recorded a diagnostic, the lines after it are not
    examined. *)
Lemma init_loop_stops i pre post line o :
  good (every_line i pre o) = true ->
  good (parseLine (i + Z.of_nat (length pre)) line (every_line i pre o)) = false ->
  init_loop i (pre ++ line :: post) o =
  parseLine (i + Z.of_nat (length pre)) line (every_line i pre o).
Proof.
  intros Hg Hbad. rewrite init_loop_app by done. simpl.
  rewrite Hg. by apply init_loop_not_good.
Qed.

(** C1, as stated, fails: after the invalid first line of this usage
    text the second line is not examined.  On its own the second line
    registers the option [b]; in the table built from both lines there is
    no such option, and the table differs from the one that examining
    every line would give. *)
Lemma init_skips_lines_after_diagnostic :
  let usage := "-abcd" ++ String newline "-b" in
  getlines usage = ["-abcd"; "-b"] /\
  m_errorStr (table_of usage)
    = "invalid option at line: 0" ++ String newline "-abcd" /\
  m_shortOptStr (table_of usage) = ":" /\
  m_indexMap (table_of usage) !! "b" = None /\
  m_shortOptStr (table_of "-b") = ":b" /\
  m_indexMap (table_of "-b") !! "b" = Some 0 /\
  init_loop 0 (getlines usage) fresh <> every_line 0 (getlines usage) fresh.
Proof.
  repeat split; try (vm_compute; reflexivity).
  intros H. apply (f_equal m_shortOptStr) in H. vm_compute in H. discriminate.
Qed.

(** C1, amended: [init] examines the lines in order for as long as
    nothing has been recorded.  A line reached in that way is examined;
    if it fails the usage-line parser, the diagnostic "invalid option at
    line: N", a newline and the line itself are recorded; and once a line
    has recorded a diagnostic, no later line is examined. *)
Theorem init_stops_at_first_diagnostic
    (i : Z) (pre post : list string) (line : string) (o : CmdOption) :
  good (every_line i pre o) = true ->
  let o1 := every_line i pre o in
  let n := i + Z.of_nat (length pre) in
  init_loop i (pre ++ [line]) o = parseLine n line o1 /\
  ((parseOptLine n line o1).1 = false ->
   parseLine n line o1 =
     addErrorStr ("invalid option at line: " ++ to_string n
                    ++ String newline line) o1 /\
   good (parseLine n line o1) = false) /\
  (good (parseLine n line o1) = false ->
   init_loop i (pre ++ line :: post) o = parseLine n line o1) /\
  (good (every_line n (line :: post) o1) = true ->
   init_loop i (pre ++ line :: post) o = every_line i (pre ++ line :: post) o).
Proof.
  intros Hg o1 n. pose proof Hg as Hg1. change (good o1 = true) in Hg1.
  repeat split.
  - rewrite init_loop_app by done. simpl. fold o1 n. by rewrite Hg1.
  - by apply parseLine_invalid.
  - rewrite parseLine_invalid by done. by apply addErrorStr_not_good.
  - intros Hbad. by apply init_loop_stops.
  - intros Hall. apply init_loop_every_line. by rewrite every_line_app.
Qed.

Lemma init_stops_at_first_diagnostic_witness :
  good (every_line 0 ["-a"] fresh) = true /\
  init_loop 0 (["-a"] ++ "-abcd" :: ["-b"]) fresh
    = parseLine 1 "-abcd" (every_line 0 ["-a"] fresh) /\
  m_errorStr (init_loop 0 (["-a"] ++ "-abcd" :: ["-b"]) fresh)
    = "invalid option at line: 1" ++ String newline "-abcd".
Proof.
  split; [vm_compute; reflexivity|].
  destruct (init_stops_at_first_diagnostic 0 ["-a"] ["-b"] "-abcd" fresh
              ltac:(vm_compute; reflexivity)) as (_ & Hinv & Hstop & _).
  split.
  - apply Hstop. vm_compute. reflexivity.
  - rewrite Hstop by (vm_compute; reflexivity).
    vm_compute. reflexivity.
Defined.

(** ** The null value is never touched *)

Lemma register_nullStrValue s l a o :
  m_nullStrValue (register s l a o) = m_nullStrValue o.
Proof.
  unfold register, register_short, register_long.
  repeat case_match; simplify_eq; reflexivity.
Qed.

Lemma parseLine_nullStrValue i line o :
  m_nullStrValue (parseLine i line o) = m_nullStrValue o.
Proof.
  unfold parseLine, parseOptLine.
  repeat case_match; simplify_eq; simpl; try reflexivity.
  all: apply register_nullStrValue.
Qed.

Lemma init_loop_nullStrValue i lines o :
  m_nullStrValue (init_loop i lines o) = m_nullStrValue o.
Proof.
  revert i o. induction lines as [|line rest IH]; intros i o; simpl.
  - done.
  - destruct (good o); [|done]. by rewrite IH, parseLine_nullStrValue.
Qed.

Lemma load_usage_nullStrValue usage o :
  m_nullStrValue (load_usage usage o) = m_nullStrValue o.
Proof. unfold load_usage, init. simpl. by rewrite init_loop_nullStrValue. Qed.

Section DispatcherFrame.
Context `{Scanner}.

Lemma parse_body_nullStrValue argc k :
  m_nullStrValue (parse_body argc k).2.1.1 = m_nullStrValue k.1.1.
Proof.
  destruct k as [[o argv] g]. unfold parse_body, resolve, indexMap_at.
  repeat case_match; simplify_eq; reflexivity.
Qed.

Lemma parse_loop_nullStrValue fuel argc k k' :
  parse_loop fuel argc k = Some k' ->
  m_nullStrValue k'.1.1 = m_nullStrValue k.1.1.
Proof.
  revert k. induction fuel as [|fuel IH]; intros k Hk; simpl in Hk; [done|].
  pose proof (parse_body_nullStrValue argc k) as Hb.
  destruct (parse_body argc k) as [[] k1]; simpl in Hb.
  - rewrite (IH _ Hk). done.
  - by simplify_eq.
Qed.

Lemma parse_nullStrValue fuel argv o g o' argv' g' :
  parse fuel argv o g = Some (o', argv', g') ->
  m_nullStrValue o' = m_nullStrValue o.
Proof.
  unfold parse. intros Hp.
  destruct (parse_loop _ _ _) as [[[o1 argv1] g1]|] eqn:Hl; [|done].
  apply parse_loop_nullStrValue in Hl. simpl in Hl.
  unfold parse_finish in Hp. destruct (collect _ _ _ _). by simplify_eq.
Qed.

Lemma reachable_nullStrValue o :
  reachable o -> m_nullStrValue o = StringValue.default.
Proof.
  induction 1 as [|usage o _ IH|fuel argv o g o' argv' g' _ IH Hp].
  - reflexivity.
  - by rewrite load_usage_nullStrValue.
  - by rewrite (parse_nullStrValue _ _ _ _ _ _ _ Hp).
Qed.

(** An identity has a collection after the loop only if it had one
    before or one of its options occurred. *)
Lemma parse_loop_options fuel argc k k' index :
  parse_loop fuel argc k = Some k' ->
  m_options k.1.1 !! index = None ->
  ~ In index (occurrences fuel argc k) ->
  m_options k'.1.1 !! index = None.
Proof.
  revert k. induction fuel as [|fuel IH]; intros k Hk Hnone Hocc; [done|].
  cbn [parse_loop occurrences] in *.
  destruct k as [[o argv] g].
  unfold recorded in Hocc. unfold parse_body in *.
  destruct (ret _ <? 0) eqn:Hret.
  { by simplify_eq. }
  destruct (resolve _ _ _ o) as [index' o1|o1|o1] eqn:Hres.
  - assert (m_options o1 = m_options o) as Ho.
    { unfold resolve, indexMap_at in Hres.
      repeat case_match; by simplify_eq. }
    assert (index' <> index) as Hne.
    { intros ->. apply Hocc. destruct (optarg _); by left. }
    destruct (optarg _); apply (IH _ Hk).
    all: try (simpl; rewrite lookup_insert_ne by done; by rewrite Ho).
    all: intros Hin; apply Hocc; by right.
  - apply (IH _ Hk); [|done].
    unfold resolve, indexMap_at in Hres.
    repeat case_match; by simplify_eq.
  - simplify_eq. unfold resolve, indexMap_at in Hres.
    repeat case_match; by simplify_eq.
Qed.

Lemma parse_options fuel argv o g o' argv' g' index :
  parse fuel argv o g = Some (o', argv', g') ->
  m_options o !! index = None ->
  ~ In index (occurrences fuel (Z.of_nat (length argv))
                (o, argv, set_opterr 0 g)) ->
  m_options o' !! index = None.
Proof.
  unfold parse. intros Hp Hnone Hocc.
  destruct (parse_loop _ _ _) as [[[o1 argv1] g1]|] eqn:Hl; [|done].
  pose proof (parse_loop_options _ _ _ _ index Hl Hnone Hocc) as H1.
  unfold parse_finish in Hp. destruct (collect _ _ _ _). by simplify_eq.
Qed.

End DispatcherFrame.

Lemma parseLine_options i line o :
  m_options (parseLine i line o) = m_options o.
Proof.
  unfold parseLine, parseOptLine, register, register_short, register_long.
  repeat case_match; by simplify_eq.
Qed.

Lemma init_loop_options i lines o :
  m_options (init_loop i lines o) = m_options o.
Proof.
  revert i o. induction lines as [|line rest IH]; intros i o; simpl.
  - done.
  - destruct (good o); [|done]. by rewrite IH, parseLine_options.
Qed.

Lemma table_of_options usage : m_options (table_of usage) = ∅.
Proof.
  unfold table_of, load_usage, init. simpl. by rewrite init_loop_options.
Qed.

(** C9: on every object a program can hold, [operator[]] throws
    [std::invalid_argument] with the text "unknown option: " and the
    string when the string is not a registered alias; when it is
    registered and no occurrence of its option has been recorded, the
    value delivered has count 0, converts to [false], and every [as<T>]
    of it throws [std::invalid_argument("null value")].  After a call
    of [parse] on a newly built table, no occurrence has been recorded
    for the identities whose options did not occur in the scan. *)
Theorem get_unknown_or_null `{Scanner} (o : CmdOption) (opt : string) :
  reachable o ->
  (m_indexMap o !! opt = None ->
   get opt o = Throw (invalid_argument ("unknown option: " ++ opt))) /\
  (forall index,
     m_indexMap o !! opt = Some index ->
     m_options o !! index = None ->
     exists v,
       get opt o = Ok v /\
       StringValue.count v = 0 /\
       StringValue.to_bool v = false /\
       forall (T : Type) (getValue : string -> result T),
         StringValue.as_ getValue v = Throw (invalid_argument "null value")) /\
  (forall usage fuel argv g argv' g' index,
     parse fuel argv (table_of usage) g = Some (o, argv', g') ->
     ~ In index (occurrences fuel (Z.of_nat (length argv))
                   (table_of usage, argv, set_opterr 0 g)) ->
     m_options o !! index = None).
Proof.
  intros Hr. split; [|split].
  - intros Hn. unfold get. by rewrite Hn.
  - intros index Hi Ho. exists StringValue.default.
    unfold get. rewrite Hi, Ho, (reachable_nullStrValue o Hr).
    repeat split.
  - intros usage fuel argv g argv' g' index Hp Hocc.
    eapply parse_options; [exact Hp | | exact Hocc].
    by rewrite table_of_options.
Qed.

Lemma get_unknown_or_null_witness :
  exists o argv g,
    parse 20 ["prog"; "-b"] (table_of ("-a, --all" ++ String newline "-b")) process_start
      = Some (o, argv, g) /\
    get "zeta" o = Throw (invalid_argument "unknown option: zeta") /\
    (exists v, get "all" o = Ok v /\ StringValue.count v = 0) /\
    (exists v, get "b" o = Ok v /\ StringValue.count v = 1).
Proof.
  destruct (parse 20 ["prog"; "-b"]
              (table_of ("-a, --all" ++ String newline "-b")) process_start)
    as [[[o argv] g]|] eqn:Hp; [|vm_compute in Hp; discriminate].
  exists o, argv, g. split; [reflexivity|].
  assert (reachable o) as Hr.
  { eapply reachable_parse; [|exact Hp].
    apply reachable_load, reachable_fresh. }
  destruct (get_unknown_or_null o "zeta" Hr) as (Hzeta & _ & _).
  destruct (get_unknown_or_null o "all" Hr) as (_ & Hall & Hnone).
  specialize (Hnone _ _ _ _ _ _ 0 Hp).
  vm_compute in Hp. injection Hp as Ho Hargv Hg.
  split; [|split].
  - apply Hzeta. rewrite <- Ho. reflexivity.
  - destruct (Hall 0) as (v & Hv & Hc & _).
    + rewrite <- Ho. reflexivity.
    + apply Hnone. vm_compute. intros [E|[]]. discriminate.
    + by exists v.
  - rewrite <- Ho. eexists. split; reflexivity.
Defined.

(** ** Strings *)

Lemma app_cons (a : ascii) (s t : string) : String a s ++ t = String a (s ++ t).
Proof. reflexivity. Qed.

Lemma app_empty_l (t : string) : "" ++ t = t.
Proof. reflexivity. Qed.

Lemma app_empty_r (s : string) : s ++ "" = s.
Proof. induction s as [|a s IH]; [done|]. by rewrite app_cons, IH. Qed.

Lemma app_string_assoc (s t u : string) : (s ++ t) ++ u = s ++ t ++ u.
Proof. induction s as [|a s IH]; [done|]. by rewrite !app_cons, IH. Qed.

Lemma length_app_string (s t : string) :
  String.length (s ++ t) = (String.length s + String.length t)%nat.
Proof.
  induction s as [|a s IH]; [done|]. rewrite app_cons. simpl. by rewrite IH.
Qed.

Lemma at_app_l (s t : string) (i : nat) :
  (i < String.length s)%nat -> at_ (s ++ t) i = at_ s i.
Proof.
  revert i. induction s as [|a s IH]; intros i Hi; simpl in Hi; [lia|].
  rewrite app_cons. destruct i as [|i]; [reflexivity|].
  unfold at_ in *. simpl. apply IH. lia.
Qed.

Lemma at_app_r (s t : string) (i : nat) :
  at_ (s ++ t) (String.length s + i) = at_ t i.
Proof.
  induction s as [|a s IH]; [reflexivity|].
  rewrite app_cons. unfold at_ in *. simpl. apply IH.
Qed.

Lemma find_first_of_app (c : ascii) (s t : string) :
  find_first_of c s = None ->
  find_first_of c (s ++ t) =
  match find_first_of c t with
  | Some k => Some (String.length s + k)%nat
  | None => None
  end.
Proof.
  induction s as [|a s IH]; intros Hs.
  - rewrite app_empty_l. by destruct (find_first_of c t).
  - rewrite app_cons. simpl in *. destruct (Ascii.eqb a c); [done|].
    destruct (find_first_of c s); [done|].
    rewrite IH by done. by destruct (find_first_of c t).
Qed.

Lemma substring_prefix (s t : string) :
  substring 0 (String.length s) (s ++ t) = s.
Proof.
  induction s as [|a s IH].
  - rewrite app_empty_l. by destruct t.
  - rewrite app_cons. simpl. by rewrite IH.
Qed.

(** ** The token classifier *)

Lemma dashes (s : string) : "--" ++ s = String "-" (String "-" s).
Proof. reflexivity. Qed.

Lemma long_option_word_plain (name : string) :
  find_first_of "="%char name = None ->
  long_option_word ("--" ++ name) = Some (name, no_argument).
Proof.
  intros Hn. unfold long_option_word. rewrite dashes. simpl. rewrite Hn.
  by rewrite !substr_from_S, substr_from_0.
Qed.

Lemma find_first_of_eq (name : string) (t : string) :
  find_first_of "="%char name = None ->
  find_first_of "="%char ("--" ++ name ++ String "="%char t)
  = Some (2 + String.length name)%nat.
Proof.
  intros Hn. rewrite dashes. simpl.
  rewrite (find_first_of_app _ _ _ Hn). simpl.
  by rewrite Nat.add_0_r.
Qed.

Lemma back_dashes_app (name t : string) :
  at_ ("--" ++ name ++ t) (2 + String.length name - 1) = back ("--" ++ name).
Proof.
  rewrite <- app_string_assoc. unfold back.
  rewrite at_app_l; rewrite length_app_string; simpl; [|lia].
  f_equal.
Qed.

Lemma long_option_word_required (name arg : string) :
  find_first_of "="%char name = None ->
  back ("--" ++ name) <> "["%char ->
  long_option_word ("--" ++ name ++ "=" ++ arg) = Some (name, required_argument).
Proof.
  intros Hn Hb. unfold long_option_word.
  change ("=" ++ arg) with (String "="%char arg).
  rewrite (find_first_of_eq name arg Hn), back_dashes_app.
  apply Ascii.eqb_neq in Hb. rewrite Hb.
  unfold substr. rewrite dashes. simpl.
  replace (String.length name - 0)%nat with (String.length name) by lia.
  by rewrite substring_prefix.
Qed.

Lemma long_option_word_bracket (name arg : string) :
  find_first_of "="%char name = None ->
  long_option_word ("--" ++ name ++ "[=" ++ arg) =
  if Ascii.eqb (back ("--" ++ name ++ "[=" ++ arg)) "]"%char
  then Some (name, optional_argument) else None.
Proof.
  intros Hn. unfold long_option_word.
  assert (find_first_of "="%char (name ++ "[") = None) as Hn'.
  { rewrite (find_first_of_app _ _ _ Hn). reflexivity. }
  assert ("--" ++ name ++ "[=" ++ arg
          = "--" ++ (name ++ "[") ++ String "="%char arg) as Hw.
  { by rewrite app_string_assoc. }
  rewrite Hw at 1. rewrite (find_first_of_eq (name ++ "[") arg Hn').
  rewrite length_app_string. simpl String.length.
  replace (2 + (String.length name + 1) - 1)%nat
    with (String.length ("--" ++ name) + 0)%nat
    by (rewrite length_app_string; simpl; lia).
  rewrite <- (app_string_assoc "--" name) at 1. rewrite at_app_r.
  change (at_ ("[=" ++ arg) 0) with "["%char.
  change (Ascii.eqb "[" "[") with true. cbv iota.
  destruct (Ascii.eqb _ "]"%char); simpl; [|reflexivity].
  unfold substr. rewrite !app_empty_l.
  replace (String.length name + 0 - 0)%nat with (String.length name) by lia.
  by rewrite substring_prefix.
Qed.

(** A word that starts with two dashes and is among the first two
    words ends the loop with [false] when the classifier rejects it. *)
Lemma scan_words_long_rejected (body : string) ws n s l a :
  n < 2 ->
  long_option_word ("--" ++ body) = None ->
  scan_words (("--" ++ body) :: ws) n s l a = ScanFalse.
Proof.
  intros Hn Hw. cbn [scan_words]. rewrite Hw. rewrite dashes.
  assert ((2 <? n + 1) = false) as -> by lia.
  reflexivity.
Qed.

(** A word that starts with two dashes and is among the first two
    words hands its name and requirement to the loop when the classifier
    accepts it. *)
Lemma scan_words_long_accepted (body name : string) (req : Z) ws n s l a :
  n < 2 ->
  long_option_word ("--" ++ body) = Some (name, req) ->
  scan_words (("--" ++ body) :: ws) n s l a = scan_words ws (n + 1) s name req.
Proof.
  intros Hn Hw. cbn [scan_words]. rewrite Hw. rewrite dashes.
  assert ((2 <? n + 1) = false) as -> by lia.
  reflexivity.
Qed.

(** After two words the loop reads at most one more. *)
Lemma scan_words_after_two ws s l a :
  exists n, scan_words ws 2 s l a = ScanEnd n s l a /\ 2 <= n.
Proof.
  destruct ws as [|w ws].
  - exists 2. by split.
  - exists 3. by split.
Qed.

(** After one word, with nothing or prose to follow, the loop ends
    with what it holds. *)
Lemma scan_words_after_one ws s l a :
  (forall w2, head ws = Some w2 -> prose_word w2) ->
  exists n, scan_words ws 1 s l a = ScanEnd n s l a /\ 1 <= n.
Proof.
  intros Hprose. destruct ws as [|w2 ws].
  - exists 1. by split.
  - destruct (Hprose w2 eq_refl) as [Hlen Hdash].
    cbn [scan_words]. simpl (2 <? 1 + 1). cbv iota.
    assert ((String.length w2 <=? 1)%nat = false) as ->
      by (apply Nat.leb_gt; lia).
    apply Ascii.eqb_neq in Hdash. rewrite Hdash. cbn [negb]. cbv iota.
    simpl (1 + 1 =? 1). cbv iota.
    destruct (scan_words_after_two ws s l a) as (n & Hn & Hle).
    exists n. split; [exact Hn | lia].
Qed.

(** What the registration of a long option leaves in the tables. *)
Lemma register_long_tables x name req o :
  name <> "" ->
  m_longOptNames (register x name req o) = (m_longOptNames o ++ [name])%list /\
  m_longOptions (register x name req o)
    = (m_longOptions o ++ [mk_long_option None req (int_of_char x)])%list /\
  is_Some (m_indexMap (register x name req o) !! name).
Proof.
  intros Hname. assert (empty name = false) as Hel by (by destruct name).
  unfold register, register_short, register_long. rewrite Hel. cbn [negb].
  repeat case_match; simplify_eq; simpl in *;
    rewrite ?lookup_insert_eq; eauto.
Qed.

Lemma register_long_alone name req o :
  m_shortOptStr (register NUL name req o) = m_shortOptStr o.
Proof.
  unfold register, register_short, register_long.
  repeat case_match; simplify_eq; reflexivity.
Qed.

(** A word that the classifier accepts is classified on the line. *)
Lemma long_option_word_classified (body name : string) (req : Z) :
  long_option_word ("--" ++ body) = Some (name, req) ->
  classified_as ("--" ++ body) name req.
Proof.
  intros Hw. split; [exact Hw|]. split.
  { intros ws n s l a Hn. by apply scan_words_long_accepted. }
  intros Hname line ws i o Hprose.
  assert (empty name = false) as Hel by (by destruct name).
  split; [|split].
  - intros Hwords.
    destruct (scan_words_after_one ws NUL name req Hprose) as (n & Hn & Hle).
    split; [|by apply register_long_alone].
    unfold parseOptLine, scan_line. rewrite Hwords.
    rewrite (scan_words_long_accepted body name req) by (lia || done).
    change (0 + 1) with 1. rewrite Hn.
    assert ((n =? 0) = false) as -> by lia.
    rewrite Hel. cbn [andb Ascii.eqb]. rewrite Bool.andb_false_r.
    unfold final_argReqmt. by rewrite Hel.
  - intros x Hdash Hnul Hwords.
    unfold parseOptLine, scan_line. rewrite Hwords.
    change ("-" ++ str_of_char x ++ ",") with (String "-" (String x ",")).
    cbn [scan_words]. simpl (2 <? 0 + 1). cbv iota.
    simpl (String.length _ <=? 1)%nat at 1. cbv iota.
    change (at_ (String "-" (String x ",")) 0) with "-"%char.
    change (at_ (String "-" (String x ",")) 1) with x.
    change (Ascii.eqb "-" "-") with true. cbn [negb]. cbv iota.
    pose proof Hdash as Hdash'. apply Ascii.eqb_neq in Hdash'. rewrite Hdash'.
    change (short_option_bad NUL (String "-" (String x ","))) with false.
    cbv iota. simpl (2 <? 0 + 1 + 1). cbv iota.
    rewrite Hw. rewrite dashes.
    change (at_ (String "-" (String "-" body)) 0) with "-"%char.
    change (at_ (String "-" (String "-" body)) 1) with "-"%char.
    change (Ascii.eqb "-" "-") with true. cbn [negb]. cbv iota.
    simpl (String.length _ <=? 1)%nat. cbv iota.
    destruct (scan_words_after_two ws x name req) as (n & Hn & Hle).
    change (2 <? 0 + 1) with false. change (2 <? 0 + 1 + 1) with false.
    cbv iota. change (0 + 1 + 1) with 2. rewrite Hn.
    assert ((n =? 0) = false) as -> by lia.
    apply Ascii.eqb_neq in Hnul. rewrite Hnul. cbn [andb].
    unfold final_argReqmt. by rewrite Hel.
  - intros x.
    by apply register_long_tables.
Qed.

(** C3: the classification of a word that starts with two dashes on a
    usage line.  Let [name] hold no [=].  The word [--name] is classified
    as the long option [name] without argument.  The word [--name=arg],
    where the character before the [=] is not an opening bracket, is
    classified as [name] with a required argument.  The word
    [--name[=arg] is classified as [name] with an optional argument when
    it ends with a closing bracket.  Classified means: the word loop
    takes that name and requirement from the word wherever it is among
    the first two words, and a line on which the word comes first, or
    second after a short option, followed by nothing or by prose, is a
    valid line that registers that long name with that requirement.
    When [--name[=arg] does not end with a closing bracket, the
    classifier rejects it, the word loop returns [false] if the word is
    among the first two, and a line that starts with it is invalid. *)
Theorem long_option_classification (name arg : string) :
  find_first_of "="%char name = None ->
  classified_as ("--" ++ name) name no_argument /\
  (back ("--" ++ name) <> "["%char ->
   classified_as ("--" ++ name ++ "=" ++ arg) name required_argument) /\
  (back ("--" ++ name ++ "[=" ++ arg) = "]"%char ->
   classified_as ("--" ++ name ++ "[=" ++ arg) name optional_argument) /\
  (back ("--" ++ name ++ "[=" ++ arg) <> "]"%char ->
   long_option_word ("--" ++ name ++ "[=" ++ arg) = None /\
   (forall ws n s l a,
      n < 2 ->
      scan_words (("--" ++ name ++ "[=" ++ arg) :: ws) n s l a = ScanFalse) /\
   (forall line ws i o,
      words line = ("--" ++ name ++ "[=" ++ arg) :: ws ->
      parseOptLine i line o = (false, o) /\
      good (parseLine i line o) = false)).
Proof.
  intros Hn. split.
  { apply long_option_word_classified. by apply long_option_word_plain. }
  split.
  { intros Hb. apply long_option_word_classified.
    by apply long_option_word_required. }
  pose proof (long_option_word_bracket name arg Hn) as Hb.
  split.
  - intros Hc. apply long_option_word_classified. rewrite Hb. by rewrite Hc.
  - intros Hc. apply Ascii.eqb_neq in Hc. rewrite Hc in Hb.
    split; [exact Hb|]. split.
    + intros ws n s l a Hlt. by apply scan_words_long_rejected.
    + intros line ws i o Hw.
      assert (parseOptLine i line o = (false, o)) as Hp.
      { unfold parseOptLine, scan_line. rewrite Hw.
        by rewrite scan_words_long_rejected. }
      split; [exact Hp|].
      rewrite parseLine_invalid by (by rewrite Hp).
      by apply addErrorStr_not_good.
Qed.

Lemma long_option_classification_witness :
  parseOptLine 0 "--all  show all" fresh
    = (true, register NUL "all" no_argument fresh) /\
  parseOptLine 0 "-d, --delta=NUM" fresh
    = (true, register "d" "delta" required_argument fresh) /\
  parseOptLine 0 "-e, --epsilon[=NUM]  the precision" fresh
    = (true, register "e" "epsilon" optional_argument fresh) /\
  m_longOptNames (register "e" "epsilon" optional_argument fresh)
    = ["epsilon"] /\
  m_longOptions (register "e" "epsilon" optional_argument fresh)
    = [mk_long_option None optional_argument 101] /\
  long_option_word "--epsilon[=NUM" = None /\
  parseOptLine 0 "--epsilon[=NUM" fresh = (false, fresh).
Proof.
  assert (forall w2 : string,
            head ["show"; "all"] = Some w2 -> prose_word w2) as P1.
  { intros w2 Hw. cbn in Hw. injection Hw as <-. split; [cbv; lia | discriminate]. }
  assert (forall w2 : string, head (@nil string) = Some w2 -> prose_word w2)
    as P2 by (intros w2 Hw; discriminate).
  assert (forall w2 : string,
            head ["the"; "precision"] = Some w2 -> prose_word w2) as P3.
  { intros w2 Hw. cbn in Hw. injection Hw as <-. split; [cbv; lia | discriminate]. }
  destruct (long_option_classification "all" "" eq_refl) as ((_ & _ & Hall) & _).
  destruct (long_option_classification "delta" "NUM" eq_refl)
    as (_ & Hdelta & _).
  destruct Hdelta as (_ & _ & Hdelta); [vm_compute; discriminate|].
  destruct (long_option_classification "epsilon" "NUM]" eq_refl)
    as (_ & _ & Heps & _).
  destruct Heps as (_ & _ & Heps); [vm_compute; reflexivity|].
  destruct (long_option_classification "epsilon" "NUM" eq_refl)
    as (_ & _ & _ & Hbad).
  destruct Hbad as (Hnone & _ & Hline); [vm_compute; discriminate|].
  destruct (Hall ltac:(discriminate) "--all  show all" ["show"; "all"] 0 fresh P1)
    as (Hfirst & _ & _).
  destruct (Hdelta ltac:(discriminate) "-d, --delta=NUM" [] 0 fresh P2)
    as (_ & Hpair2 & _).
  destruct (Heps ltac:(discriminate) "-e, --epsilon[=NUM]  the precision"
              ["the"; "precision"] 0 fresh P3) as (_ & Hpair3 & Hreg).
  destruct (Hreg "e"%char) as (Hnames & Hopts & _).
  split.
  { apply Hfirst. vm_compute. reflexivity. }
  split.
  { apply (Hpair2 "d"%char);
      [discriminate | discriminate | vm_compute; reflexivity]. }
  split.
  { apply (Hpair3 "e"%char);
      [discriminate | discriminate | vm_compute; reflexivity]. }
  split; [exact Hnames|]. split; [exact Hopts|].
  split; [exact Hnone|].
  apply (Hline "--epsilon[=NUM" [] 0 fresh). vm_compute. reflexivity.
Defined.

(** ** The usage-line parser *)

(** The count the word loop ends with: the number of words, or three
    as soon as there are more than two. *)
Lemma scan_words_count ws n s l a n' s' l' a' :
  0 <= n <= 2 ->
  scan_words ws n s l a = ScanEnd n' s' l' a' ->
  n' = Z.min (n + Z.of_nat (length ws)) 3.
Proof.
  revert n s l a. induction ws as [|word ws IH]; intros n s l a Hn Hs.
  - simpl in Hs. injection Hs as <- _ _ _. simpl. lia.
  - cbn [scan_words] in Hs. cbn [length].
    destruct (2 <? n + 1) eqn:Hbreak.
    + injection Hs as <- _ _ _. lia.
    + repeat case_match; try discriminate;
        apply IH in Hs; lia.
  Qed.

(** A short option set by the loop means that a word was read. *)
Lemma scan_words_short_set ws s' l' a' n' :
  scan_words ws 0 NUL "" 0 = ScanEnd n' s' l' a' ->
  s' <> NUL -> ws <> [].
Proof. intros Hs Hne ->. simpl in Hs. by injection Hs as _ <- _ _. Qed.

Lemma register_short_shortOptStr s a o :
  s <> NUL ->
  m_shortOptStr (register_short s a o).2 =
  m_shortOptStr o ++ str_of_char s ++
    (if (a =? required_argument) || (a =? optional_argument) then ":" else "").
Proof.
  intros Hs. apply Ascii.eqb_neq in Hs. unfold register_short. rewrite Hs.
  cbn [negb]. cbv iota.
  destruct ((a =? required_argument) || (a =? optional_argument));
    repeat case_match; simpl; by rewrite ?app_string_assoc, ?app_empty_r.
Qed.

Lemma register_shortOptStr s l a o :
  m_shortOptStr (register s l a o) = m_shortOptStr (register_short s a o).2.
Proof.
  unfold register. destruct (register_short s a o) as [u o1]. simpl.
  unfold register_long. repeat case_match; simplify_eq; reflexivity.
Qed.

(** C4: when the word loop ends with a short option and no long option,
    the argument requirement is [required_argument] exactly when the line
    has two words and [no_argument] for every other number of words; the
    line is registered with that requirement, so that the short option is
    followed by a colon in the option string exactly when the line has two
    words. *)
Theorem short_only_arity (line : string) (n : Z) (shortOpt : ascii)
    (longOpt : string) (argReqmt : Z) :
  scan_line line = ScanEnd n shortOpt longOpt argReqmt ->
  shortOpt <> NUL ->
  longOpt = "" ->
  let arity := final_argReqmt n longOpt argReqmt in
  (arity = required_argument <-> length (words line) = 2%nat) /\
  (arity = no_argument <-> length (words line) <> 2%nat) /\
  (forall i o,
     parseOptLine i line o = (true, register shortOpt "" arity o) /\
     m_shortOptStr (register shortOpt "" arity o) =
       m_shortOptStr o ++ str_of_char shortOpt ++
         (if (length (words line) =? 2)%nat then ":" else "")).
Proof.
  intros Hs Hshort -> arity. unfold scan_line in Hs.
  assert (0 <= 0 <= 2) as H02 by lia.
  pose proof (scan_words_count _ _ _ _ _ _ _ _ _ H02 Hs) as Hn.
  pose proof (scan_words_short_set _ _ _ _ _ Hs Hshort) as Hne.
  assert (0 < length (words line))%nat as Hlen
    by (destruct (words line); [done | simpl; lia]).
  assert (arity = if (length (words line) =? 2)%nat
                  then required_argument else no_argument) as Harity.
  { unfold arity, final_argReqmt. simpl.
    destruct (Nat.eqb_spec (length (words line)) 2) as [E|E].
    - rewrite E in Hn. by subst n.
    - assert ((n =? 2) = false) as -> by lia. done. }
  split; [|split].
  - rewrite Harity. destruct (Nat.eqb_spec (length (words line)) 2); done.
  - rewrite Harity. destruct (Nat.eqb_spec (length (words line)) 2); done.
  - intros i o. split.
    + unfold parseOptLine, scan_line. rewrite Hs.
      assert ((n =? 0) = false) as -> by lia.
      apply Ascii.eqb_neq in Hshort. rewrite Hshort. reflexivity.
    + rewrite register_shortOptStr, register_short_shortOptStr by done.
      rewrite Harity. by destruct (length (words line) =? 2)%nat.
Qed.

Lemma short_only_arity_witness :
  scan_line "-f FILE" = ScanEnd 2 "f"%char "" 0 /\
  final_argReqmt 2 "" 0 = required_argument /\
  m_shortOptStr (register "f"%char "" (final_argReqmt 2 "" 0) fresh) = ":f:" /\
  scan_line "-c no long option" = ScanEnd 3 "c"%char "" 0 /\
  final_argReqmt 3 "" 0 = no_argument /\
  m_shortOptStr (register "c"%char "" (final_argReqmt 3 "" 0) fresh) = ":c".
Proof.
  assert ("f"%char <> NUL) as Hf by discriminate.
  assert ("c"%char <> NUL) as Hc by discriminate.
  destruct (short_only_arity "-f FILE" 2 "f"%char "" 0 eq_refl Hf eq_refl)
    as (Hreq & _ & Htab).
  destruct (short_only_arity "-c no long option" 3 "c"%char "" 0
              eq_refl Hc eq_refl) as (_ & Hnone & Htab').
  split; [reflexivity|]. split; [by apply Hreq|].
  split; [exact (proj2 (Htab 0 fresh))|].
  split; [reflexivity|]. split; [by apply Hnone|].
  exact (proj2 (Htab' 0 fresh)).
Defined.

(** ** The option table builder *)

(** Registration only adds aliases: an alias that is present keeps its
    identity. *)
Lemma register_keeps_alias s l a o alias id :
  m_indexMap o !! alias = Some id ->
  m_indexMap (register s l a o) !! alias = Some id.
Proof.
  intros Hk. unfold register, register_short, register_long.
  repeat case_match; simplify_eq; simpl in *; try done.
  all: destruct (decide (l = alias)) as [->|];
    destruct (decide (str_of_char s = alias)) as [<-|];
    by simplify_map_eq.
Qed.

Lemma parseLine_keeps_alias i line o alias id :
  m_indexMap o !! alias = Some id ->
  m_indexMap (parseLine i line o) !! alias = Some id.
Proof.
  intros Hk. unfold parseLine, parseOptLine.
  repeat case_match; simplify_eq; simpl; try done.
  all: by apply register_keeps_alias.
Qed.

Lemma init_loop_keeps_alias i lines o alias id :
  m_indexMap o !! alias = Some id ->
  m_indexMap (init_loop i lines o) !! alias = Some id.
Proof.
  revert i o. induction lines as [|line rest IH]; intros i o Hk; simpl.
  - done.
  - destruct (good o); [|done]. apply IH. by apply parseLine_keeps_alias.
Qed.

Lemma init_indexMap o : m_indexMap (init o) = m_indexMap (init_loop 0 (getlines (m_usage o)) o).
Proof. reflexivity. Qed.

Lemma register_maxIndex_le s l a o : m_maxIndex o <= m_maxIndex (register s l a o).
Proof.
  unfold register, register_short, register_long.
  repeat case_match; simplify_eq; simpl; lia.
Qed.

Lemma register_identities_bounded s l a o :
  identities_bounded o -> identities_bounded (register s l a o).
Proof.
  intros [H0 Hb]. split.
  { pose proof (register_maxIndex_le s l a o). lia. }
  intros alias id. unfold register, register_short, register_long.
  repeat case_match; simplify_eq; simpl in *; intros Hk.
  all: repeat match goal with
         | H : <[_ := _]> _ !! _ = Some _ |- _ =>
             apply lookup_insert_Some in H as [[_ <-]|[_ H]]
         end.
  all: try (specialize (Hb _ _ Hk)); lia.
Qed.

Lemma parseLine_identities_bounded i line o :
  identities_bounded o -> identities_bounded (parseLine i line o).
Proof.
  intros Hb. unfold parseLine, parseOptLine.
  repeat case_match; simplify_eq; simpl; try done.
  all: by apply register_identities_bounded.
Qed.

Lemma init_loop_identities_bounded i lines o :
  identities_bounded o -> identities_bounded (init_loop i lines o).
Proof.
  revert i o. induction lines as [|line rest IH]; intros i o Hb; simpl.
  - done.
  - destruct (good o); [|done]. apply IH. by apply parseLine_identities_bounded.
Qed.

Lemma table_of_identities_bounded usage : identities_bounded (table_of usage).
Proof.
  assert (identities_bounded
            (init_loop 0 (getlines usage) (set_usage usage fresh))) as Hb.
  { apply init_loop_identities_bounded. split; [simpl; lia|].
    intros ? ?. simpl. by rewrite lookup_empty. }
  exact Hb.
Qed.

(** Registering a short and a long option that are both new. *)
Lemma register_pair_indexMap s l a o :
  s <> NUL -> l <> "" ->
  m_indexMap o !! str_of_char s = None ->
  m_indexMap o !! l = None ->
  m_indexMap (register s l a o) !! str_of_char s = Some (m_maxIndex o) /\
  m_indexMap (register s l a o) !! l = Some (m_maxIndex o).
Proof.
  intros Hs Hl Hks Hkl. apply Ascii.eqb_neq in Hs.
  assert (empty l = false) as Hel by (by destruct l).
  unfold register, register_short, register_long. rewrite Hs, Hel.
  cbn [negb]. cbv iota.
  destruct (decide (l = str_of_char s)) as [->|Hne].
  - repeat case_match; simplify_eq; simpl in *;
      rewrite ?lookup_insert_eq in *; simplify_eq; done.
  - repeat case_match; simplify_eq; simpl in *;
      rewrite ?lookup_insert_eq, ?lookup_insert_ne in * by done;
      rewrite ?lookup_insert_eq in *; simplify_eq; done.
Qed.

Lemma register_longOptions s l a o :
  l <> "" ->
  m_longOptions (register s l a o) =
    (m_longOptions o ++ [mk_long_option None a (int_of_char s)])%list /\
  m_longOptNames (register s l a o) = (m_longOptNames o ++ [l])%list.
Proof.
  intros Hl. assert (empty l = false) as Hel by (by destruct l).
  unfold register, register_short, register_long. rewrite Hel.
  repeat case_match; simplify_eq; simpl in *; done.
Qed.

(** The word loop on a line that starts with [-x,] and [--name]. *)
Lemma scan_short_long_pair (x : ascii) (name : string) (ws : list string) :
  x <> "-"%char ->
  find_first_of "="%char name = None ->
  exists n,
    scan_words (("-" ++ str_of_char x ++ ",") :: ("--" ++ name) :: ws)
      0 NUL "" 0 = ScanEnd n x name no_argument /\ n <> 0.
Proof.
  intros Hx Hn. apply Ascii.eqb_neq in Hx.
  change ("-" ++ str_of_char x ++ ",") with (String "-" (String x ",")).
  cbn [scan_words]. simpl (2 <? 0 + 1). cbv iota.
  simpl (String.length _ <=? 1)%nat. cbv iota.
  change (at_ (String "-" (String x ",")) 0) with "-"%char.
  change (at_ (String "-" (String x ",")) 1) with x.
  change (Ascii.eqb "-" "-") with true. cbn [negb]. cbv iota. rewrite Hx.
  change (short_option_bad NUL (String "-" (String x ","))) with false.
  cbv iota. simpl (2 <? 0 + 1 + 1). cbv iota.
  rewrite (long_option_word_plain name Hn). rewrite dashes.
  change (at_ (String "-" (String "-" name)) 0) with "-"%char.
  change (at_ (String "-" (String "-" name)) 1) with "-"%char.
  change (Ascii.eqb "-" "-") with true. cbn [negb]. cbv iota.
  simpl (String.length _ <=? 1)%nat. cbv iota.
  destruct ws as [|w ws].
  - eexists. split; [reflexivity | lia].
  - cbn [scan_words]. simpl (2 <? 0 + 1 + 1 + 1). cbv iota.
    eexists. split; [reflexivity | lia].
Qed.

(** ** Duplicate aliases *)

Lemma lookup_is_Some_decide (m : gmap string Z) (k : string) :
  bool_decide (is_Some (m !! k)) = match m !! k with Some _ => true | None => false end.
Proof.
  destruct (m !! k) eqn:E.
  - apply bool_decide_eq_true_2. by eexists.
  - apply bool_decide_eq_false_2. by intros [? ?].
Qed.

(** The diagnostics of a registration are the duplicate-option
    diagnostics of its aliases, the short one first. *)
Lemma register_errorStr s l a o :
  m_errorStr (register s l a o) = m_errorStr (record_all (duplicates s l o) o).
Proof.
  unfold register, register_short, register_long, duplicates, record_all,
    short_taken, long_taken.
  rewrite !lookup_is_Some_decide.
  destruct (Ascii.eqb s NUL) eqn:Hs; cbn [negb andb orb]; cbv iota.
  - destruct (empty l) eqn:Hl; cbn [negb andb orb]; cbv iota; [done|].
    simpl. rewrite orb_false_r. by destruct (m_indexMap o !! l).
  - destruct ((a =? required_argument) || (a =? optional_argument));
      cbn [m_indexMap set_shortOptStr].
    all: destruct (m_indexMap o !! str_of_char s) eqn:Hks;
      destruct (empty l) eqn:Hl; cbn [negb andb orb]; cbv iota;
      try (simpl; done).
    all: simpl; destruct (String.eqb_spec l (str_of_char s)) as [->|Hne];
      rewrite ?lookup_insert_eq, ?lookup_insert_ne, ?Hks, ?orb_true_r,
        ?orb_false_r by done; simpl; try done.
    all: by destruct (m_indexMap o !! l).
Qed.

(** A new identity is consumed exactly when an alias is new. *)
Lemma register_maxIndex s l a o :
  m_maxIndex (register s l a o) =
  if (Ascii.eqb s NUL || short_taken s o) && (empty l || long_taken s l o)
  then m_maxIndex o else m_maxIndex o + 1.
Proof.
  unfold register, register_short, register_long, short_taken, long_taken.
  rewrite !lookup_is_Some_decide.
  destruct (Ascii.eqb s NUL) eqn:Hs; cbn [negb andb orb]; cbv iota.
  - destruct (empty l) eqn:Hl; cbn [negb andb orb]; cbv iota; [done|].
    simpl. rewrite orb_false_r. by destruct (m_indexMap o !! l).
  - destruct ((a =? required_argument) || (a =? optional_argument));
      cbn [m_indexMap set_shortOptStr].
    all: destruct (m_indexMap o !! str_of_char s) eqn:Hks;
      destruct (empty l) eqn:Hl; cbn [negb andb orb]; cbv iota;
      try (simpl; done).
    all: simpl; destruct (String.eqb_spec l (str_of_char s)) as [->|Hne];
      rewrite ?lookup_insert_eq, ?lookup_insert_ne, ?Hks, ?orb_true_r,
        ?orb_false_r by done; simpl; try done.
    all: by destruct (m_indexMap o !! l).
Qed.

Lemma record_all_not_good diagnostics o :
  Forall (fun d => empty d = false) diagnostics ->
  diagnostics <> [] ->
  good (record_all diagnostics o) = false.
Proof.
  intros Hall Hne. destruct diagnostics as [|d ds]; [done|]. clear Hne.
  unfold record_all. simpl. inversion Hall as [|? ? Hd Hds]; subst.
  assert (good (addErrorStr d o) = false) as Hg by (by apply addErrorStr_not_good).
  clear Hall Hd. revert Hg. generalize (addErrorStr d o).
  induction ds as [|d' ds IH]; intros o' Hg; simpl; [done|].
  inversion Hds; subst. apply IH; [done|]. by apply addErrorStr_keeps_not_good.
Qed.

Lemma duplicates_nonempty s l o :
  Forall (fun d => empty d = false) (duplicates s l o).
Proof.
  unfold duplicates. apply Forall_app. split; case_match; by repeat constructor.
Qed.

(** A table that is good was built without stopping: every line was
    examined and none recorded anything. *)
Lemma init_loop_good_prefix i pre rest o :
  good (init_loop i (pre ++ rest) o) = true ->
  good (every_line i pre o) = true.
Proof.
  revert i o. induction pre as [|line pre IH]; intros i o Hg; simpl in *.
  - destruct (good o) eqn:Ho; [done|].
    rewrite init_loop_not_good in Hg by done. congruence.
  - destruct (good o) eqn:Ho; [by apply IH|]. congruence.
Qed.

Lemma good_init o : good (init o) = good (init_loop 0 (getlines (m_usage o)) o).
Proof. reflexivity. Qed.

(** In a registration that records nothing, both aliases are new. *)
Lemma register_good_fresh s l a o :
  s <> NUL -> l <> "" ->
  good (register s l a o) = true ->
  m_indexMap o !! str_of_char s = None /\ m_indexMap o !! l = None.
Proof.
  intros Hs Hl Hg.
  assert (good (record_all (duplicates s l o) o) = true) as Hg'
    by (unfold good in *; by rewrite <- (register_errorStr s l a o)).
  assert (duplicates s l o = []) as Hd.
  { destruct (duplicates s l o) eqn:E; [done|].
    rewrite record_all_not_good in Hg'; [done | | done].
    rewrite <- E. apply duplicates_nonempty. }
  unfold duplicates, short_taken, long_taken in Hd.
  rewrite !lookup_is_Some_decide in Hd.
  apply Ascii.eqb_neq in Hs. rewrite Hs in Hd.
  assert (empty l = false) as Hel by (by destruct l).
  rewrite Hel in Hd. simpl in Hd.
  destruct (m_indexMap o !! str_of_char s); [done|].
  destruct (m_indexMap o !! l); [done|]. done.
Qed.

(** The identity of the aliases of a line after its registration: the
    one an alias had, or the next one when the alias is new. *)
Lemma register_alias_identity s l a o :
  s <> NUL -> l <> "" ->
  m_indexMap (register s l a o) !! str_of_char s
    = Some (default (m_maxIndex o) (m_indexMap o !! str_of_char s)) /\
  m_indexMap (register s l a o) !! l
    = Some (default (m_maxIndex o) (m_indexMap o !! l)).
Proof.
  intros Hs Hl. apply Ascii.eqb_neq in Hs.
  assert (empty l = false) as Hel by (by destruct l).
  unfold register, register_short, register_long. rewrite Hs, Hel.
  cbn [negb]. cbv iota.
  destruct (decide (l = str_of_char s)) as [->|Hne].
  - destruct (m_indexMap o !! str_of_char s) as [id|] eqn:Hks;
      repeat case_match; simplify_eq; simpl in *;
      rewrite ?lookup_insert_eq in *; simplify_eq; simpl;
      rewrite ?Hks; done.
  - destruct (m_indexMap o !! str_of_char s) as [ids|] eqn:Hks;
      destruct (m_indexMap o !! l) as [idl|] eqn:Hkl;
      repeat case_match; simplify_eq; simpl in *;
      rewrite ?lookup_insert_eq, ?lookup_insert_ne in * by done;
      rewrite ?lookup_insert_eq in *; simplify_eq; simpl;
      rewrite ?Hks, ?Hkl; done.
Qed.

(** The table to which the lines before a line have been read without
    a diagnostic is the one that examining each of them gives. *)
Lemma init_loop_good_every_line i pre o :
  good (init_loop i pre o) = true ->
  good (every_line i pre o) = true /\ init_loop i pre o = every_line i pre o.
Proof.
  intros Hg.
  assert (good (every_line i pre o) = true) as He.
  { apply (init_loop_good_prefix i pre []). by rewrite app_nil_r. }
  split; [exact He | by apply init_loop_every_line].
Qed.

(** C5, as stated, fails: a line [-x, --name] is valid also when one of
    its aliases is taken, and then the two aliases have different
    identities; and a line after one that recorded a diagnostic is not
    registered at all. *)
Lemma pair_with_taken_alias_is_split :
  words "-a, --other" = ["-a,"; "--other"] /\
  (exists o, parseOptLine 1 "-a, --other" (parseLine 0 "-a" fresh) = (true, o)) /\
  m_indexMap (table_of ("-a" ++ String newline "-a, --other")) !! "a" = Some 0 /\
  m_indexMap (table_of ("-a" ++ String newline "-a, --other")) !! "other"
    = Some 1 /\
  m_indexMap (table_of ("-abcd" ++ String newline "-a, --all")) !! "a" = None /\
  m_indexMap (table_of ("-abcd" ++ String newline "-a, --all")) !! "all" = None.
Proof.
  split; [vm_compute; reflexivity|].
  split; [eexists; vm_compute; reflexivity|].
  repeat split; vm_compute; reflexivity.
Qed.

(** C5, amended: in every table built from a usage text, an alias has
    one identity, and the identities are those below the number of
    options.  Moreover, take a line of the usage text of the form
    [-x, --name], possibly followed by prose, where [name] holds no [=],
    that is reached: the lines before it recorded no diagnostic.  The
    line is registered with [no_argument] (no colon after [x] in the
    option string, [no_argument] in the descriptor of [name]).  In the
    table, whatever the later lines are, each of [x] and [name] has the
    identity it had before the line if it was registered before, and
    otherwise the identity that was next when the line was reached.  So
    both have the same identity when neither was registered before; and
    when exactly one of them was, their identities differ. *)
Theorem short_long_pair_same_identity (usage : string) :
  (forall alias id1 id2,
     m_indexMap (table_of usage) !! alias = Some id1 ->
     m_indexMap (table_of usage) !! alias = Some id2 ->
     id1 = id2 /\ 0 <= id1 < m_maxIndex (table_of usage)) /\
  (forall (x : ascii) (name line : string) (pre post ws : list string),
     x <> "-"%char -> x <> NUL -> name <> "" ->
     find_first_of "="%char name = None ->
     words line = ("-" ++ str_of_char x ++ ",") :: ("--" ++ name) :: ws ->
     getlines usage = (pre ++ line :: post)%list ->
     let o1 := init_loop 0 pre (set_usage usage fresh) in
     let n := Z.of_nat (length pre) in
     let before alias := m_indexMap o1 !! alias in
     let after alias := m_indexMap (table_of usage) !! alias in
     good o1 = true ->
     parseLine n line o1 = register x name no_argument o1 /\
     m_shortOptStr (parseLine n line o1) = m_shortOptStr o1 ++ str_of_char x /\
     m_longOptions (parseLine n line o1) =
       (m_longOptions o1
          ++ [mk_long_option None no_argument (int_of_char x)])%list /\
     after (str_of_char x)
       = Some (default (m_maxIndex o1) (before (str_of_char x))) /\
     after name = Some (default (m_maxIndex o1) (before name)) /\
     (before (str_of_char x) = None -> before name = None ->
      after (str_of_char x) = Some (m_maxIndex o1) /\
      after name = Some (m_maxIndex o1)) /\
     (is_Some (before (str_of_char x)) -> before name = None ->
      after (str_of_char x) <> after name) /\
     (before (str_of_char x) = None -> is_Some (before name) ->
      after (str_of_char x) <> after name)).
Proof.
  split.
  { intros alias id1 id2 H1 H2. split; [congruence|].
    by apply (table_of_identities_bounded usage) in H1. }
  intros x name line pre post ws Hdash Hnul Hname Heq Hwords Hlines
         o1 n before after Hgood.
  destruct (init_loop_good_every_line 0 pre (set_usage usage fresh) Hgood)
    as [Hgood' Hevery].
  destruct (scan_short_long_pair x name ws Hdash Heq) as (k & Hscan & Hk).
  assert (parseLine n line o1 = register x name no_argument o1) as Hline.
  { unfold parseLine, parseOptLine, scan_line. rewrite Hwords, Hscan.
    apply Z.eqb_neq in Hk. rewrite Hk.
    pose proof Hnul as Hnul'. apply Ascii.eqb_neq in Hnul'. rewrite Hnul'.
    cbn [andb negb]. unfold final_argReqmt.
    by destruct name. }
  assert (m_indexMap (table_of usage) =
          m_indexMap (init_loop (n + 1) post (parseLine n line o1))) as Htab.
  { unfold table_of, load_usage. rewrite init_indexMap. simpl m_usage.
    rewrite Hlines, init_loop_app by exact Hgood'. simpl.
    rewrite <- Hevery. fold o1. by rewrite Hgood. }
  destruct (register_alias_identity x name no_argument o1 Hnul Hname)
    as [Hrx Hrn].
  assert (after (str_of_char x)
          = Some (default (m_maxIndex o1) (before (str_of_char x)))) as Hax.
  { unfold after. rewrite Htab, Hline. by apply init_loop_keeps_alias. }
  assert (after name = Some (default (m_maxIndex o1) (before name))) as Han.
  { unfold after. rewrite Htab, Hline. by apply init_loop_keeps_alias. }
  assert (identities_bounded o1) as [_ Hbound].
  { apply init_loop_identities_bounded. split; [simpl; lia|].
    intros ? ?. simpl. by rewrite lookup_empty. }
  split; [exact Hline|]. split.
  { rewrite Hline.
    rewrite register_shortOptStr, register_short_shortOptStr by done.
    simpl. by rewrite app_empty_r. }
  split; [rewrite Hline; by apply register_longOptions|].
  split; [exact Hax|]. split; [exact Han|]. split; [|split].
  - intros Hbx Hbn. rewrite Hax, Han, Hbx, Hbn. by split.
  - intros [id Hid] Hbn. rewrite Hax, Han, Hid, Hbn. simpl.
    apply Hbound in Hid. intros Heq'. simplify_eq. lia.
  - intros Hbx [id Hid]. rewrite Hax, Han, Hid, Hbx. simpl.
    apply Hbound in Hid. intros Heq'. simplify_eq. lia.
Qed.

Lemma short_long_pair_same_identity_witness :
  let usage := "-v" ++ String newline "-a, --all  show all"
                 ++ String newline "-abcd" in
  good (table_of usage) = false /\
  m_indexMap (table_of usage) !! "a" = Some 1 /\
  m_indexMap (table_of usage) !! "all" = Some 1 /\
  m_shortOptStr (table_of usage) = ":va" /\
  m_longOptions (table_of usage) =
    [mk_long_option (Some "all") no_argument 97; mk_long_option None 0 0].
Proof.
  intros usage.
  assert ("a"%char <> "-"%char) as H1 by discriminate.
  assert ("a"%char <> NUL) as H2 by discriminate.
  assert ("all" <> "") as H3 by discriminate.
  destruct (proj2 (short_long_pair_same_identity usage)
              "a"%char "all" "-a, --all  show all"
              ["-v"] ["-abcd"] ["show"; "all"] H1 H2 H3
              eq_refl eq_refl eq_refl eq_refl)
    as (_ & _ & _ & _ & _ & Hsame & _).
  destruct (Hsame eq_refl eq_refl) as [Ha Hall].
  split; [reflexivity|]. split; [exact Ha|]. split; [exact Hall|].
  split; vm_compute; reflexivity.
Defined.

Lemma parseLine_registers i line o n s l a :
  scan_line line = ScanEnd n s l a ->
  n <> 0 ->
  Ascii.eqb s NUL && empty l = false ->
  parseLine i line o = register s l (final_argReqmt n l a) o.
Proof.
  intros Hs Hn Hopt. unfold parseLine, parseOptLine. rewrite Hs.
  apply Z.eqb_neq in Hn. by rewrite Hn, Hopt.
Qed.

(** C6: take a line of a usage text that is reached with nothing
    recorded and that defines an option one of whose aliases is taken.
    The duplicate-option diagnostics of the line are recorded and the
    table is not good; every alias registered before the line has, in
    the table, the identity it had; and a new identity is consumed only
    if one of the aliases of the line is new. *)
Theorem duplicate_alias_is_reported
    (usage line : string) (pre post : list string)
    (k : Z) (s : ascii) (l : string) (a : Z) :
  getlines usage = (pre ++ line :: post)%list ->
  let o1 := every_line 0 pre (set_usage usage fresh) in
  let n := Z.of_nat (length pre) in
  good o1 = true ->
  scan_line line = ScanEnd k s l a ->
  k <> 0 ->
  short_taken s o1 || long_taken s l o1 = true ->
  let t := table_of usage in
  duplicates s l o1 <> [] /\
  m_errorStr t = m_errorStr (record_all (duplicates s l o1) o1) /\
  good t = false /\
  (forall alias id,
     m_indexMap o1 !! alias = Some id -> m_indexMap t !! alias = Some id) /\
  m_maxIndex t =
    (if (Ascii.eqb s NUL || short_taken s o1) && (empty l || long_taken s l o1)
     then m_maxIndex o1 else m_maxIndex o1 + 1).
Proof.
  intros Hlines o1 n Hgood Hscan Hk Htaken t.
  assert (Ascii.eqb s NUL && empty l = false) as Hopt.
  { unfold short_taken, long_taken in Htaken.
    destruct (Ascii.eqb s NUL), (empty l); simpl in *; done. }
  assert (duplicates s l o1 <> []) as Hdup.
  { unfold duplicates.
    destruct (short_taken s o1); [done|]. simpl in Htaken. by rewrite Htaken. }
  pose proof (parseLine_registers n line o1 k s l a Hscan Hk Hopt) as Hline.
  assert (good (parseLine n line o1) = false) as Hbad.
  { unfold good. rewrite Hline, register_errorStr.
    apply record_all_not_good; [apply duplicates_nonempty | done]. }
  assert (init_loop 0 (getlines usage) (set_usage usage fresh)
          = parseLine n line o1) as Hloop.
  { rewrite Hlines.
    by apply (init_loop_stops 0 pre post line (set_usage usage fresh)). }
  assert (m_errorStr t = m_errorStr (parseLine n line o1)) as He.
  { unfold t, table_of, load_usage, init. simpl. by rewrite Hloop. }
  assert (m_indexMap t = m_indexMap (parseLine n line o1)) as Hm.
  { unfold t, table_of, load_usage. rewrite init_indexMap. simpl m_usage.
    by rewrite Hloop. }
  assert (m_maxIndex t = m_maxIndex (parseLine n line o1)) as Hx.
  { unfold t, table_of, load_usage, init. simpl. by rewrite Hloop. }
  split; [exact Hdup|]. split; [|split; [|split]].
  - by rewrite He, Hline, register_errorStr.
  - unfold good in *. by rewrite He.
  - intros alias id Ha. rewrite Hm. by apply parseLine_keeps_alias.
  - rewrite Hx, Hline. apply register_maxIndex.
Qed.

Lemma duplicate_alias_is_reported_witness :
  let usage := "-a" ++ String newline "-a, --other" in
  m_errorStr (table_of usage) = "duplicate short option: a" /\
  good (table_of usage) = false /\
  m_indexMap (table_of usage) !! "a" = Some 0 /\
  m_maxIndex (table_of usage) = 2 /\
  m_maxIndex (table_of ("-a" ++ String newline "-a")) = 1.
Proof.
  intros usage.
  destruct (duplicate_alias_is_reported usage "-a, --other" ["-a"] []
              2 "a"%char "other" 0 eq_refl eq_refl eq_refl
              ltac:(discriminate) eq_refl)
    as (_ & He & Hg & Hkeep & Hmax).
  destruct (duplicate_alias_is_reported ("-a" ++ String newline "-a") "-a"
              ["-a"] [] 1 "a"%char "" 0 eq_refl eq_refl eq_refl
              ltac:(discriminate) eq_refl)
    as (_ & _ & _ & _ & Hmax').
  split; [exact He|]. split; [exact Hg|].
  split; [by apply Hkeep|]. split; [exact Hmax | exact Hmax'].
Defined.

(** ** Words *)

Lemma spaceless_app (s t : string) :
  spaceless (s ++ t) = spaceless s && spaceless t.
Proof.
  induction s as [|c s IH]; [done|].
  rewrite app_cons. simpl. by rewrite IH, andb_assoc.
Qed.

(** The words of a stream are not empty and hold no white space. *)
Lemma words_from_spaceless (s cur : string) :
  spaceless cur = true ->
  Forall (fun w => empty w = false /\ spaceless w = true) (words_from cur s).
Proof.
  revert cur. induction s as [|c s IH]; intros cur Hcur; simpl.
  - destruct (empty cur) eqn:He; by repeat constructor.
  - destruct (isspace c) eqn:Hc.
    + destruct (empty cur) eqn:He; [by apply IH|].
      constructor; [done | by apply IH].
    + apply IH. rewrite spaceless_app, Hcur. simpl. by rewrite Hc.
Qed.

(** A stream that holds one word delivers that word. *)
Lemma words_from_word (w cur : string) :
  spaceless w = true ->
  words_from cur w = if empty (cur ++ w) then [] else [cur ++ w].
Proof.
  revert cur. induction w as [|c w IH]; intros cur Hw; simpl.
  - by rewrite app_empty_r.
  - simpl in Hw. apply andb_prop in Hw as [Hc Hw].
    apply negb_true_iff in Hc. rewrite Hc, IH by done.
    by rewrite app_string_assoc.
Qed.

Lemma words_of_word (line w : string) :
  In w (words line) -> words w = [w].
Proof.
  intros Hin.
  pose proof (words_from_spaceless line "" eq_refl) as Hall.
  rewrite Forall_forall in Hall. apply list_elem_of_In in Hin.
  destruct (Hall w Hin) as [He Hs].
  unfold words. rewrite words_from_word by done.
  rewrite app_empty_l. by rewrite He.
Qed.

(** The word loop on two long-option words. *)
Lemma scan_two_long (body1 body2 name1 name2 : string) (a1 a2 : Z)
    (ws : list string) :
  long_option_word ("--" ++ body1) = Some (name1, a1) ->
  long_option_word ("--" ++ body2) = Some (name2, a2) ->
  exists n,
    scan_words (("--" ++ body1) :: ("--" ++ body2) :: ws) 0 NUL "" 0
      = ScanEnd n NUL name2 a2 /\ n <> 0.
Proof.
  intros H1 H2. cbn [scan_words]. rewrite H1, H2. rewrite !dashes.
  simpl (2 <? 0 + 1). simpl (2 <? 0 + 1 + 1). cbv iota.
  simpl (String.length _ <=? 1)%nat. cbv iota.
  change (at_ (String "-" (String "-" body1)) 0) with "-"%char.
  change (at_ (String "-" (String "-" body1)) 1) with "-"%char.
  change (at_ (String "-" (String "-" body2)) 0) with "-"%char.
  change (at_ (String "-" (String "-" body2)) 1) with "-"%char.
  change (Ascii.eqb "-" "-") with true. cbn [negb]. cbv iota.
  destruct ws as [|w ws].
  - eexists. split; [reflexivity | lia].
  - cbn [scan_words]. simpl (2 <? 0 + 1 + 1 + 1). cbv iota.
    eexists. split; [reflexivity | lia].
Qed.

Lemma scan_one_long (body name : string) (a : Z) :
  long_option_word ("--" ++ body) = Some (name, a) ->
  scan_words [("--" ++ body)] 0 NUL "" 0 = ScanEnd 1 NUL name a.
Proof.
  intros H1. cbn [scan_words]. rewrite H1. rewrite !dashes. reflexivity.
Qed.

Lemma register_long_only l a o :
  l <> "" ->
  m_shortOptStr (register NUL l a o) = m_shortOptStr o /\
  m_indexMap (register NUL l a o) =
    match m_indexMap o !! l with
    | Some _ => m_indexMap o
    | None => <[l := m_maxIndex o]> (m_indexMap o)
    end.
Proof.
  intros Hl. assert (empty l = false) as Hel by (by destruct l).
  unfold register, register_short, register_long. rewrite Hel. simpl.
  by destruct (m_indexMap o !! l).
Qed.

(** C10, as stated, fails: the words [--] and [--=N] go through the
    long-option branch of the loop and are accepted there, with an empty
    name.  A line whose second word is one of them leaves the loop with
    no short option and an empty long option, and is invalid: a
    diagnostic is recorded and nothing is registered.  So is a line
    whose second word is a long option with an unclosed bracket. *)
Lemma two_long_words_invalid_line :
  words "--alpha --=N" = ["--alpha"; "--=N"] /\
  long_option_word "--alpha" = Some ("alpha", no_argument) /\
  long_option_word "--=N" = Some ("", required_argument) /\
  long_option_word "--" = Some ("", no_argument) /\
  parseOptLine 0 "--alpha --=N" fresh = (false, fresh) /\
  parseOptLine 0 "--alpha --" fresh = (false, fresh) /\
  parseOptLine 0 "--alpha --beta[=N" fresh = (false, fresh) /\
  m_errorStr (parseLine 0 "--alpha --=N" fresh)
    = "invalid option at line: 0" ++ String newline "--alpha --=N" /\
  good (table_of "--alpha --=N") = false /\
  m_longOptNames (table_of "--alpha --=N") = [].
Proof. repeat split; vm_compute; reflexivity. Qed.

(** C10, amended: on a line whose first two words are long-option words
    that the classifier accepts, the second with a name that is not
    empty, the line is valid and is
    registered exactly as the line that holds the second word alone:
    the name and the argument requirement of the second word are
    appended to the long options, the only diagnostic possible is the
    duplicate-option diagnostic of the second name, and the first name
    is not registered. *)
Theorem second_long_option_wins
    (line body1 body2 name1 name2 : string) (a1 a2 : Z) (ws : list string) :
  words line = ("--" ++ body1) :: ("--" ++ body2) :: ws ->
  long_option_word ("--" ++ body1) = Some (name1, a1) ->
  long_option_word ("--" ++ body2) = Some (name2, a2) ->
  name2 <> "" ->
  forall i o,
    let o' := (parseOptLine i line o).2 in
    parseOptLine i line o = (true, register NUL name2 a2 o) /\
    parseOptLine i line o = parseOptLine i ("--" ++ body2) o /\
    parseLine i line o = o' /\
    m_longOptNames o' = (m_longOptNames o ++ [name2])%list /\
    m_longOptions o' = (m_longOptions o ++ [mk_long_option None a2 0])%list /\
    m_shortOptStr o' = m_shortOptStr o /\
    m_errorStr o' = m_errorStr (record_all (duplicates NUL name2 o) o) /\
    (m_indexMap o !! name2 = None ->
     m_errorStr o' = m_errorStr o /\
     m_indexMap o' = <[name2 := m_maxIndex o]> (m_indexMap o)) /\
    (name1 <> name2 -> m_indexMap o' !! name1 = m_indexMap o !! name1).
Proof.
  intros Hwords H1 H2 Hname i o.
  assert (empty name2 = false) as He by (by destruct name2).
  destruct (scan_two_long body1 body2 name1 name2 a1 a2 ws H1 H2)
    as (n & Hscan & Hn).
  assert (parseOptLine i line o = (true, register NUL name2 a2 o)) as Hline.
  { unfold parseOptLine, scan_line. rewrite Hwords, Hscan.
    apply Z.eqb_neq in Hn. rewrite Hn. simpl. rewrite He.
    unfold final_argReqmt. by rewrite He. }
  assert (parseOptLine i ("--" ++ body2) o = (true, register NUL name2 a2 o))
    as Halone.
  { unfold parseOptLine, scan_line.
    rewrite (words_of_word line ("--" ++ body2))
      by (rewrite Hwords; simpl; auto).
    rewrite (scan_one_long body2 name2 a2 H2). simpl. rewrite He.
    unfold final_argReqmt. by rewrite He. }
  destruct (register_longOptions NUL name2 a2 o Hname) as [Hopts Hnames].
  destruct (register_long_only name2 a2 o Hname) as [Hshort Hmap].
  intros o'. unfold o'. rewrite Hline. cbn [snd].
  split; [done|]. split; [by rewrite Halone|].
  split; [unfold parseLine; by rewrite Hline|].
  split; [exact Hnames|]. split; [exact Hopts|]. split; [exact Hshort|].
  split; [apply register_errorStr|]. split.
  - intros Hfresh. rewrite Hmap, Hfresh. split; [|done].
    rewrite register_errorStr. unfold duplicates, short_taken, long_taken.
    rewrite lookup_is_Some_decide, Hfresh. simpl.
    by rewrite andb_false_r.
  - intros Hne. rewrite Hmap. destruct (m_indexMap o !! name2); [done|].
    by rewrite lookup_insert_ne.
Qed.

Lemma second_long_option_wins_witness :
  parseOptLine 0 "--alpha --beta=N" fresh
    = (true, register NUL "beta" required_argument fresh) /\
  m_longOptNames (parseOptLine 0 "--alpha --beta=N" fresh).2 = ["beta"] /\
  m_errorStr (parseOptLine 0 "--alpha --beta=N" fresh).2 = "" /\
  m_indexMap (parseOptLine 0 "--alpha --beta=N" fresh).2 !! "alpha" = None /\
  m_indexMap (parseOptLine 0 "--alpha --beta=N" fresh).2 !! "beta" = Some 0.
Proof.
  assert ("beta" <> "") as Hne by discriminate.
  destruct (second_long_option_wins "--alpha --beta=N" "alpha" "beta=N"
              "alpha" "beta" no_argument required_argument []
              eq_refl eq_refl eq_refl Hne 0 fresh)
    as (Hline & _ & _ & Hnames & _ & _ & _ & Hfresh & Hfirst).
  split; [exact Hline|]. split; [exact Hnames|].
  destruct (Hfresh eq_refl) as [Herr Hmap].
  split; [exact Herr|]. split.
  - rewrite Hfirst by discriminate. reflexivity.
  - rewrite Hmap. apply lookup_insert_eq.
Defined.

(** ** The model of the scanner obeys the laws *)

Lemma glibc_laws : ScannerLaws glibc.
Proof.
  split.
  - apply GlibcFacts.getopt_long_progress.
  - apply GlibcFacts.getopt_long_restart.
  - apply GlibcFacts.getopt_long_no_arguments.
Qed.

(** ** The argument dispatcher *)

Lemma add_all_app (l1 l2 : list string) (v : StringValue.t) :
  StringValue.add_all (l1 ++ l2) v
  = StringValue.add_all l2 (StringValue.add_all l1 v).
Proof. unfold StringValue.add_all. apply fold_left_app. Qed.

Lemma collect_spec (n : nat) (argv : list string) (i : Z) (a : StringValue.t) :
  collect n argv i a =
  (i + Z.of_nat n,
   StringValue.add_all (map (fun j => arg argv (i + Z.of_nat j)) (seq 0 n)) a).
Proof.
  revert i a. induction n as [|n IH]; intros i a.
  - simpl. by rewrite Z.add_0_r.
  - cbn [collect]. rewrite IH. f_equal; [lia|].
    cbn [seq map]. rewrite <- seq_shift, map_map.
    unfold StringValue.add_all at 2. cbn [fold_left].
    rewrite Z.add_0_r. f_equal. apply map_ext. intros j. f_equal. lia.
Qed.

Lemma collection_options_add (index index' : Z) (str : string) (o : CmdOption) :
  collection (options_add index str o) index' =
  if decide (index = index')
  then StringValue.add str (collection o index')
  else collection o index'.
Proof.
  unfold collection, options_add. simpl.
  case_decide as Hi.
  - subst. by rewrite lookup_insert_eq.
  - by rewrite lookup_insert_ne.
Qed.

Lemma addErrorStr_extends (str : string) (o : CmdOption) :
  exists t, m_errorStr (addErrorStr str o) = m_errorStr o ++ t.
Proof.
  unfold addErrorStr. simpl. destruct (empty (m_errorStr o)) eqn:He; simpl.
  - exists str. done.
  - exists (String newline "" ++ str). by rewrite app_string_assoc.
Qed.

Section Dispatcher.
Context `{Laws : ScannerLaws}.

(** What one pass through the loop does to the object. *)
Lemma parse_body_cases argc o argv g :
  let r := getopt_long argc argv (m_shortOptStr o) (m_longOptions o) g in
  exists f o',
    parse_body argc (o, argv, g) = (f, (o', argv_after r, state_after r)) /\
    (f = Again -> 0 <= ret r) /\
    m_arguments o' = m_arguments o /\
    (good o = false -> good o' = false) /\
    (exists t, m_errorStr o' = m_errorStr o ++ t) /\
    (forall index, exists occ,
       collection o' index = StringValue.add_all occ (collection o index)).
Proof.
  intros r. unfold parse_body. fold r.
  destruct (ret r <? 0) eqn:Hret.
  { exists Leave, o. repeat split; try done.
    - by exists ""; rewrite app_empty_r.
    - intros index. by exists []. }
  assert (0 <= ret r) as Hge by lia.
  unfold resolve, indexMap_at.
  repeat case_match; simplify_eq;
    eexists _, _; (split; [reflexivity|]); (split; [done|]).
  all: split; [reflexivity|].
  all: split;
    [ try (intros ?; by apply addErrorStr_keeps_not_good); try done |].
  all: split;
    [ try apply addErrorStr_extends;
      try (by exists ""; rewrite app_empty_r) |].
  all: intros index'; rewrite ?collection_options_add;
    try case_decide; try (by exists []); try (by eexists [_]).
Qed.

(** With enough fuel the loop ends. *)
Lemma parse_loop_terminates fuel argc o argv g :
  (remaining argc argv g < fuel)%nat ->
  exists k, parse_loop fuel argc (o, argv, g) = Some k.
Proof.
  revert o argv g. induction fuel as [|fuel IH]; intros o argv g Hf; [lia|].
  cbn [parse_loop].
  destruct (parse_body_cases argc o argv g) as (f & o' & Hb & Hret & _).
  rewrite Hb. destruct f; [|by eexists].
  apply IH.
  pose proof (scanner_progress argc argv (m_shortOptStr o) (m_longOptions o) g
                (Hret eq_refl)) as Hp.
  simpl in Hp. lia.
Qed.

(** More fuel does not change the outcome. *)
Lemma parse_loop_more_fuel fuel fuel' argc k k' :
  parse_loop fuel argc k = Some k' ->
  (fuel <= fuel')%nat ->
  parse_loop fuel' argc k = Some k'.
Proof.
  revert fuel' k. induction fuel as [|fuel IH]; intros fuel' k Hk Hle; [done|].
  destruct fuel' as [|fuel']; [lia|]. cbn [parse_loop] in *.
  destruct (parse_body argc k) as [[] k1]; [|done].
  apply (IH fuel' k1 Hk). lia.
Qed.

(** The loop only adds: diagnostics, and occurrences to the
    collections; it does not touch the positional arguments. *)
Lemma parse_loop_accumulates fuel argc o argv g o' argv' g' :
  parse_loop fuel argc (o, argv, g) = Some (o', argv', g') ->
  m_arguments o' = m_arguments o /\
  (good o = false -> good o' = false) /\
  (exists t, m_errorStr o' = m_errorStr o ++ t) /\
  (forall index, exists occ,
     collection o' index = StringValue.add_all occ (collection o index)).
Proof.
  revert o argv g. induction fuel as [|fuel IH]; intros o argv g Hk; [done|].
  cbn [parse_loop] in Hk.
  destruct (parse_body_cases argc o argv g)
    as (f & o1 & Hb & _ & Ha & Hg & [t Ht] & Hc).
  rewrite Hb in Hk. destruct f.
  - destruct (IH _ _ _ Hk) as (Ha' & Hg' & [t' Ht'] & Hc').
    split; [congruence|]. split; [auto|]. split.
    + exists (t ++ t'). by rewrite Ht', Ht, app_string_assoc.
    + intros index. destruct (Hc index) as [occ Hocc].
      destruct (Hc' index) as [occ' Hocc'].
      exists (occ ++ occ')%list. by rewrite add_all_app, <- Hocc, Hocc'.
  - simplify_eq. split; [done|]. split; [done|]. split; [by exists t|]. done.
Qed.

(** From a configuration the loop passes through, the loop ends as it
    does from the start. *)
Lemma loop_reaches_same_end argc k k1 fuel kf :
  loop_reaches argc k k1 ->
  parse_loop fuel argc k = Some kf ->
  parse_loop fuel argc k1 = Some kf.
Proof.
  intros Hr. revert fuel. induction Hr as [k|k k1 k2 Hb _ IH]; intros fuel Hk.
  - done.
  - destruct fuel as [|fuel]; [done|]. cbn [parse_loop] in Hk.
    rewrite Hb in Hk. apply IH.
    apply (parse_loop_more_fuel fuel); [done | lia].
Qed.

Lemma parse_finish_spec argc o argv g :
  parse_finish argc (o, argv, g) =
  (set_arguments
     (StringValue.add_all (tokens_from argc argv (optind g)) (m_arguments o)) o,
   argv, set_optind 0 g).
Proof. unfold parse_finish, tokens_from. by rewrite collect_spec. Qed.

End Dispatcher.

(** C2, as stated, fails: with the option [-v] of the usage text "-v",
    the second of two calls leaves two occurrences of [v] and two
    positional arguments, the first of each from the first call; on a new
    object the same second call leaves one of each. *)
Lemma second_parse_keeps_first_collections :
  exists o1 a1 g1 o2 a2 g2 o3 a3 g3,
    parse 5 ["prog"; "-v"; "x"] (table_of "-v") process_start
      = Some (o1, a1, g1) /\
    parse 5 ["prog"; "-v"; "y"] o1 g1 = Some (o2, a2, g2) /\
    parse 5 ["prog"; "-v"; "y"] (table_of "-v") process_start
      = Some (o3, a3, g3) /\
    m_options o2 !! 0 = Some (StringValue.mk (String newline "") 2) /\
    m_arguments o2 = StringValue.mk ("x" ++ String newline "y") 2 /\
    m_options o3 !! 0 = Some (StringValue.mk "" 1) /\
    m_arguments o3 = StringValue.mk "y" 1 /\
    m_options o2 !! 0 <> m_options o3 !! 0 /\
    m_arguments o2 <> m_arguments o3.
Proof.
  eexists _, _, _, _, _, _, _, _, _.
  split; [vm_compute; reflexivity|].
  split; [vm_compute; reflexivity|].
  split; [vm_compute; reflexivity|].
  repeat split; discriminate.
Qed.

Section DispatcherClaims.
Context `{Laws : ScannerLaws}.

(** With enough fuel [parse] returns, and what it returns extends
    what the object held. *)
Lemma parse_accumulates fuel argv o g :
  (remaining (Z.of_nat (length argv)) argv (set_opterr 0 g) < fuel)%nat ->
  exists o' argv' g' i,
    parse fuel argv o g = Some (o', argv', g') /\
    optind g' = 0 /\
    (good o = false -> good o' = false) /\
    (exists t, m_errorStr o' = m_errorStr o ++ t) /\
    m_arguments o' =
      StringValue.add_all (tokens_from (Z.of_nat (length argv)) argv' i)
        (m_arguments o) /\
    (forall index, exists occ,
       collection o' index = StringValue.add_all occ (collection o index)).
Proof.
  intros Hf. unfold parse.
  destruct (parse_loop_terminates fuel _ o argv (set_opterr 0 g) Hf)
    as [[[o1 argv1] g1] Hk].
  rewrite Hk, parse_finish_spec.
  destruct (parse_loop_accumulates _ _ _ _ _ _ _ _ Hk)
    as (Ha & Hg & He & Hc).
  exists (set_arguments
            (StringValue.add_all
               (tokens_from (Z.of_nat (length argv)) argv1 (optind g1))
               (m_arguments o1)) o1), argv1, (set_optind 0 g1), (optind g1).
  split; [reflexivity|]. split; [reflexivity|]. split; [exact Hg|].
  split; [exact He|]. split; [simpl; by rewrite Ha|]. exact Hc.
Qed.

(** C2, amended: the collections belong to the object and [parse]
    does not clear them.  Of two calls one after the other, each
    returns (given enough fuel), and the second leaves, for every
    identity and for the positional arguments, what the first call
    left followed by the occurrences and the tokens of the second
    argument list. *)
Theorem parse_twice_accumulates
    (fuel1 fuel2 : nat) (argv1 argv2 : list string) (o : CmdOption)
    (g : getopt_state hidden) :
  (remaining (Z.of_nat (length argv1)) argv1 (set_opterr 0 g) < fuel1)%nat ->
  exists o1 a1 g1,
    parse fuel1 argv1 o g = Some (o1, a1, g1) /\
    ((remaining (Z.of_nat (length argv2)) argv2 (set_opterr 0 g1) < fuel2)%nat ->
     exists o2 a2 g2,
       parse fuel2 argv2 o1 g1 = Some (o2, a2, g2) /\
       (forall index, exists occ1 occ2,
          collection o1 index = StringValue.add_all occ1 (collection o index) /\
          collection o2 index = StringValue.add_all occ2 (collection o1 index)) /\
       (exists i1 i2,
          m_arguments o1 =
            StringValue.add_all
              (tokens_from (Z.of_nat (length argv1)) a1 i1) (m_arguments o) /\
          m_arguments o2 =
            StringValue.add_all
              (tokens_from (Z.of_nat (length argv2)) a2 i2) (m_arguments o1))).
Proof.
  intros Hf1.
  destruct (parse_accumulates fuel1 argv1 o g Hf1)
    as (o1 & a1 & g1 & i1 & Hp1 & _ & _ & _ & Ha1 & Hc1).
  exists o1, a1, g1. split; [exact Hp1|]. intros Hf2.
  destruct (parse_accumulates fuel2 argv2 o1 g1 Hf2)
    as (o2 & a2 & g2 & i2 & Hp2 & _ & _ & _ & Ha2 & Hc2).
  exists o2, a2, g2. split; [exact Hp2|]. split.
  - intros index. destruct (Hc1 index) as [occ1 H1].
    destruct (Hc2 index) as [occ2 H2]. by exists occ1, occ2.
  - by exists i1, i2.
Qed.

(** C7: at any pass of the loop of [parse] in which the scanner
    reports an unknown option, the diagnostic "Unknown option: " with
    the character of [optopt] is recorded and the loop goes on with the
    next pass, from which it ends (given enough fuel) as the whole loop
    does, with an object that is not good and whose diagnostics start
    with those recorded up to and including this one.  [parse] then
    returns that object with every token that the scanner has left from
    its [optind] up to the end of the argument list appended, in order,
    to the positional arguments. *)
Theorem unknown_option_is_reported
    (fuel : nat) (argv : list string) (o : CmdOption)
    (g : getopt_state hidden)
    (ok : CmdOption) (argvk : list string) (gk : getopt_state hidden) :
  let argc := Z.of_nat (length argv) in
  let r := getopt_long argc argvk (m_shortOptStr ok) (m_longOptions ok) gk in
  let diagnostic :=
    "Unknown option: " ++ str_of_char (char_of_int (optopt (state_after r))) in
  loop_reaches argc (o, argv, set_opterr 0 g) (ok, argvk, gk) ->
  ret r = int_of_char "?"%char ->
  (remaining argc argv (set_opterr 0 g) < fuel)%nat ->
  parse_body argc (ok, argvk, gk)
    = (Again, (addErrorStr diagnostic ok, argv_after r, state_after r)) /\
  exists o1 argv1 g1,
    parse_loop fuel argc (o, argv, set_opterr 0 g) = Some (o1, argv1, g1) /\
    parse_loop fuel argc (addErrorStr diagnostic ok, argv_after r, state_after r)
      = Some (o1, argv1, g1) /\
    good o1 = false /\
    (exists t, m_errorStr o1 = m_errorStr (addErrorStr diagnostic ok) ++ t) /\
    let trailing := tokens_from argc argv1 (optind g1) in
    let o' :=
      set_arguments (StringValue.add_all trailing (m_arguments o)) o1 in
    parse fuel argv o g = Some (o', argv1, set_optind 0 g1) /\
    good o' = false /\
    m_errorStr o' = m_errorStr o1 /\
    m_arguments o' = StringValue.add_all trailing (m_arguments o).
Proof.
  intros argc r diagnostic Hreach Hret Hf.
  assert (parse_body argc (ok, argvk, gk)
          = (Again, (addErrorStr diagnostic ok, argv_after r, state_after r)))
    as Hbody.
  { unfold parse_body. fold r. rewrite Hret. reflexivity. }
  split; [exact Hbody|].
  destruct (parse_loop_terminates fuel argc o argv (set_opterr 0 g) Hf)
    as [[[o1 argv1] g1] Hk].
  assert (loop_reaches argc (o, argv, set_opterr 0 g)
            (addErrorStr diagnostic ok, argv_after r, state_after r)) as Hreach'.
  { clear Hk. induction Hreach as [k|k k1 k2 Hb _ IH].
    - eapply reaches_next; [exact Hbody | apply reaches_here].
    - eapply reaches_next; [exact Hb | by apply IH]. }
  pose proof (loop_reaches_same_end _ _ _ _ _ Hreach' Hk) as Hk'.
  destruct (parse_loop_accumulates _ _ _ _ _ _ _ _ Hk') as (_ & Hg & He & _).
  destruct (parse_loop_accumulates _ _ _ _ _ _ _ _ Hk) as (Ha & _ & _ & _).
  assert (good o1 = false) as Hgood
    by (apply Hg; by apply addErrorStr_not_good).
  exists o1, argv1, g1.
  split; [exact Hk|]. split; [exact Hk'|]. split; [exact Hgood|].
  split; [exact He|].
  intros trailing o'. unfold parse. fold argc. rewrite Hk, parse_finish_spec.
  rewrite Ha. split; [reflexivity|]. split; [exact Hgood|]. by split.
Qed.

(** A pass that starts with [optind = 0] is the pass of a scanner in
    its initial state. *)
Lemma parse_body_restart argc o argv g :
  1 <= argc -> optind g = 0 ->
  parse_body argc (o, argv, g) =
  parse_body argc
    (o, argv, mk_getopt_state 1 (opterr g) (optopt g) None hidden0).
Proof.
  intros Hargc Hg. unfold parse_body.
  by rewrite (scanner_restart argc argv _ _ g Hargc Hg).
Qed.

Lemma parse_restart fuel argv o g :
  optind g = 0 ->
  match parse fuel argv o g,
        parse fuel argv o (mk_getopt_state 1 1 (optopt g) None hidden0) with
  | Some (o1, a1, g1), Some (o2, a2, g2) => o1 = o2 /\ a1 = a2
  | None, None => True
  | _, _ => False
  end.
Proof.
  intros Hg. unfold parse. destruct fuel as [|fuel]; [done|].
  cbn [parse_loop].
  destruct (Z.lt_ge_cases (Z.of_nat (length argv)) 1) as [Hargc|Hargc].
  - (* no arguments: both scans end at once *)
    unfold parse_body.
    destruct (scanner_no_arguments _ argv (m_shortOptStr o)
                (m_longOptions o) (set_opterr 0 g) Hargc) as (H1 & -> & ->).
    destruct (scanner_no_arguments _ argv (m_shortOptStr o)
                (m_longOptions o)
                (set_opterr 0 (mk_getopt_state 1 1 (optopt g) None hidden0))
                Hargc) as (H2 & -> & ->).
    apply Z.ltb_lt in H1, H2. rewrite H1, H2.
    rewrite !parse_finish_spec. split; [|reflexivity].
    unfold tokens_from. simpl optind. rewrite Hg.
    replace (Z.to_nat (Z.of_nat (length argv) - 0)) with 0%nat by lia.
    replace (Z.to_nat (Z.of_nat (length argv) - 1)) with 0%nat by lia.
    reflexivity.
  - rewrite (parse_body_restart _ o argv (set_opterr 0 g)) by done.
    simpl opterr. simpl optopt.
    change (set_opterr 0 (mk_getopt_state 1 1 (optopt g) None hidden0))
      with (mk_getopt_state 1 0 (optopt g) None hidden0).
    destruct (parse_body _ _) as [[] k].
    + destruct (parse_loop fuel _ k) as [[[o1 a1] g1]|]; [|done].
      rewrite parse_finish_spec. done.
    + destruct k as [[o1 a1] g1]. rewrite parse_finish_spec. done.
Qed.

(** C8: every call of [parse] returns (given enough fuel) with
    [optind] set to 0, the value on which the scanner starts a new
    scan.  A second call therefore leaves the object and the argument
    list, and with them the positional arguments, that it would leave
    with a scanner in the state in which the process starts ([optind]
    at 1, no private state), whatever the first call scanned. *)
Theorem parse_resets_cursor
    (fuel1 fuel2 : nat) (argv1 argv2 : list string) (o : CmdOption)
    (g : getopt_state hidden) :
  (remaining (Z.of_nat (length argv1)) argv1 (set_opterr 0 g) < fuel1)%nat ->
  exists o1 a1 g1,
    parse fuel1 argv1 o g = Some (o1, a1, g1) /\
    optind g1 = 0 /\
    ((remaining (Z.of_nat (length argv2)) argv2 (set_opterr 0 g1) < fuel2)%nat ->
     exists o2 a2 g2 g2',
       parse fuel2 argv2 o1 g1 = Some (o2, a2, g2) /\
       optind g2 = 0 /\
       parse fuel2 argv2 o1 (mk_getopt_state 1 1 (optopt g1) None hidden0)
         = Some (o2, a2, g2')).
Proof.
  intros Hf1.
  destruct (parse_accumulates fuel1 argv1 o g Hf1)
    as (o1 & a1 & g1 & i1 & Hp1 & Hg1 & _).
  exists o1, a1, g1. split; [exact Hp1|]. split; [exact Hg1|]. intros Hf2.
  destruct (parse_accumulates fuel2 argv2 o1 g1 Hf2)
    as (o2 & a2 & g2 & i2 & Hp2 & Hg2 & _).
  pose proof (parse_restart fuel2 argv2 o1 g1 Hg1) as Hr.
  rewrite Hp2 in Hr.
  destruct (parse fuel2 argv2 o1
              (mk_getopt_state 1 1 (optopt g1) None hidden0))
    as [[[o3 a3] g3]|]; [|done].
  destruct Hr as [<- <-].
  by exists o2, a2, g2, g3.
Qed.

End DispatcherClaims.

Lemma parse_twice_accumulates_witness :
  exists o1 a1 g1 o2 a2 g2,
    parse 20 ["prog"; "-v"; "x"] (table_of "-v") process_start
      = Some (o1, a1, g1) /\
    parse 20 ["prog"; "-v"; "y"] o1 g1 = Some (o2, a2, g2) /\
    (exists occ1 occ2,
       collection o1 0 = StringValue.add_all occ1 StringValue.default /\
       collection o2 0 = StringValue.add_all occ2 (collection o1 0)) /\
    collection o2 0 = StringValue.add_all [""; ""] StringValue.default /\
    m_arguments o2 = StringValue.add_all ["x"; "y"] StringValue.default.
Proof.
  destruct (parse_twice_accumulates (Laws := glibc_laws) 20 20
              ["prog"; "-v"; "x"] ["prog"; "-v"; "y"] (table_of "-v")
              process_start ltac:(vm_compute; lia))
    as (o1 & a1 & g1 & Hp1 & Hsecond).
  vm_compute in Hp1. injection Hp1 as <- <- <-.
  destruct Hsecond as (o2 & a2 & g2 & Hp2 & Hc & _); [vm_compute; lia|].
  eexists _, _, _, o2, a2, g2.
  split; [vm_compute; reflexivity|]. split; [exact Hp2|].
  split; [exact (Hc 0)|].
  vm_compute in Hp2. injection Hp2 as <- <- <-.
  split; reflexivity.
Defined.

Lemma unknown_option_is_reported_witness :
  exists o' argv' g',
    parse 20 ["prog"; "-z"; "file.txt"; "more"] (table_of "-a") process_start
      = Some (o', argv', g') /\
    good o' = false /\
    m_errorStr o' = "Unknown option: z" /\
    m_arguments o'
      = StringValue.add_all ["file.txt"; "more"] StringValue.default.
Proof.
  destruct (proj2 (unknown_option_is_reported (Laws := glibc_laws) 20
                     ["prog"; "-z"; "file.txt"; "more"] (table_of "-a")
                     process_start
                     (table_of "-a") ["prog"; "-z"; "file.txt"; "more"]
                     (set_opterr 0 process_start)
                     (reaches_here _ _) eq_refl ltac:(vm_compute; lia)))
    as (o1 & argv1 & g1 & Hk & _ & _ & _ & Hp & Hg & He & Ha).
  vm_compute in Hk. injection Hk as <- <- <-.
  eexists _, _, _. split; [exact Hp|]. split; [exact Hg|].
  split; [exact He | exact Ha].
Defined.

Lemma parse_resets_cursor_witness :
  exists o1 a1 g1 o2 a2 g2 g2',
    parse 20 ["prog"; "-v"; "x"] (table_of "-v") process_start
      = Some (o1, a1, g1) /\
    optind g1 = 0 /\
    parse 20 ["prog"; "y"; "-v"] o1 g1 = Some (o2, a2, g2) /\
    optind g2 = 0 /\
    parse 20 ["prog"; "y"; "-v"] o1 process_start = Some (o2, a2, g2').
Proof.
  destruct (parse_resets_cursor (Laws := glibc_laws) 20 20
              ["prog"; "-v"; "x"] ["prog"; "y"; "-v"] (table_of "-v")
              process_start ltac:(vm_compute; lia))
    as (o1 & a1 & g1 & Hp1 & Hg1 & Hsecond).
  vm_compute in Hp1. injection Hp1 as <- <- <-.
  destruct Hsecond as (o2 & a2 & g2 & g2' & Hp2 & Hg2 & Hp2');
    [vm_compute; lia|].
  eexists _, _, _, o2, a2, g2, g2'.
  split; [vm_compute; reflexivity|]. split; [reflexivity|].
  split; [exact Hp2|]. split; [exact Hg2|]. exact Hp2'.
Defined.

(** ** The dispatcher on the model of the scanner *)

Lemma char_of_int_of_char (c : ascii) : char_of_int (int_of_char c) = c.
Proof. destruct c as [[] [] [] [] [] [] [] []]; reflexivity. Qed.

(** Where every element is a non-option, the scanner skips them all. *)
Lemma skip_all_nonoptions (n : nat) (argv : list string) (i : Z) :
  (forall j, i <= j < i + Z.of_nat n -> Glibc.nonoption_p argv j = true) ->
  Glibc.skip_nonoptions n argv i = i + Z.of_nat n.
Proof.
  revert i. induction n as [|n IH]; intros i Hall; simpl.
  - lia.
  - rewrite Hall by lia. rewrite IH; [lia|]. intros j Hj. apply Hall. lia.
Qed.

Lemma arg_tail (a b : string) (rest : list string) (j : nat) :
  arg (a :: b :: rest) (2 + Z.of_nat j) = default "" (rest !! j).
Proof.
  unfold arg. assert ((2 + Z.of_nat j <? 0) = false) as ->
    by (apply Z.ltb_ge; lia).
  replace (Z.to_nat (2 + Z.of_nat j)) with (S (S j)) by lia. reflexivity.
Qed.

Lemma tokens_from_tail (a b : string) (rest : list string) :
  tokens_from (Z.of_nat (length (a :: b :: rest))) (a :: b :: rest) 2 = rest.
Proof.
  unfold tokens_from.
  replace (Z.to_nat (Z.of_nat (length (a :: b :: rest)) - 2))
    with (length rest) by (cbn [length]; lia).
  apply list_eq. intros j. rewrite list_lookup_fmap.
  destruct (decide (j < length rest)%nat) as [Hj|Hj].
  - rewrite lookup_seq_lt by done. simpl. rewrite arg_tail.
    destruct (lookup_lt_is_Some_2 rest j Hj) as [x Hx]. by rewrite Hx.
  - rewrite lookup_seq_ge by lia. simpl. symmetry. apply lookup_ge_None. lia.
Qed.

(** With no non-options pending, an option element is processed where
    it stands. *)
Lemma next_element_option argc argv optstring longopts oi e oo :
  oi < argc ->
  Glibc.nonoption_p argv oi = false ->
  String.eqb (arg argv oi) "--" = false ->
  Glibc.next_element argc argv optstring longopts oi e oo oi oi =
  if Ascii.eqb (at_ (arg argv oi) 1) "-"%char
  then Glibc.process_long_option argc argv optstring longopts oi e oo
         (substr_from (arg argv oi) 2) oi oi
  else Glibc.process_short_option argc argv optstring oi e oo
         (substr_from (arg argv oi) 1) oi oi.
Proof.
  intros Hlt Hopt Hdd. unfold Glibc.next_element.
  rewrite Z.ltb_irrefl, Z.eqb_refl. cbn [negb andb].
  assert (Glibc.skip_nonoptions (Z.to_nat (argc - oi)) argv oi = oi) as ->.
  { destruct (Z.to_nat (argc - oi)); [done|]. simpl. by rewrite Hopt. }
  rewrite Hdd, andb_false_r.
  assert ((argc <=? oi) = false) as -> by lia. reflexivity.
Qed.

(** With non-options only from [optind] on, the scan ends, and
    [optind] stays at the first of them. *)
Lemma next_element_nonoptions argc argv optstring longopts oi e oo l :
  l <= oi <= argc ->
  (forall j, oi <= j < argc -> Glibc.nonoption_p argv j = true) ->
  Glibc.next_element argc argv optstring longopts oi e oo l l =
  Glibc.answer (-1) 0 argv oi e oo None "" oi argc.
Proof.
  intros Hle Hall. unfold Glibc.next_element.
  assert ((oi <? l) = false) as -> by lia.
  rewrite Z.eqb_refl. cbn [negb andb].
  assert ((if negb (l =? oi) then (argv, oi, l) else (argv, l, l))
          = (argv, oi, l)) as ->.
  { destruct (Z.eqb_spec l oi); simpl; congruence. }
  rewrite skip_all_nonoptions
    by (intros j Hj; apply Hall; lia).
  replace (oi + Z.of_nat (Z.to_nat (argc - oi))) with argc by lia.
  rewrite Z.ltb_irrefl. cbn [andb].
  assert ((argc <=? argc) = true) as -> by lia.
  destruct (Z.eqb_spec oi argc); simpl; congruence.
Qed.

(** On the model of the scanner: an option character that the table
    does not have, followed by non-options only.  The diagnostic is
    recorded and every token after the option becomes a positional
    argument, in order. *)
Lemma unknown_option_then_files
    (o : CmdOption) (prog : string) (z : ascii) (files : list string)
    (fuel : nat) :
  z <> "-"%char -> z <> NUL ->
  find_first_of z (m_shortOptStr o) = None ->
  (forall j, (j < length files)%nat ->
             Glibc.nonoption_p (prog :: String "-" (String z "") :: files)
               (2 + Z.of_nat j) = true) ->
  exists argv' g',
    parse (S (S fuel)) (prog :: String "-" (String z "") :: files) o process_start
    = Some (set_arguments (StringValue.add_all files (m_arguments o))
              (addErrorStr ("Unknown option: " ++ str_of_char z) o),
            argv', g').
Proof.
  intros Hdash Hnul Hz Hfiles.
  apply Ascii.eqb_neq in Hdash, Hnul.
  set (argv := prog :: String "-" (String z "") :: files).
  set (argc := Z.of_nat (length argv)).
  assert (argc = 2 + Z.of_nat (length files)) as Hargc
    by (unfold argc, argv; cbn [length]; lia).
  assert (arg argv 1 = String "-" (String z "")) as Harg by reflexivity.
  (* the first call reports the unknown option *)
  assert (Glibc.getopt_long argc argv (m_shortOptStr o) (m_longOptions o)
            (set_opterr 0 process_start)
          = Glibc.answer (int_of_char "?"%char) 0 argv 2 0 (int_of_char z)
              None "" 1 1) as Hcall1.
  { unfold Glibc.getopt_long.
    assert ((argc <? 1) = false) as -> by lia.
    unfold process_start, set_opterr.
    cbn [optind opterr optopt optarg internal hidden0 glibc Glibc.internal0
           Glibc.initialized Glibc.nextchar Glibc.first_nonopt
           Glibc.last_nonopt Z.leb Z.compare negb orb empty].
    rewrite next_element_option; rewrite ?Harg.
    - change (at_ (String "-" (String z "")) 1) with z. rewrite Hdash.
      unfold Glibc.process_short_option.
      rewrite substr_from_S, substr_from_0.
      change (at_ (String z "") 0) with z.
      change (substr_from (String z "") 1) with "".
      rewrite Hz. reflexivity.
    - lia.
    - unfold Glibc.nonoption_p. rewrite Harg.
      change (at_ (String "-" (String z "")) 1) with z. by rewrite Hnul.
    - simpl. by rewrite Hdash. }
  (* the second call finds non-options only *)
  assert (Glibc.getopt_long argc argv (m_shortOptStr o) (m_longOptions o)
            (state_after (Glibc.answer (int_of_char "?"%char) 0 argv 2 0
                            (int_of_char z) None "" 1 1))
          = Glibc.answer (-1) 0 argv 2 0 (int_of_char z) None "" 2 argc)
    as Hcall2.
  { unfold Glibc.getopt_long.
    assert ((argc <? 1) = false) as -> by lia.
    cbn [Glibc.answer state_after optind opterr optopt internal
           Glibc.initialized Glibc.nextchar Glibc.first_nonopt
           Glibc.last_nonopt negb orb empty Z.leb Z.compare].
    apply next_element_nonoptions; [lia|].
    intros j Hj. replace j with (2 + Z.of_nat (Z.to_nat (j - 2))) by lia.
    apply Hfiles. lia. }
  unfold parse. fold argv argc. cbn [parse_loop].
  unfold parse_body at 1. cbn [getopt_long glibc]. rewrite Hcall1.
  cbn [ret Glibc.answer state_after optopt longindex argv_after].
  change (int_of_char "?" <? 0) with false. cbv iota.
  unfold resolve.
  change (int_of_char "?" =? 0) with false.
  change (int_of_char "?" =? int_of_char "?") with true. cbv iota.
  rewrite char_of_int_of_char.
  unfold parse_body. cbn [getopt_long glibc].
  change (mk_getopt_state 2 0 (int_of_char z) None
            (Glibc.mk_internal "" 1 1 true))
    with (state_after (Glibc.answer (int_of_char "?"%char) 0 argv 2 0
                         (int_of_char z) None "" 1 1)).
  cbn [m_shortOptStr m_longOptions addErrorStr set_errorStr].
  rewrite Hcall2.
  cbn [ret Glibc.answer state_after argv_after]. cbv iota.
  change (-1 <? 0) with true. cbv iota.
  rewrite parse_finish_spec. cbn [optind].
  unfold argc, argv. rewrite tokens_from_tail.
  eexists _, _. reflexivity.
Qed.

(** The examples of the specification, run on the model of the scanner. *)
Example all_and_delta :
  let t := table_of ("-a, --all" ++ String newline "-d, --delta=NUM") in
  exists o argv g,
    parse 40 ["prog"; "--all"; "--delta"; "5"; "file.txt"] t process_start
      = Some (o, argv, g) /\
    get "all" o = Ok (StringValue.mk "" 1) /\
    get "a" o = Ok (StringValue.mk "" 1) /\
    get "delta" o = Ok (StringValue.mk "5" 1) /\
    arguments o = StringValue.mk "file.txt" 1 /\
    good o = true.
Proof.
  eexists _, _, _. split; [vm_compute; reflexivity|].
  repeat split; vm_compute; reflexivity.
Qed.

Example repeated_option :
  exists o argv g,
    parse 40 ["prog"; "-v"; "-v"; "-v"] (table_of "-v") process_start
      = Some (o, argv, g) /\
    get "v" o = Ok (StringValue.add_all [""; ""; ""] StringValue.default) /\
    StringValue.count (collection o 0) = 3.
Proof.
  eexists _, _, _. split; [vm_compute; reflexivity|].
  repeat split; vm_compute; reflexivity.
Qed.

Example options_after_arguments :
  let t := table_of ("-a, --all" ++ String newline "-d, --delta=NUM") in
  exists o g,
    parse 40 ["prog"; "x"; "--all"; "y"; "-d5"; "--"; "-a"] t process_start
      = Some (o, ["prog"; "--all"; "-d5"; "--"; "x"; "y"; "-a"], g) /\
    arguments o = StringValue.add_all ["x"; "y"; "-a"] StringValue.default /\
    get "d" o = Ok (StringValue.mk "5" 1).
Proof.
  eexists _, _. split; [vm_compute; reflexivity|].
  repeat split; vm_compute; reflexivity.
Qed.

(** * Further properties of the code *)

(** ** StringValue: what [add] builds *)

Lemma add_all_cons (s : string) (l : list string) (v : StringValue.t) :
  StringValue.add_all (s :: l) v = StringValue.add_all l (StringValue.add s v).
Proof. reflexivity. Qed.

Lemma add_all_count (l : list string) (v : StringValue.t) :
  StringValue.m_count (StringValue.add_all l v)
  = StringValue.m_count v + Z.of_nat (length l).
Proof.
  revert v. induction l as [|s l IH]; intros v.
  - simpl. lia.
  - rewrite add_all_cons, IH. unfold StringValue.add.
    destruct (StringValue.m_count v =? 0); cbn [StringValue.m_count length]; lia.
Qed.

Lemma join_lines_cons (s x : string) (l : list string) :
  join_lines (s :: x :: l) = s ++ String newline (join_lines (x :: l)).
Proof. reflexivity. Qed.

Lemma join_lines_merge (a s : string) (l : list string) :
  join_lines ((a ++ String newline s) :: l) = a ++ String newline (join_lines (s :: l)).
Proof.
  destruct l as [|x l]; [reflexivity|].
  rewrite !join_lines_cons. by rewrite app_string_assoc, app_cons.
Qed.

(** On a value that holds something, [add] appends lines. *)
Lemma add_all_text (l : list string) (v : StringValue.t) :
  0 < StringValue.m_count v ->
  StringValue.m_text (StringValue.add_all l v)
  = join_lines (StringValue.m_text v :: l).
Proof.
  revert v. induction l as [|s l IH]; intros v Hv.
  - reflexivity.
  - rewrite add_all_cons, IH.
    + unfold StringValue.add. assert ((StringValue.m_count v =? 0) = false) as ->
        by (apply Z.eqb_neq; lia).
      cbn [StringValue.m_text]. apply join_lines_merge.
    + unfold StringValue.add. destruct (StringValue.m_count v =? 0);
        cbn [StringValue.m_count]; lia.
Qed.

Lemma add_all_default (l : list string) :
  let v := StringValue.add_all l StringValue.default in
  StringValue.m_count v = Z.of_nat (length l) /\
  StringValue.m_text v = join_lines l.
Proof.
  intros v. split.
  - unfold v. rewrite add_all_count. simpl. lia.
  - unfold v. destruct l as [|s l]; [reflexivity|].
    rewrite add_all_cons.
    change (StringValue.add s StringValue.default) with (StringValue.of_string s).
    rewrite add_all_text by (simpl; lia). reflexivity.
Qed.

(** X1: a value built by adding the strings of a list to an empty value
    holds as many strings as the list has, its text is the strings joined
    by newlines, it converts to [true] exactly when the list is not
    empty, [str()] delivers the joined text and throws on the empty
    value, and the constructor from a string is the first [add]. *)
Theorem added_strings_are_joined (l : list string) :
  let v := StringValue.add_all l StringValue.default in
  StringValue.count v = Z.of_nat (length l) /\
  StringValue.m_text v = join_lines l /\
  StringValue.to_bool v = negb (bool_decide (l = [])) /\
  StringValue.str v =
    (if bool_decide (l = []) then Throw (invalid_argument "null value")
     else Ok (join_lines l)) /\
  (forall s, StringValue.add_all l (StringValue.of_string s)
             = StringValue.add_all (s :: l) StringValue.default).
Proof.
  intros v. destruct (add_all_default l) as [Hc Ht]. fold v in Hc, Ht.
  split; [exact Hc|]. split; [exact Ht|]. split; [|split].
  - unfold StringValue.to_bool. rewrite Hc.
    destruct l; [reflexivity|].
    rewrite bool_decide_eq_false_2 by done. apply Z.ltb_lt. simpl length. lia.
  - unfold StringValue.str, StringValue.as_, StringValue.validate.
    rewrite Hc, Ht. destruct l as [|s l]; [reflexivity|].
    rewrite bool_decide_eq_false_2 by done.
    assert ((Z.of_nat (length (s :: l)) =? 0) = false) as ->
      by (apply Z.eqb_neq; simpl length; lia).
    reflexivity.
  - intros s. reflexivity.
Qed.

(** ** StringValue: reading the strings back *)

Lemma lines_from_line (s cur rest : string) :
  no_newline s ->
  lines_from cur (s ++ String newline rest) = (cur ++ s) :: lines_from "" rest.
Proof.
  unfold no_newline. revert cur.
  induction s as [|c s IH]; intros cur Hs.
  - rewrite app_empty_l, app_empty_r. simpl.
    change (Ascii.eqb newline newline) with true. reflexivity.
  - rewrite app_cons. simpl in *.
    destruct (Ascii.eqb c newline) eqn:Hc; [done|].
    destruct (find_first_of newline s) eqn:Hf; [done|].
    rewrite IH by done. by rewrite app_string_assoc.
Qed.

Lemma lines_from_last (s cur : string) :
  no_newline s ->
  lines_from cur s = if empty (cur ++ s) then [] else [cur ++ s].
Proof.
  unfold no_newline. revert cur.
  induction s as [|c s IH]; intros cur Hs.
  - by rewrite app_empty_r.
  - simpl in *. destruct (Ascii.eqb c newline) eqn:Hc; [done|].
    destruct (find_first_of newline s) eqn:Hf; [done|].
    rewrite IH by done. by rewrite app_string_assoc.
Qed.

(** [std::getline] on strings joined by newlines gives the strings
    back, but for an empty last one. *)
Lemma getlines_join_lines (l : list string) :
  Forall no_newline l -> getlines (join_lines l) = drop_final_empty l.
Proof.
  induction l as [|s l IH]; intros Hl; [reflexivity|].
  inversion Hl as [|? ? Hs Hrest]; subst.
  destruct l as [|x l].
  - unfold getlines, drop_final_empty. simpl join_lines.
    rewrite lines_from_last by done. rewrite app_empty_l. simpl.
    by destruct (empty s).
  - rewrite join_lines_cons. unfold getlines.
    rewrite lines_from_line by done. rewrite app_empty_l.
    fold (getlines (join_lines (x :: l))). rewrite IH by done.
    unfold drop_final_empty.
    change (List.last (s :: x :: l) "") with (List.last (x :: l) "").
    destruct (empty (List.last (x :: l) "")); reflexivity.
Qed.

Lemma getValue_lines_string (l acc : list string) :
  StringValue.getValue_lines StringValue.getValue_string l acc = Ok (acc ++ l)%list.
Proof.
  revert acc. induction l as [|s l IH]; intros acc; simpl.
  - by rewrite app_nil_r.
  - rewrite IH. by rewrite <- app_assoc.
Qed.

(** X2: [as<std::vector<T>>()] on a value built by adding strings that
    hold no newline converts the strings added, in order, except that an
    empty string added last is lost; for [T = std::string] the vector is
    that list.  (A flag given three times has count 3 and a vector of
    two.) *)
Theorem as_vector_of_added {T : Type} (getValue : string -> result T)
    (l : list string) :
  l <> [] ->
  Forall no_newline l ->
  let v := StringValue.add_all l StringValue.default in
  StringValue.as_vector getValue v
    = StringValue.getValue_lines getValue (drop_final_empty l) [] /\
  StringValue.as_vector StringValue.getValue_string v = Ok (drop_final_empty l).
Proof.
  intros Hne Hl v.
  destruct (add_all_default l) as [Hc Ht]. fold v in Hc, Ht.
  assert (forall U (g : string -> result U),
            StringValue.as_vector g v
            = StringValue.getValue_lines g (drop_final_empty l) []) as Hgen.
  { intros U g. unfold StringValue.as_vector, StringValue.as_, StringValue.validate.
    rewrite Hc.
    assert ((Z.of_nat (length l) =? 0) = false) as ->
      by (apply Z.eqb_neq; destruct l; [done | simpl length; lia]).
    unfold StringValue.getValue_vector. by rewrite Ht, getlines_join_lines. }
  split; [apply Hgen|].
  rewrite Hgen. apply getValue_lines_string.
Qed.

Lemma as_vector_of_added_witness :
  StringValue.as_vector StringValue.getValue_string
    (StringValue.add_all ["a"; "b"] StringValue.default) = Ok ["a"; "b"] /\
  StringValue.as_vector StringValue.getValue_string
    (StringValue.add_all [""; ""; ""] StringValue.default) = Ok [""; ""] /\
  StringValue.count (StringValue.add_all [""; ""; ""] StringValue.default) = 3.
Proof.
  assert (Forall no_newline ["a"; "b"]) as H1 by (repeat constructor).
  assert (Forall no_newline [""; ""; ""]) as H2 by (repeat constructor).
  split; [|split].
  - exact (proj2 (as_vector_of_added StringValue.getValue_string ["a"; "b"]
                    ltac:(discriminate) H1)).
  - exact (proj2 (as_vector_of_added StringValue.getValue_string [""; ""; ""]
                    ltac:(discriminate) H2)).
  - reflexivity.
Defined.

(** ** StringValue: defaults *)

(** X3: [valueOr] delivers the converted value exactly when [as<T>]
    succeeds and the default whenever [as<T>] throws (an empty value, or a
    text the conversion rejects); the overload for C strings agrees with
    [valueOr<std::string>], a null pointer standing for the empty
    string. *)
Theorem valueOr_is_as_or_default {T : Type} (getValue : string -> result T)
    (d : T) (v : StringValue.t) :
  StringValue.valueOr getValue d v =
    match StringValue.as_ getValue v with
    | Ok x => x
    | Throw _ => d
    end /\
  (forall s, StringValue.valueOr_cstr (Some s) v
             = StringValue.valueOr StringValue.getValue_string s v) /\
  StringValue.valueOr_cstr None v
    = StringValue.valueOr StringValue.getValue_string "" v.
Proof.
  unfold StringValue.valueOr, StringValue.valueOr_cstr, StringValue.as_,
    StringValue.validate, StringValue.getValue_string.
  destruct (StringValue.m_count v =? 0); repeat split.
Qed.

(** X4: on every object a program can hold, the value [operator[]]
    delivers for a registered alias whose option has no recorded
    occurrence yields the caller's default through every [valueOr]. *)
Theorem valueOr_of_absent_option `{Scanner} (o : CmdOption) (opt : string)
    (index : Z) :
  reachable o ->
  m_indexMap o !! opt = Some index ->
  m_options o !! index = None ->
  exists v,
    get opt o = Ok v /\
    (forall (T : Type) (getValue : string -> result T) (d : T),
       StringValue.valueOr getValue d v = d) /\
    (forall s, StringValue.valueOr_cstr (Some s) v = s) /\
    StringValue.valueOr_cstr None v = "".
Proof.
  intros Hr Hi Ho. exists StringValue.default.
  unfold get. rewrite Hi, Ho, (reachable_nullStrValue o Hr).
  repeat split.
Qed.

Lemma valueOr_of_absent_option_witness :
  exists v,
    get "delta" (table_of "-d, --delta=NUM") = Ok v /\
    StringValue.valueOr StringValue.getValue_string "7" v = "7".
Proof.
  destruct (valueOr_of_absent_option (table_of "-d, --delta=NUM") "delta" 0
              (reachable_load _ _ reachable_fresh) eq_refl eq_refl)
    as (v & Hv & Hd & _).
  exists v. split; [exact Hv | apply Hd].
Defined.

(** ** The usage-line parser: lines that are ignored or invalid *)

(** A word that the loop accepts as the first one is left behind. *)
Lemma scan_words_first_accepted (w : string) (ws : list string)
    (s s' : ascii) (l l' : string) (a a' : Z) :
  scan_words [w] 0 s l a = ScanEnd 1 s' l' a' ->
  scan_words (w :: ws) 0 s l a = scan_words ws 1 s' l' a'.
Proof.
  cbn [scan_words]. change (0 + 1) with 1. change (2 <? 1) with false.
  change (1 =? 1) with true. cbv iota.
  repeat case_match; intros Hs; simplify_eq; reflexivity.
Qed.

(** X5: a line without words, and a line whose first word has at least
    two characters and does not start with a dash, are ignored: the line
    is accepted, nothing is registered and nothing is recorded. *)
Theorem prose_and_blank_lines_are_ignored (line : string) (i : Z) (o : CmdOption) :
  words line = [] \/
  (exists w ws, words line = w :: ws /\ (1 < String.length w)%nat /\
                at_ w 0 <> "-"%char) ->
  parseOptLine i line o = (true, o) /\ parseLine i line o = o.
Proof.
  intros Hline.
  assert (parseOptLine i line o = (true, o)) as Hp.
  { unfold parseOptLine, scan_line.
    destruct Hline as [-> | (w & ws & -> & Hlen & Hdash)]; [reflexivity|].
    cbn [scan_words]. change (2 <? 0 + 1) with false. cbv iota.
    assert ((String.length w <=? 1)%nat = false) as -> by (apply Nat.leb_gt; lia).
    apply Ascii.eqb_neq in Hdash. rewrite Hdash. reflexivity. }
  split; [exact Hp|]. unfold parseLine. by rewrite Hp.
Qed.

Lemma prose_and_blank_lines_are_ignored_witness :
  parseLine 3 "    the lines not started with '-' will be ignored" fresh = fresh /\
  parseLine 4 "   " fresh = fresh.
Proof.
  split.
  - apply (prose_and_blank_lines_are_ignored _ 3 fresh). right.
    exists "the", ["lines"; "not"; "started"; "with"; "'-'"; "will"; "be"; "ignored"].
    split; [reflexivity|]. split; [simpl; lia | discriminate].
  - apply (prose_and_blank_lines_are_ignored _ 4 fresh). left. reflexivity.
Defined.

(** X6: a word of one character makes the line invalid when it is the
    first word (even on a line of prose), and when it is the second word
    after an option word: the line is rejected, nothing is registered,
    and the diagnostic for the line is recorded. *)
Theorem one_character_word_is_invalid (line : string) (i : Z) (o : CmdOption) :
  (exists w ws, words line = w :: ws /\ (String.length w <= 1)%nat) \/
  (exists w1 w2 ws s l a,
     words line = w1 :: w2 :: ws /\
     scan_words [w1] 0 NUL "" 0 = ScanEnd 1 s l a /\
     (String.length w2 <= 1)%nat) ->
  parseOptLine i line o = (false, o) /\
  parseLine i line o =
    addErrorStr ("invalid option at line: " ++ to_string i
                   ++ String newline line) o /\
  good (parseLine i line o) = false.
Proof.
  intros Hline.
  assert (parseOptLine i line o = (false, o)) as Hp.
  { unfold parseOptLine, scan_line.
    destruct Hline as [(w & ws & -> & Hlen)
                      | (w1 & w2 & ws & s & l & a & -> & Hfirst & Hlen)].
    - cbn [scan_words]. change (2 <? 0 + 1) with false. cbv iota.
      apply Nat.leb_le in Hlen. by rewrite Hlen.
    - rewrite (scan_words_first_accepted _ _ _ _ _ _ _ _ Hfirst).
      cbn [scan_words]. change (2 <? 1 + 1) with false. cbv iota.
      apply Nat.leb_le in Hlen. by rewrite Hlen. }
  split; [exact Hp|].
  assert ((parseOptLine i line o).1 = false) as Hf by (by rewrite Hp).
  split; [by apply parseLine_invalid|].
  rewrite parseLine_invalid by done. by apply addErrorStr_not_good.
Qed.

Lemma one_character_word_is_invalid_witness :
  parseOptLine 0 "a file to delete" fresh = (false, fresh) /\
  parseOptLine 0 "-n N" fresh = (false, fresh).
Proof.
  split.
  - apply (one_character_word_is_invalid "a file to delete" 0 fresh). left.
    exists "a", ["file"; "to"; "delete"]. split; [reflexivity | simpl; lia].
  - apply (one_character_word_is_invalid "-n N" 0 fresh). right.
    exists "-n", "N", [], "n"%char, "", 0.
    split; [reflexivity|]. split; [reflexivity | simpl; lia].
Defined.

(** ** The option table builder: what a line registers *)

Lemma long_option_word_range (w name : string) (a : Z) :
  long_option_word w = Some (name, a) -> 0 <= a <= 2.
Proof.
  unfold long_option_word, no_argument, required_argument, optional_argument.
  repeat case_match; intros; simplify_eq; lia.
Qed.

Lemma scan_words_range ws n s l a n' s' l' a' :
  scan_words ws n s l a = ScanEnd n' s' l' a' ->
  0 <= a <= 2 -> 0 <= a' <= 2.
Proof.
  revert n s l a. induction ws as [|w ws IH]; intros n s l a Hs Ha.
  - simpl in Hs. by simplify_eq.
  - cbn [scan_words] in Hs.
    repeat case_match; simplify_eq; try done; try (by eapply IH).
    eapply IH; [eassumption|]. by eapply long_option_word_range.
Qed.

Lemma final_argReqmt_range n l a :
  0 <= a <= 2 -> 0 <= final_argReqmt n l a <= 2.
Proof.
  unfold final_argReqmt, required_argument, no_argument.
  repeat case_match; lia.
Qed.

(** What [parseLine] does to the object: nothing, or the diagnostic for
    an invalid line, or the registration of an option. *)
Lemma parseLine_cases i line o :
  parseLine i line o = o \/
  parseLine i line o =
    addErrorStr ("invalid option at line: " ++ to_string i
                   ++ String newline line) o \/
  exists s l a,
    Ascii.eqb s NUL && empty l = false /\ 0 <= a <= 2 /\
    parseLine i line o = register s l a o.
Proof.
  unfold parseLine, parseOptLine, scan_line.
  destruct (scan_words (words line) 0 NUL "" 0) as [| |n s l a] eqn:Hs;
    cbn [negb]; auto.
  destruct (n =? 0); cbn [negb]; auto.
  destruct (Ascii.eqb s NUL && empty l) eqn:Hopt; cbn [negb]; auto.
  right. right. exists s, l, (final_argReqmt n l a).
  split; [done|]. split; [|done].
  apply final_argReqmt_range. eapply scan_words_range; [exact Hs | lia].
Qed.

(** X7: a line that defines a short option together with a long one
    takes the argument requirement (0, 1 or 2) from the long option.  The
    descriptor of the long option keeps it, but the option string gets
    the short character followed by one colon both for a required and
    for an optional argument, so that the short form of an option with an
    optional argument is entered as one that requires its argument. *)
Theorem short_option_colon (line : string) (n : Z) (s : ascii) (l : string)
    (a : Z) (i : Z) (o : CmdOption) :
  scan_line line = ScanEnd n s l a ->
  s <> NUL -> l <> "" ->
  0 <= a <= 2 /\
  parseLine i line o = register s l a o /\
  m_shortOptStr (parseLine i line o) =
    m_shortOptStr o ++ str_of_char s ++ (if a =? no_argument then "" else ":") /\
  m_longOptions (parseLine i line o) =
    (m_longOptions o ++ [mk_long_option None a (int_of_char s)])%list.
Proof.
  intros Hs Hshort Hlong. unfold scan_line in Hs.
  assert (0 <= a <= 2) as Ha by (eapply scan_words_range; [exact Hs | lia]).
  assert (n <> 0) as Hn.
  { destruct (words line) as [|w ws] eqn:Hw.
    - simpl in Hs. by simplify_eq.
    - assert (0 <= 0 <= 2) as H02 by lia.
      pose proof (scan_words_count _ _ _ _ _ _ _ _ _ H02 Hs) as Hc.
      simpl length in Hc. lia. }
  assert (empty l = false) as Hel by (by destruct l).
  assert (parseLine i line o = register s l a o) as Hline.
  { rewrite (parseLine_registers i line o n s l a Hs Hn)
      by (by rewrite Hel, andb_false_r).
    unfold final_argReqmt. by rewrite Hel. }
  split; [exact Ha|]. split; [exact Hline|]. rewrite Hline. split.
  - rewrite register_shortOptStr, register_short_shortOptStr by done.
    unfold required_argument, optional_argument, no_argument.
    assert (a = 0 \/ a = 1 \/ a = 2) as [->|[->| ->]] by lia; reflexivity.
  - by apply register_longOptions.
Qed.

Lemma short_option_colon_witness :
  m_shortOptStr (parseLine 0 "-d, --delta=NUM" fresh) = ":d:" /\
  m_shortOptStr (parseLine 0 "-e --epsilon[=NUM]" fresh) = ":e:" /\
  m_longOptions (parseLine 0 "-e --epsilon[=NUM]" fresh)
    = [mk_long_option None optional_argument 101].
Proof.
  assert ("d"%char <> NUL) as Hd by discriminate.
  assert ("e"%char <> NUL) as He by discriminate.
  destruct (short_option_colon "-d, --delta=NUM" 2 "d"%char "delta" 1 0 fresh
              eq_refl Hd ltac:(discriminate)) as (_ & _ & H1 & _).
  destruct (short_option_colon "-e --epsilon[=NUM]" 2 "e"%char "epsilon" 2 0
              fresh eq_refl He ltac:(discriminate)) as (_ & _ & H2 & H3).
  split; [exact H1|]. split; [exact H2 | exact H3].
Defined.

(** A registration that consumes an identity gives it to an alias. *)
Lemma register_new_identity s l a o :
  m_maxIndex (register s l a o) = m_maxIndex o \/
  (m_maxIndex (register s l a o) = m_maxIndex o + 1 /\
   exists alias, m_indexMap (register s l a o) !! alias = Some (m_maxIndex o)).
Proof.
  unfold register, register_short, register_long.
  repeat case_match; simplify_eq; simpl; auto; right; (split; [done|]).
  all: try (eexists; apply lookup_insert_eq).
  all: match goal with
       | |- exists alias, <[?k := _]> (<[?k' := _]> _) !! alias = _ =>
           exists k; apply lookup_insert_eq
       | |- exists alias, _ !! alias = _ =>
           eexists; rewrite lookup_insert_ne; [apply lookup_insert_eq|]
       end.
Qed.

Lemma parseLine_identities_used i line o :
  0 <= m_maxIndex o ->
  (forall id, 0 <= id < m_maxIndex o ->
              exists alias, m_indexMap o !! alias = Some id) ->
  m_maxIndex o <= m_maxIndex (parseLine i line o) <= m_maxIndex o + 1 /\
  (forall id, 0 <= id < m_maxIndex (parseLine i line o) ->
              exists alias, m_indexMap (parseLine i line o) !! alias = Some id).
Proof.
  intros H0 Hused.
  destruct (parseLine_cases i line o) as [-> | [-> | (s & l & a & _ & _ & ->)]].
  - split; [lia | exact Hused].
  - split; [simpl; lia | exact Hused].
  - destruct (register_new_identity s l a o) as [Hsame | [Hnew [alias Halias]]].
    + rewrite Hsame. split; [lia|]. intros id Hid.
      destruct (Hused id Hid) as [x Hx]. exists x.
      by apply register_keeps_alias.
    + rewrite Hnew. split; [lia|]. intros id Hid.
      destruct (decide (id = m_maxIndex o)) as [->|Hne]; [by exists alias|].
      destruct (Hused id ltac:(lia)) as [x Hx]. exists x.
      by apply register_keeps_alias.
Qed.

Lemma init_loop_identities_used i lines o :
  0 <= m_maxIndex o ->
  (forall id, 0 <= id < m_maxIndex o ->
              exists alias, m_indexMap o !! alias = Some id) ->
  m_maxIndex o <= m_maxIndex (init_loop i lines o)
    <= m_maxIndex o + Z.of_nat (length lines) /\
  (forall id, 0 <= id < m_maxIndex (init_loop i lines o) ->
              exists alias, m_indexMap (init_loop i lines o) !! alias = Some id).
Proof.
  revert i o. induction lines as [|line rest IH]; intros i o H0 Hused.
  - simpl. split; [lia | exact Hused].
  - cbn [init_loop length]. destruct (good o).
    + destruct (parseLine_identities_used i line o H0 Hused) as [Hm Hu].
      destruct (IH (i + 1) (parseLine i line o) ltac:(lia) Hu) as [Hm' Hu'].
      split; [lia | exact Hu'].
    + split; [lia | exact Hused].
Qed.

(** X8: in the table built from a usage text the identities are
    consecutive: every number from 0 up to the number of options is the
    identity of some alias, and there are at most as many options as the
    text has lines. *)
Theorem identities_are_consecutive (usage : string) :
  0 <= m_maxIndex (table_of usage) <= Z.of_nat (length (getlines usage)) /\
  (forall id,
     0 <= id < m_maxIndex (table_of usage) ->
     exists alias, m_indexMap (table_of usage) !! alias = Some id).
Proof.
  destruct (init_loop_identities_used 0 (getlines usage) (set_usage usage fresh))
    as [Hm Hu].
  - simpl. lia.
  - simpl. intros id Hid. lia.
  - exact (conj Hm Hu).
Qed.

(** ** The option table builder: the table agrees with the alias index *)

Lemma find_first_of_app_found (c : ascii) (s t : string) :
  find_first_of c (s ++ t) <> None ->
  find_first_of c s <> None \/ find_first_of c t <> None.
Proof.
  intros Hf. destruct (find_first_of c s) eqn:Hs; [by left|]. right.
  rewrite (find_first_of_app _ _ _ Hs) in Hf. by destruct (find_first_of c t).
Qed.

Lemma find_first_of_char (c s : ascii) :
  find_first_of c (str_of_char s) <> None -> c = s.
Proof.
  simpl. destruct (Ascii.eqb_spec s c); [done|]. done.
Qed.

Lemma descriptor_known_mono o o' d :
  (forall alias id, m_indexMap o !! alias = Some id ->
                    m_indexMap o' !! alias = Some id) ->
  descriptor_known o d -> descriptor_known o' d.
Proof.
  intros Hmono [Ha Hv]. split; [exact Ha|].
  destruct Hv as [Hv | (s & Hs & Hv & [id Hid])]; [by left|].
  right. exists s. split; [done|]. split; [done|]. exists id. by apply Hmono.
Qed.

Lemma register_registers s l a o :
  (s <> NUL -> is_Some (m_indexMap (register s l a o) !! str_of_char s)) /\
  (l <> "" -> is_Some (m_indexMap (register s l a o) !! l)).
Proof.
  split.
  - intros Hs. apply Ascii.eqb_neq in Hs.
    assert (is_Some (m_indexMap (register_short s a o).2 !! str_of_char s))
      as [id Hid].
    { unfold register_short. rewrite Hs. cbn [negb].
      repeat case_match; simplify_eq; simpl;
        rewrite ?lookup_insert_eq; eauto. }
    unfold register. destruct (register_short s a o) as [u o1]. simpl in Hid.
    unfold register_long.
    repeat case_match; simplify_eq; simpl; eauto.
    destruct (decide (l = str_of_char s)) as [->|Hne].
    + rewrite lookup_insert_eq. eauto.
    + rewrite lookup_insert_ne by done. eauto.
  - intros Hl. assert (empty l = false) as Hel by (by destruct l).
    unfold register. destruct (register_short s a o) as [u o1].
    unfold register_long. rewrite Hel. cbn [negb].
    repeat case_match; simplify_eq; simpl;
      rewrite ?lookup_insert_eq; eauto.
Qed.

Lemma register_without_short l a o :
  m_shortOptStr (register NUL l a o) = m_shortOptStr o.
Proof.
  unfold register, register_short, register_long.
  repeat case_match; simplify_eq; reflexivity.
Qed.

Lemma register_without_long s a o :
  m_longOptions (register s "" a o) = m_longOptions o /\
  m_longOptNames (register s "" a o) = m_longOptNames o.
Proof.
  unfold register, register_short, register_long.
  repeat case_match; simplify_eq; split; reflexivity.
Qed.

Lemma register_aliases_known s l a o :
  0 <= a <= 2 ->
  aliases_known o -> aliases_known (register s l a o).
Proof.
  intros Ha (Hshort & Hnames & Hopts).
  pose proof (register_keeps_alias s l a o) as Hmono.
  destruct (register_registers s l a o) as [Hrs Hrl].
  assert (forall alias, is_Some (m_indexMap o !! alias) ->
                        is_Some (m_indexMap (register s l a o) !! alias)) as Hsome.
  { intros alias [id Hid]. exists id. by apply Hmono. }
  split; [|split].
  - intros c Hc. destruct (Ascii.eqb_spec s NUL) as [->|Hs].
    + rewrite register_without_short in Hc.
      destruct (Hshort c Hc) as [?|[? ?]]; [by left | right; auto].
    + rewrite register_shortOptStr, register_short_shortOptStr in Hc by done.
      apply find_first_of_app_found in Hc as [Hc|Hc].
      { destruct (Hshort c Hc) as [?|[? ?]]; [by left | right; auto]. }
      apply find_first_of_app_found in Hc as [Hc|Hc].
      { apply find_first_of_char in Hc as ->. right. auto. }
      left. destruct ((a =? required_argument) || (a =? optional_argument)).
      * by apply find_first_of_char in Hc.
      * done.
  - destruct l as [|c l].
    + rewrite (proj2 (register_without_long s a o)).
      eapply Forall_impl; [exact Hnames | auto].
    + rewrite (proj2 (register_longOptions s (String c l) a o ltac:(done))).
      apply Forall_app. split.
      * eapply Forall_impl; [exact Hnames | auto].
      * constructor; [|constructor]. by apply Hrl.
  - assert (Forall (descriptor_known (register s l a o)) (m_longOptions o))
      as Hold.
    { eapply Forall_impl; [exact Hopts|]. intros d.
      by apply descriptor_known_mono. }
    destruct l as [|c l].
    + by rewrite (proj1 (register_without_long s a o)).
    + rewrite (proj1 (register_longOptions s (String c l) a o ltac:(done))).
      apply Forall_app. split; [exact Hold|].
      constructor; [|constructor]. split; [exact Ha|]. simpl.
      destruct (Ascii.eqb_spec s NUL) as [->|Hs]; [by left|].
      right. exists s. auto.
Qed.

Lemma register_descriptors_pending s l a o :
  descriptors_pending o -> descriptors_pending (register s l a o).
Proof.
  intros [Hlen Hnone]. unfold descriptors_pending. destruct l as [|c l].
  - destruct (register_without_long s a o) as [-> ->]. by split.
  - destruct (register_longOptions s (String c l) a o ltac:(done)) as [-> ->].
    split.
    + rewrite !length_app. simpl. lia.
    + apply Forall_app. split; [exact Hnone|]. by repeat constructor.
Qed.

Lemma init_loop_consistent i lines o :
  aliases_known o -> descriptors_pending o ->
  aliases_known (init_loop i lines o) /\ descriptors_pending (init_loop i lines o).
Proof.
  revert i o. induction lines as [|line rest IH]; intros i o Hk Hp; simpl.
  - done.
  - destruct (good o); [|done]. apply IH.
    + destruct (parseLine_cases i line o)
        as [-> | [-> | (s & l & a & _ & Ha & ->)]]; try done.
      by apply register_aliases_known.
    + destruct (parseLine_cases i line o)
        as [-> | [-> | (s & l & a & _ & Ha & ->)]]; try done.
      by apply register_descriptors_pending.
Qed.

Lemma set_names_names names opts d :
  length opts = length names ->
  map lo_name (set_names names (opts ++ [d])) = (map Some names ++ [lo_name d])%list.
Proof.
  revert opts. induction names as [|nm names IH]; intros [|x opts] Hlen;
    simpl in *; try done; try lia.
  f_equal. apply IH. lia.
Qed.

Lemma set_names_known o names opts :
  Forall (descriptor_known o) opts ->
  Forall (descriptor_known o) (set_names names opts).
Proof.
  revert opts. induction names as [|nm names IH]; intros [|x opts] Hall;
    simpl; try done.
  inversion Hall as [|? ? Hx Hrest]; subst. constructor; [|by apply IH].
  exact Hx.
Qed.

(** The table that [init] leaves agrees with the alias index. *)
Lemma table_of_consistent (usage : string) :
  aliases_known (table_of usage) /\ descriptors_named (table_of usage).
Proof.
  destruct (init_loop_consistent 0 (getlines usage) (set_usage usage fresh))
    as [(Hshort & Hnames & Hopts) [Hlen Hnone]].
  { split; [|split].
    - intros c Hc. left. exact (find_first_of_char c ":" Hc).
    - simpl. constructor.
    - simpl. constructor. }
  { split; [reflexivity | constructor]. }
  set (o1 := init_loop 0 (getlines usage) (set_usage usage fresh)) in *.
  split; [split; [|split]|].
  - exact Hshort.
  - exact Hnames.
  - unfold table_of, load_usage, init. simpl. fold o1.
    apply set_names_known. apply Forall_app. split; [exact Hopts|].
    constructor; [|constructor]. split; [simpl; lia | by left].
  - unfold descriptors_named, table_of, load_usage, init. simpl. fold o1.
    by rewrite set_names_names.
Qed.

(** X9: the table built from a usage text agrees with its alias index.
    Every character of the option string other than a colon is a
    registered short alias; every long name is a registered alias; every
    descriptor has one of the three argument requirements and returns 0
    or the character of a registered short alias; and [init] has given
    the descriptors their names, in order, and ended them with a
    descriptor with a null name. *)
Theorem table_agrees_with_alias_index (usage : string) :
  let o := table_of usage in
  (forall c,
     find_first_of c (m_shortOptStr o) <> None -> c <> ":"%char ->
     c <> NUL /\ is_Some (m_indexMap o !! str_of_char c)) /\
  (forall name,
     In name (m_longOptNames o) -> is_Some (m_indexMap o !! name)) /\
  (forall d,
     In d (m_longOptions o) ->
     0 <= lo_has_arg d <= 2 /\
     (lo_val d = 0 \/
      exists s, s <> NUL /\ lo_val d = int_of_char s /\
                is_Some (m_indexMap o !! str_of_char s))) /\
  map lo_name (m_longOptions o) = (map Some (m_longOptNames o) ++ [None])%list.
Proof.
  intros o.
  destruct (table_of_consistent usage) as [(Hshort & Hnames & Hopts) Hnamed].
  fold o in Hshort, Hnames, Hopts, Hnamed.
  split; [|split; [|split]].
  - intros c Hc Hne. by destruct (Hshort c Hc) as [?|?].
  - intros name Hin. rewrite Forall_forall in Hnames. apply Hnames.
    by apply list_elem_of_In.
  - intros d Hin. rewrite Forall_forall in Hopts. apply Hopts.
    by apply list_elem_of_In.
  - exact Hnamed.
Qed.

(** ** The argument dispatcher: what a scan leaves alone, and what it counts *)

Lemma table_kept_refl o : table_kept o o.
Proof. by repeat split. Qed.

Lemma table_kept_trans o1 o2 o3 :
  table_kept o1 o2 -> table_kept o2 o3 -> table_kept o1 o3.
Proof.
  intros (A1 & A2 & A3 & A4 & A5 & A6 & A7) (B1 & B2 & B3 & B4 & B5 & B6 & B7).
  repeat split; try congruence. intros alias id Hid. by apply B7, A7.
Qed.

Lemma count_add (str : string) (v : StringValue.t) :
  StringValue.count (StringValue.add str v) = StringValue.count v + 1.
Proof. unfold StringValue.count, StringValue.add. by case_match. Qed.

Lemma times_app (index : Z) (l1 l2 : list Z) :
  times index (l1 ++ l2) = times index l1 + times index l2.
Proof. unfold times. rewrite filter_app, length_app. lia. Qed.

Lemma times_nonneg (index : Z) (l : list Z) : 0 <= times index l.
Proof. unfold times. lia. Qed.

Lemma times_positive (index : Z) (l : list Z) :
  In index l -> 0 < times index l.
Proof.
  intros Hin. unfold times.
  assert (index ∈ filter (fun i => i = index) l) as Hel.
  { apply list_elem_of_filter. split; [done | by apply list_elem_of_In]. }
  destruct (filter (fun i => i = index) l); [by apply not_elem_of_nil in Hel|].
  simpl. lia.
Qed.

Section DispatcherTable.
Context `{Scanner}.

Lemma parse_body_table argc o argv g f o' argv' g' :
  parse_body argc (o, argv, g) = (f, (o', argv', g')) ->
  table_kept o o'.
Proof.
  unfold parse_body, resolve, indexMap_at, options_add, addErrorStr, table_kept.
  intros Hb. repeat case_match; simplify_eq; simpl; repeat split; try done.
  all: intros alias id Hid; rewrite lookup_insert_ne; [done | congruence].
Qed.

Lemma parse_loop_table fuel argc o argv g o' argv' g' :
  parse_loop fuel argc (o, argv, g) = Some (o', argv', g') ->
  table_kept o o'.
Proof.
  revert o argv g. induction fuel as [|fuel IH]; intros o argv g Hk; [done|].
  cbn [parse_loop] in Hk.
  destruct (parse_body argc (o, argv, g)) as [f [[o1 argv1] g1]] eqn:Hb.
  apply parse_body_table in Hb. destruct f.
  - eapply table_kept_trans; [exact Hb | by eapply IH].
  - by simplify_eq.
Qed.

Lemma parse_table fuel argv o g o' argv' g' :
  parse fuel argv o g = Some (o', argv', g') ->
  table_kept o o'.
Proof.
  unfold parse. intros Hp.
  destruct (parse_loop fuel _ _) as [[[o1 argv1] g1]|] eqn:Hk; [|done].
  apply parse_loop_table in Hk. unfold parse_finish in Hp.
  destruct (collect _ _ _ _) as [i a]. by simplify_eq.
Qed.

(** What one pass adds to the collection of an identity, and that a
    collection that exists stays. *)
Lemma parse_body_count argc o argv g f o' argv' g' index :
  parse_body argc (o, argv, g) = (f, (o', argv', g')) ->
  StringValue.count (collection o' index) =
    StringValue.count (collection o index)
    + times index (match f with
                   | Again => option_list (recorded argc (o, argv, g))
                   | Leave => []
                   end) /\
  (is_Some (m_options o !! index) -> is_Some (m_options o' !! index)) /\
  (f = Again -> recorded argc (o, argv, g) = Some index ->
   is_Some (m_options o' !! index)).
Proof.
  unfold parse_body, recorded, resolve, indexMap_at. intros Hb.
  repeat case_match; simplify_eq; simpl (option_list _);
    rewrite ?collection_options_add; unfold times;
    rewrite ?filter_cons, ?filter_nil; repeat case_decide; simplify_eq;
    cbn [length]; rewrite ?count_add;
    (split; [unfold collection; simpl; lia|]); unfold options_add; simpl;
    (split; [intros [v Hv]|intros _ ?; simplify_eq]);
    rewrite ?lookup_insert_eq; eauto.
  all: rewrite lookup_insert_ne by done; eauto.
Qed.

Lemma parse_loop_count fuel argc o argv g o' argv' g' index :
  parse_loop fuel argc (o, argv, g) = Some (o', argv', g') ->
  StringValue.count (collection o' index) =
    StringValue.count (collection o index)
    + times index (occurrences fuel argc (o, argv, g)) /\
  (is_Some (m_options o !! index) \/
   In index (occurrences fuel argc (o, argv, g)) ->
   is_Some (m_options o' !! index)).
Proof.
  revert o argv g. induction fuel as [|fuel IH]; intros o argv g Hk; [done|].
  cbn [parse_loop occurrences] in *.
  destruct (parse_body argc (o, argv, g)) as [f [[o1 argv1] g1]] eqn:Hb.
  destruct (parse_body_count _ _ _ _ _ _ _ _ index Hb) as (Hc & Hkeep & Hnew).
  destruct f.
  - destruct (IH _ _ _ Hk) as [Hc' Hp']. split.
    + rewrite Hc', Hc, times_app. lia.
    + intros [Hs | Hin]; apply Hp'.
      * left. by apply Hkeep.
      * apply in_app_or in Hin as [Hin|Hin]; [left | by right].
        apply Hnew; [done|].
        destruct (recorded argc (o, argv, g)) as [j|]; [|done].
        simpl in Hin. by destruct Hin as [->|[]].
  - simplify_eq. split; [by rewrite Hc; unfold times; simpl; lia|].
    intros [Hs | []]. by apply Hkeep.
Qed.

End DispatcherTable.

Section DispatcherFurther.
Context {S : Scanner} {Laws : ScannerLaws S}.

(** X10: [parse] returns (given enough fuel) and leaves the table as
    it was: the usage text, the option string, the descriptors, the long
    names, the number of identities and the null value are unchanged, and
    every alias keeps its identity, so that [operator[]] still accepts
    every alias it accepted before the call. *)
Theorem parse_keeps_table
    (fuel : nat) (argv : list string) (o : CmdOption)
    (g : getopt_state hidden) :
  (remaining (Z.of_nat (length argv)) argv (set_opterr 0 g) < fuel)%nat ->
  exists o' argv' g',
    parse fuel argv o g = Some (o', argv', g') /\
    m_usage o' = m_usage o /\
    m_shortOptStr o' = m_shortOptStr o /\
    m_longOptions o' = m_longOptions o /\
    m_longOptNames o' = m_longOptNames o /\
    m_maxIndex o' = m_maxIndex o /\
    m_nullStrValue o' = m_nullStrValue o /\
    (forall alias id,
       m_indexMap o !! alias = Some id ->
       m_indexMap o' !! alias = Some id /\ exists v, get alias o' = Ok v).
Proof.
  intros Hf.
  destruct (parse_accumulates fuel argv o g Hf)
    as (o' & argv' & g' & _ & Hp & _).
  exists o', argv', g'. split; [exact Hp|].
  destruct (parse_table _ _ _ _ _ _ _ Hp)
    as (H1 & H2 & H3 & H4 & H5 & H6 & H7).
  repeat (split; [assumption|]).
  intros alias id Hid. split; [by apply H7|].
  unfold get. rewrite (H7 _ _ Hid).
  destruct (m_options o' !! id); eauto.
Qed.

(** X11: the number of values [parse] adds to the collection of an
    identity is the number of passes of its loop in which an option of
    that identity was reported.  An alias of an option that occurred is
    accepted by [operator[]] afterwards, with a collection of that size
    when the option had none before. *)
Theorem count_is_number_of_occurrences
    (fuel : nat) (argv : list string) (o : CmdOption)
    (g : getopt_state hidden) :
  let argc := Z.of_nat (length argv) in
  let occ := occurrences fuel argc (o, argv, set_opterr 0 g) in
  (remaining argc argv (set_opterr 0 g) < fuel)%nat ->
  exists o' argv' g',
    parse fuel argv o g = Some (o', argv', g') /\
    (forall index,
       StringValue.count (collection o' index) =
       StringValue.count (collection o index) + times index occ) /\
    (forall alias index,
       m_indexMap o !! alias = Some index -> In index occ ->
       exists v,
         get alias o' = Ok v /\
         StringValue.count v =
           StringValue.count (collection o index) + times index occ /\
         (m_options o !! index = None ->
          StringValue.count v = times index occ /\
          StringValue.to_bool v = true)).
Proof.
  intros argc occ Hf.
  destruct (parse_accumulates fuel argv o g Hf)
    as (o' & argv' & g' & _ & Hp & _).
  exists o', argv', g'. split; [exact Hp|].
  pose proof (parse_table _ _ _ _ _ _ _ Hp) as (_ & _ & _ & _ & _ & _ & Hkeep).
  unfold parse in Hp. fold argc in Hp.
  destruct (parse_loop fuel argc (o, argv, set_opterr 0 g))
    as [[[o1 argv1] g1]|] eqn:Hk; [|done].
  rewrite parse_finish_spec in Hp. simplify_eq.
  assert (forall index,
            StringValue.count (collection o1 index) =
            StringValue.count (collection o index) + times index occ) as Hc.
  { intros index. apply (parse_loop_count _ _ _ _ _ _ _ _ index Hk). }
  split; [exact Hc|].
  intros alias index Hi Hin.
  destruct (proj2 (parse_loop_count _ _ _ _ _ _ _ _ index Hk)) as [v Hv];
    [by right|].
  exists v. unfold get. rewrite (Hkeep _ _ Hi). simpl. rewrite Hv.
  split; [reflexivity|].
  specialize (Hc index). unfold collection in Hc at 1. rewrite Hv in Hc.
  simpl in Hc. split; [exact Hc|].
  intros Hnone. unfold collection in Hc. rewrite Hnone in Hc. simpl in Hc.
  pose proof (times_positive index occ Hin) as Hpos.
  split; [exact Hc|].
  unfold StringValue.to_bool. unfold StringValue.count in Hc.
  apply Z.ltb_lt. lia.
Qed.

(** X12: at any pass of the loop of [parse] in which the scanner
    reports a missing argument, the diagnostic "Missing argument for: "
    with the character of [optopt] is recorded and the loop goes on with
    the next pass; [parse] returns (given enough fuel) an object that is
    not good and whose diagnostics start with those recorded up to and
    including this one. *)
Theorem missing_argument_is_reported
    (fuel : nat) (argv : list string) (o : CmdOption)
    (g : getopt_state hidden)
    (ok : CmdOption) (argvk : list string) (gk : getopt_state hidden) :
  let argc := Z.of_nat (length argv) in
  let r := getopt_long argc argvk (m_shortOptStr ok) (m_longOptions ok) gk in
  let diagnostic :=
    "Missing argument for: "
    ++ str_of_char (char_of_int (optopt (state_after r))) in
  loop_reaches argc (o, argv, set_opterr 0 g) (ok, argvk, gk) ->
  ret r = int_of_char ":"%char ->
  (remaining argc argv (set_opterr 0 g) < fuel)%nat ->
  parse_body argc (ok, argvk, gk)
    = (Again, (addErrorStr diagnostic ok, argv_after r, state_after r)) /\
  exists o' argv' g',
    parse fuel argv o g = Some (o', argv', g') /\
    good o' = false /\
    (exists t, m_errorStr o' = m_errorStr (addErrorStr diagnostic ok) ++ t) /\
    (forall index,
       m_options ok !! index = m_options (addErrorStr diagnostic ok) !! index).
Proof.
  intros argc r diagnostic Hreach Hret Hf.
  assert (parse_body argc (ok, argvk, gk)
          = (Again, (addErrorStr diagnostic ok, argv_after r, state_after r)))
    as Hbody.
  { unfold parse_body. fold r. rewrite Hret. reflexivity. }
  split; [exact Hbody|].
  destruct (parse_loop_terminates fuel argc o argv (set_opterr 0 g) Hf)
    as [[[o1 argv1] g1] Hk].
  assert (loop_reaches argc (o, argv, set_opterr 0 g)
            (addErrorStr diagnostic ok, argv_after r, state_after r)) as Hreach'.
  { clear Hk. induction Hreach as [k|k k1 k2 Hb _ IH].
    - eapply reaches_next; [exact Hbody | apply reaches_here].
    - eapply reaches_next; [exact Hb | by apply IH]. }
  pose proof (loop_reaches_same_end _ _ _ _ _ Hreach' Hk) as Hk'.
  destruct (parse_loop_accumulates _ _ _ _ _ _ _ _ Hk') as (_ & Hg & He & _).
  unfold parse. fold argc. rewrite Hk, parse_finish_spec.
  eexists _, _, _. split; [reflexivity|]. split; [|split].
  - apply Hg. by apply addErrorStr_not_good.
  - exact He.
  - reflexivity.
Qed.

End DispatcherFurther.

Lemma parse_keeps_table_witness :
  exists o' argv' g',
    parse 20 ["prog"; "--all"; "x"] (table_of "-a, --all") process_start
      = Some (o', argv', g') /\
    m_shortOptStr o' = ":a" /\
    m_indexMap o' !! "all" = Some 0 /\
    exists v, get "a" o' = Ok v.
Proof.
  destruct (parse_keeps_table (Laws := glibc_laws) 20
              ["prog"; "--all"; "x"] (table_of "-a, --all") process_start
              ltac:(vm_compute; lia))
    as (o' & argv' & g' & Hp & _ & Hs & _ & _ & _ & _ & Hi).
  exists o', argv', g'. split; [exact Hp|]. split; [exact Hs|].
  split.
  - exact (proj1 (Hi "all" 0 eq_refl)).
  - exact (proj2 (Hi "a" 0 eq_refl)).
Defined.

Lemma count_is_number_of_occurrences_witness :
  exists o' argv' g' v,
    parse 20 ["prog"; "-v"; "--verbose"; "-v"; "x"]
      (table_of "-v, --verbose") process_start = Some (o', argv', g') /\
    get "verbose" o' = Ok v /\
    StringValue.count v = 3 /\
    StringValue.to_bool v = true.
Proof.
  destruct (count_is_number_of_occurrences (Laws := glibc_laws) 20
              ["prog"; "-v"; "--verbose"; "-v"; "x"]
              (table_of "-v, --verbose") process_start
              ltac:(vm_compute; lia))
    as (o' & argv' & g' & Hp & _ & Hget).
  destruct (Hget "verbose" 0 eq_refl ltac:(vm_compute; tauto))
    as (v & Hv & _ & Hnone).
  destruct (Hnone eq_refl) as [Hcount Hbool].
  exists o', argv', g', v.
  split; [exact Hp|]. split; [exact Hv|]. split; [exact Hcount | exact Hbool].
Defined.

Lemma missing_argument_is_reported_witness :
  exists o' argv' g',
    parse 20 ["prog"; "-d"] (table_of "-d, --delta=NUM") process_start
      = Some (o', argv', g') /\
    good o' = false /\
    (exists t, m_errorStr o' = "Missing argument for: d" ++ t).
Proof.
  destruct (proj2 (missing_argument_is_reported (Laws := glibc_laws) 20
                     ["prog"; "-d"] (table_of "-d, --delta=NUM") process_start
                     (table_of "-d, --delta=NUM") ["prog"; "-d"]
                     (set_opterr 0 process_start)
                     (reaches_here _ _) eq_refl ltac:(vm_compute; lia)))
    as (o' & argv' & g' & Hp & Hg & He & _).
  exists o', argv', g'. split; [exact Hp|]. split; [exact Hg | exact He].
Defined.

(** ** The argument dispatcher with a scanner that reports only what it was given *)

(** The model of the scanner reports only what it was given. *)
Lemma find_exact_lookup name t i j e :
  Glibc.find_exact name t i = Some (j, e) ->
  i <= j /\ t !! Z.to_nat (j - i) = Some e.
Proof.
  revert i. induction t as [|x t IH]; intros i Hf; simpl in Hf; [done|].
  destruct (String.eqb x.1.1 name).
  - simplify_eq. split; [lia|]. by rewrite Z.sub_diag.
  - destruct (IH _ Hf) as [Hle Hl]. split; [lia|].
    replace (Z.to_nat (j - i)) with (Datatypes.S (Z.to_nat (j - (i + 1)))) by lia.
    exact Hl.
Qed.

Lemma find_abbrev_lookup name t i j e :
  In (j, e) (Glibc.find_abbrev name t i) ->
  i <= j /\ t !! Z.to_nat (j - i) = Some e.
Proof.
  revert i. induction t as [|x t IH]; intros i Hin; simpl in Hin; [done|].
  assert (In (j, e) (Glibc.find_abbrev name t (i + 1)) ->
          i <= j /\ (x :: t) !! Z.to_nat (j - i) = Some e) as Hrest.
  { intros Hin'. destruct (IH _ Hin') as [Hle Hl]. split; [lia|].
    replace (Z.to_nat (j - i)) with (Datatypes.S (Z.to_nat (j - (i + 1)))) by lia.
    exact Hl. }
  destruct (String.prefix name x.1.1); [|by apply Hrest].
  destruct Hin as [Heq|Hin]; [|by apply Hrest].
  simplify_eq. split; [lia|]. by rewrite Z.sub_diag.
Qed.

Lemma lookup_long_found name longopts i e :
  Glibc.lookup_long name longopts = Glibc.Found i e ->
  0 <= i /\ Glibc.table longopts !! Z.to_nat i = Some e.
Proof.
  unfold Glibc.lookup_long. intros Hl.
  destruct (Glibc.find_exact name (Glibc.table longopts) 0)
    as [[j e']|] eqn:Hex.
  - simplify_eq. apply find_exact_lookup in Hex as [Hle Hx].
    by rewrite Z.sub_0_r in Hx.
  - destruct (Glibc.find_abbrev name (Glibc.table longopts) 0)
      as [|[j e'] others] eqn:Hab; [done|].
    destruct (Glibc.ambiguous e' others); [done|]. simplify_eq.
    destruct (find_abbrev_lookup name (Glibc.table longopts) 0 i e) as [Hle Hx].
    { rewrite Hab. by left. }
    by rewrite Z.sub_0_r in Hx.
Qed.

Lemma table_lookup longopts n nm a v :
  Glibc.table longopts !! n = Some (nm, a, v) ->
  exists d, longopts !! n = Some d /\ lo_name d = Some nm /\ lo_val d = v.
Proof.
  revert n. induction longopts as [|d rest IH]; intros n Hn; simpl in Hn;
    [done|].
  destruct (lo_name d) as [nm'|] eqn:Hd; [|done].
  destruct n as [|n]; simpl in Hn.
  - simplify_eq. by exists d.
  - by apply IH.
Qed.

Lemma reported_unknown {H : Type} optstring longopts (r : getopt_return H) :
  ret r = int_of_char "?"%char -> reported optstring longopts r.
Proof. intros Hr. right. by left. Qed.

Lemma reported_missing li argv oi e oo oa nc f l optstring longopts :
  reported optstring longopts
    (Glibc.answer (Glibc.missing optstring) li argv oi e oo oa nc f l).
Proof.
  unfold Glibc.missing. destruct (Ascii.eqb _ _).
  - right. right. by left.
  - right. by left.
Qed.

Lemma process_short_option_reported argc argv optstring longopts oi e oo nc f l :
  reported optstring longopts
    (Glibc.process_short_option argc argv optstring oi e oo nc f l).
Proof.
  unfold Glibc.process_short_option.
  destruct (find_first_of (at_ nc 0) optstring) as [t|] eqn:Hfind;
    [|by apply reported_unknown].
  destruct (Ascii.eqb (at_ nc 0) ":" || Ascii.eqb (at_ nc 0) ";") eqn:Hc;
    [by apply reported_unknown|].
  apply orb_false_elim in Hc as [Hc _]. apply Ascii.eqb_neq in Hc.
  assert (forall li argv' oi' e' oo' oa nc' f' l',
            reported optstring longopts
              (Glibc.answer (int_of_char (at_ nc 0)) li argv' oi' e' oo' oa
                 nc' f' l')) as Hshort.
  { intros. right. right. right. left. exists (at_ nc 0).
    split; [reflexivity|]. split; [exact Hc|]. by rewrite Hfind. }
  repeat case_match; try apply Hshort; apply reported_missing.
Qed.

Lemma process_long_option_reported argc argv optstring longopts oi e oo nc f l :
  reported optstring longopts
    (Glibc.process_long_option argc argv optstring longopts oi e oo nc f l).
Proof.
  unfold Glibc.process_long_option.
  destruct (Glibc.lookup_long _ longopts) as [i [[nm has_arg] val]| |] eqn:Hl;
    [|by apply reported_unknown..].
  apply lookup_long_found in Hl as [Hi Ht].
  apply table_lookup in Ht as (d & Hd & Hnm & Hval).
  assert (forall argv' oi' e' oo' oa nc' f' l',
            reported optstring longopts
              (Glibc.answer val i argv' oi' e' oo' oa nc' f' l')) as Hlong.
  { intros. right. right. right. right. exists d. simpl.
    split; [exact Hi|]. split; [exact Hd|]. split; [by rewrite Hnm | done]. }
  repeat case_match; try apply Hlong; try (by apply reported_unknown);
    apply reported_missing.
Qed.

Lemma next_element_reported argc argv optstring longopts oi e oo f l :
  reported optstring longopts
    (Glibc.next_element argc argv optstring longopts oi e oo f l).
Proof.
  unfold Glibc.next_element.
  repeat case_match; simplify_eq;
    try apply process_long_option_reported;
    try apply process_short_option_reported;
    left; simpl; lia.
Qed.

Lemma glibc_reports_given_options : reports_given_options glibc.
Proof.
  intros argc argv optstring longopts g. simpl. unfold Glibc.getopt_long.
  repeat case_match;
    try apply next_element_reported;
    try apply process_short_option_reported;
    left; simpl; lia.
Qed.

Lemma int_of_char_zero (c : ascii) : int_of_char c = 0 -> c = NUL.
Proof. intros Hc. rewrite <- (char_of_int_of_char c), Hc. reflexivity. Qed.

Lemma aliases_known_kept o o' :
  table_kept o o' -> m_indexMap o' = m_indexMap o ->
  aliases_known o -> aliases_known o'.
Proof.
  intros (_ & H2 & H3 & H4 & _) Hm (Hshort & Hnames & Hopts).
  unfold aliases_known, descriptor_known in *. rewrite H2, H3, H4, Hm.
  done.
Qed.

Lemma descriptors_named_kept o o' :
  table_kept o o' -> descriptors_named o -> descriptors_named o'.
Proof.
  intros (_ & _ & H3 & H4 & _) Hn. unfold descriptors_named in *.
  by rewrite H3, H4.
Qed.

(** The name of a descriptor that has one is in the list of names, at
    the same index. *)
Lemma descriptors_named_lookup o i d :
  descriptors_named o ->
  m_longOptions o !! i = Some d -> lo_name d <> None ->
  exists nm, m_longOptNames o !! i = Some nm.
Proof.
  unfold descriptors_named. intros Hn Hd Hnm.
  assert ((map lo_name (m_longOptions o)) !! i = Some (lo_name d)) as Hl
    by (by rewrite list_lookup_fmap, Hd).
  rewrite Hn in Hl.
  destruct (decide (i < length (m_longOptNames o))%nat) as [Hlt|Hge].
  - destruct (lookup_lt_is_Some_2 (m_longOptNames o) i Hlt) as [nm Hi].
    by exists nm.
  - rewrite lookup_app_r in Hl by (rewrite length_map; lia).
    rewrite length_map in Hl.
    destruct (i - length (m_longOptNames o))%nat as [|k]; simpl in Hl.
    + by simplify_eq.
    + done.
Qed.

(** On a consistent table, what such a scanner reports is resolved. *)
Lemma resolve_reported {H : Type} (r : getopt_return H) (opt : Z) (o : CmdOption) :
  aliases_known o -> descriptors_named o ->
  reported (m_shortOptStr o) (m_longOptions o) r ->
  0 <= ret r ->
  match resolve (ret r) (longindex r) opt o with
  | Resolved _ o1 | Skipped o1 => m_indexMap o1 = m_indexMap o
  | Aborted _ => False
  end.
Proof.
  intros (Hshort & Hnames & Hopts) Hnamed Hrep Hret.
  assert (ret r <> int_of_char "?"%char -> ret r <> int_of_char ":"%char ->
          (ret r = 0 /\
           is_Some (m_indexMap o
                    !! default "" (m_longOptNames o !! Z.to_nat (longindex r))))
          \/ (ret r <> 0 /\
              is_Some (m_indexMap o !! str_of_char (char_of_int (ret r)))))
    as Hknown.
  { intros Hq Hc.
    destruct Hrep as [Hneg | [Hq' | [Hc' | [Hs | Hl]]]]; try lia.
    - destruct Hs as (c & Hr & Hne & Hfind).
      destruct (Hshort c Hfind) as [-> | [Hnul Hreg]]; [done|].
      right. split.
      + intros H0. rewrite Hr in H0. by apply int_of_char_zero in H0.
      + by rewrite Hr, char_of_int_of_char.
    - destruct Hl as (d & Hi & Hd & Hnm & Hr).
      rewrite Forall_forall in Hopts.
      destruct (Hopts d) as [_ Hval]; [by eapply list_elem_of_lookup_2|].
      destruct Hval as [H0 | (s & Hnul & Hv & Hreg)].
      + left. split; [congruence|].
        destruct (descriptors_named_lookup _ _ _ Hnamed Hd Hnm) as [nm Hn].
        rewrite Hn. simpl. rewrite Forall_forall in Hnames.
        apply Hnames. by eapply list_elem_of_lookup_2.
      + right. split.
        * intros H0. rewrite Hr, Hv in H0. by apply int_of_char_zero in H0.
        * by rewrite Hr, Hv, char_of_int_of_char. }
  unfold resolve, indexMap_at.
  pose proof (eq_refl : int_of_char "?"%char = 63) as Hq63.
  pose proof (eq_refl : int_of_char ":"%char = 58) as Hc58.
  destruct (ret r =? 0) eqn:E0.
  { destruct Hknown as [[_ [id Hid]] | [Hne _]]; [lia.. | | lia].
    by rewrite Hid. }
  destruct (ret r =? int_of_char "?"%char) eqn:Eq; [reflexivity|].
  destruct (ret r =? int_of_char ":"%char) eqn:Ec; [reflexivity|].
  destruct Hknown as [[H0 _] | [_ [id Hid]]]; [lia.. | lia |].
  by rewrite Hid.
Qed.

Lemma loop_reaches_step `{Scanner} argc k k1 k2 :
  loop_reaches argc k k1 -> parse_body argc k1 = (Again, k2) ->
  loop_reaches argc k k2.
Proof.
  intros Hr Hb. induction Hr as [k|k ka kb Hb' _ IH].
  - eapply reaches_next; [exact Hb | apply reaches_here].
  - eapply reaches_next; [exact Hb' | by apply IH].
Qed.

Section DispatcherReports.
Context {S : Scanner} {Laws : ScannerLaws S}.
Hypothesis Reports : reports_given_options S.

Lemma parse_body_reported argc o argv g f o' argv' g' :
  aliases_known o -> descriptors_named o ->
  parse_body argc (o, argv, g) = (f, (o', argv', g')) ->
  m_indexMap o' = m_indexMap o /\
  (f = Leave ->
   ret (getopt_long argc argv (m_shortOptStr o) (m_longOptions o) g) < 0).
Proof.
  intros Hk Hn Hb. unfold parse_body in Hb.
  set (r := getopt_long argc argv (m_shortOptStr o) (m_longOptions o) g) in *.
  destruct (ret r <? 0) eqn:Hret.
  { simplify_eq. split; [reflexivity | lia]. }
  pose proof (resolve_reported r (optopt (state_after r)) o Hk Hn
                (Reports argc argv _ _ g) ltac:(lia)) as Hres.
  destruct (resolve _ _ _ o) as [index o1|o1|o1]; [| |done].
  - destruct (optarg (state_after r)); simplify_eq; by split.
  - simplify_eq. by split.
Qed.

Lemma loop_reaches_reported argc o argv g ok argvk gk :
  aliases_known o -> descriptors_named o ->
  loop_reaches argc (o, argv, g) (ok, argvk, gk) ->
  aliases_known ok /\ descriptors_named ok /\ m_indexMap ok = m_indexMap o.
Proof.
  intros Hk Hn Hr.
  remember (o, argv, g) as k eqn:Ek. remember (ok, argvk, gk) as k' eqn:Ek'.
  revert o argv g Hk Hn Ek. induction Hr as [k|k k1 k2 Hb _ IH];
    intros o argv g Hk Hn Ek; subst.
  - by simplify_eq.
  - destruct k1 as [[o1 argv1] g1].
    pose proof (parse_body_table _ _ _ _ _ _ _ _ Hb) as Ht.
    destruct (parse_body_reported _ _ _ _ _ _ _ _ Hk Hn Hb) as [Hm _].
    destruct (IH eq_refl o1 argv1 g1) as (Hk' & Hn' & Hm'); try done.
    + by eapply aliases_known_kept.
    + by eapply descriptors_named_kept.
    + split; [exact Hk'|]. split; [exact Hn' | congruence].
Qed.

(** X13: with a scanner that reports only what it was given, on a
    table that agrees with its alias index (as every table built from a
    usage text does), [parse] returns (given enough fuel) without having
    put an alias into the index, and the table still agrees with the
    index; and its loop is left only when the scanner reports the end of
    the options: the exit for an unknown short option is never taken. *)
Theorem unknown_short_option_is_never_reported
    (fuel : nat) (argv : list string) (o : CmdOption)
    (g : getopt_state hidden) :
  let argc := Z.of_nat (length argv) in
  aliases_known o -> descriptors_named o ->
  (remaining argc argv (set_opterr 0 g) < fuel)%nat ->
  exists o' argv' g',
    parse fuel argv o g = Some (o', argv', g') /\
    m_indexMap o' = m_indexMap o /\
    aliases_known o' /\ descriptors_named o' /\
    (forall ok argvk gk k',
       loop_reaches argc (o, argv, set_opterr 0 g) (ok, argvk, gk) ->
       parse_body argc (ok, argvk, gk) = (Leave, k') ->
       ret (getopt_long argc argvk (m_shortOptStr ok) (m_longOptions ok) gk) < 0).
Proof.
  intros argc Hk Hn Hf.
  destruct (parse_accumulates fuel argv o g Hf)
    as (o' & argv' & g' & _ & Hp & _).
  exists o', argv', g'. split; [exact Hp|].
  pose proof (parse_table _ _ _ _ _ _ _ Hp) as Ht.
  assert (forall ok argvk gk k',
            loop_reaches argc (o, argv, set_opterr 0 g) (ok, argvk, gk) ->
            parse_body argc (ok, argvk, gk) = (Leave, k') ->
            ret (getopt_long argc argvk (m_shortOptStr ok) (m_longOptions ok) gk)
              < 0 /\ m_indexMap k'.1.1 = m_indexMap o) as Hleave.
  { intros ok argvk gk [[o1 argv1] g1] Hr Hb.
    destruct (loop_reaches_reported _ _ _ _ _ _ _ Hk Hn Hr) as (Hk' & Hn' & Hm').
    destruct (parse_body_reported _ _ _ _ _ _ _ _ Hk' Hn' Hb) as [Hm Hl].
    split; [by apply Hl|]. simpl. congruence. }
  assert (m_indexMap o' = m_indexMap o) as Hm.
  { unfold parse in Hp. fold argc in Hp.
    destruct (parse_loop fuel argc (o, argv, set_opterr 0 g))
      as [[[o1 argv1] g1]|] eqn:Hloop; [|done].
    rewrite parse_finish_spec in Hp. injection Hp as <- <- <-. simpl.
    clear Ht Hf. revert Hloop Hleave.
    generalize (set_opterr 0 g). intros g0 Hloop Hleave.
    assert (forall k, loop_reaches argc (o, argv, g0) k ->
                      parse_loop fuel argc k = Some (o1, argv1, g1) ->
                      m_indexMap o1 = m_indexMap o) as Hind.
    { clear Hloop. induction fuel as [|fuel' IH]; intros k Hr Hl; [done|].
      cbn [parse_loop] in Hl.
      destruct (parse_body argc k) as [[] k1] eqn:Hb.
      - apply (IH k1); [|exact Hl].
        by eapply loop_reaches_step.
      - simplify_eq. destruct k as [[ok argvk] gk].
        exact (proj2 (Hleave _ _ _ _ Hr Hb)). }
    apply (Hind _ (reaches_here _ _) Hloop). }
  split; [exact Hm|].
  split; [by eapply aliases_known_kept|].
  split; [by eapply descriptors_named_kept|].
  intros ok argvk gk k' Hr Hb. exact (proj1 (Hleave _ _ _ _ Hr Hb)).
Qed.

End DispatcherReports.

Lemma unknown_short_option_is_never_reported_witness :
  exists o' argv' g',
    parse 40 ["prog"; "-a"; "--beta"; "5"; "-z"; "x"]
      (table_of ("-a, --all" ++ String newline "--beta=N")) process_start
      = Some (o', argv', g') /\
    m_indexMap o'
    = m_indexMap (table_of ("-a, --all" ++ String newline "--beta=N")).
Proof.
  destruct (unknown_short_option_is_never_reported (Laws := glibc_laws)
              glibc_reports_given_options 40
              ["prog"; "-a"; "--beta"; "5"; "-z"; "x"]
              (table_of ("-a, --all" ++ String newline "--beta=N"))
              process_start
              (proj1 (table_of_consistent _)) (proj2 (table_of_consistent _))
              ltac:(vm_compute; lia))
    as (o' & argv' & g' & Hp & Hm & _).
  exists o', argv', g'. split; [exact Hp | exact Hm].
Defined.

(** ** Diagnostics stay, and the usage text is printed as it was given *)

Lemma register_usage s l a o : m_usage (register s l a o) = m_usage o.
Proof.
  unfold register, register_short, register_long, addErrorStr.
  repeat case_match; simplify_eq; reflexivity.
Qed.

Lemma parseLine_usage i line o : m_usage (parseLine i line o) = m_usage o.
Proof.
  destruct (parseLine_cases i line o) as [-> | [-> | (s & l & a & _ & _ & ->)]];
    [reflexivity | reflexivity | apply register_usage].
Qed.

Lemma init_loop_usage i lines o : m_usage (init_loop i lines o) = m_usage o.
Proof.
  revert i o. induction lines as [|line rest IH]; intros i o; simpl; [done|].
  destruct (good o); [|done]. by rewrite IH, parseLine_usage.
Qed.

(** X14: a diagnostic is never taken back.  On an object that is not
    good, [operator<<] examines no line of the usage text: it registers
    nothing and records nothing, and the object is still not good;
    [parse] returns (given enough fuel) an object that is not good and
    whose diagnostics start with the ones it had; and [reportError]
    writes the diagnostics and a newline. *)
Theorem diagnostics_are_never_cleared `{Laws : ScannerLaws} (o : CmdOption) :
  good o = false ->
  (forall text,
     let o' := load_usage text o in
     good o' = false /\
     m_errorStr o' = m_errorStr o /\
     m_indexMap o' = m_indexMap o /\
     m_shortOptStr o' = m_shortOptStr o /\
     m_longOptNames o' = m_longOptNames o /\
     m_maxIndex o' = m_maxIndex o) /\
  (forall fuel argv g,
     (remaining (Z.of_nat (length argv)) argv (set_opterr 0 g) < fuel)%nat ->
     exists o' argv' g',
       parse fuel argv o g = Some (o', argv', g') /\
       good o' = false /\
       exists t, m_errorStr o' = m_errorStr o ++ t) /\
  (forall os, reportError os o = os ++ m_errorStr o ++ String newline "").
Proof.
  intros Hg. split; [|split].
  - intros text o'. unfold o', load_usage, init.
    rewrite (init_loop_not_good 0 _ (set_usage text o)) by exact Hg.
    simpl. unfold good in *. simpl. by rewrite Hg.
  - intros fuel argv g Hf.
    destruct (parse_accumulates fuel argv o g Hf)
      as (o' & argv' & g' & _ & Hp & _ & Hgood & He & _).
    exists o', argv', g'. split; [exact Hp|]. split; [by apply Hgood | exact He].
  - intros os. unfold reportError. by rewrite Hg.
Qed.

Lemma diagnostics_are_never_cleared_witness :
  good (table_of "-n N") = false /\
  good (load_usage "-b, --beta" (table_of "-n N")) = false /\
  m_indexMap (load_usage "-b, --beta" (table_of "-n N"))
  = m_indexMap (table_of "-n N").
Proof.
  assert (good (table_of "-n N") = false) as Hg
    by (vm_compute; reflexivity).
  split; [exact Hg|].
  destruct (proj1 (diagnostics_are_never_cleared (Laws := glibc_laws) _ Hg)
              "-b, --beta") as (Hgood & _ & Hm & _).
  split; [exact Hgood | exact Hm].
Defined.

(** X15: [usage] writes the text that was given to [operator<<], as it
    was given, and a newline, whatever the table builder made of the text
    and whatever [parse] did afterwards. *)
Theorem usage_writes_the_text_given `{Scanner} (text os : string)
    (o : CmdOption) :
  usage os (load_usage text o) = os ++ text ++ String newline "" /\
  (forall fuel argv g o' argv' g',
     parse fuel argv (load_usage text o) g = Some (o', argv', g') ->
     usage os o' = os ++ text ++ String newline "").
Proof.
  assert (m_usage (load_usage text o) = text) as Hu.
  { unfold load_usage, init. simpl. by rewrite init_loop_usage. }
  split.
  - unfold usage. by rewrite Hu.
  - intros fuel argv g o' argv' g' Hp.
    destruct (parse_table _ _ _ _ _ _ _ Hp) as (Hk & _).
    unfold usage. by rewrite Hk, Hu.
Qed.

(** ** The positional arguments as a vector *)

(** X16: on an object without positional arguments so far, [parse]
    returns (given enough fuel) and [arguments()] holds the tokens that
    the scanner, when the loop is left, has left from its [optind] up to
    the end of the argument list, one value each.  Converted with
    [as<std::vector<std::string>>()] they come back in order when none
    holds a newline, except that an empty token in the last place is
    lost; and when there is no such token the conversion does not give an
    empty vector, it throws "null value". *)
Theorem arguments_as_vector `{Laws : ScannerLaws}
    (fuel : nat) (argv : list string) (o : CmdOption)
    (g : getopt_state hidden) :
  let argc := Z.of_nat (length argv) in
  m_arguments o = StringValue.default ->
  (remaining argc argv (set_opterr 0 g) < fuel)%nat ->
  exists o1 argv1 g1 o',
    parse_loop fuel argc (o, argv, set_opterr 0 g) = Some (o1, argv1, g1) /\
    parse fuel argv o g = Some (o', argv1, set_optind 0 g1) /\
    let trailing := tokens_from argc argv1 (optind g1) in
    arguments o' = StringValue.add_all trailing StringValue.default /\
    StringValue.count (arguments o') = Z.of_nat (length trailing) /\
    (trailing = [] ->
     StringValue.as_vector StringValue.getValue_string (arguments o')
     = Throw (invalid_argument "null value")) /\
    (trailing <> [] ->
     Forall no_newline trailing ->
     StringValue.as_vector StringValue.getValue_string (arguments o')
     = Ok (drop_final_empty trailing)).
Proof.
  intros argc Ha Hf.
  destruct (parse_loop_terminates fuel argc o argv (set_opterr 0 g) Hf)
    as [[[o1 argv1] g1] Hk].
  destruct (parse_loop_accumulates _ _ _ _ _ _ _ _ Hk) as (Harg & _).
  eexists o1, argv1, g1, _. split; [exact Hk|].
  split; [unfold parse; fold argc; by rewrite Hk, parse_finish_spec|].
  intros trailing. unfold arguments. simpl m_arguments.
  rewrite Harg, Ha. fold trailing.
  destruct (add_all_default trailing) as [Hc Ht].
  split; [reflexivity|]. split; [exact Hc|]. split.
  - intros ->. reflexivity.
  - intros Hne Hnl.
    unfold StringValue.as_vector, StringValue.as_, StringValue.validate.
    rewrite Hc.
    assert ((Z.of_nat (length trailing) =? 0) = false) as ->
      by (apply Z.eqb_neq; destruct trailing; [done | simpl length; lia]).
    unfold StringValue.getValue_vector.
    rewrite Ht, getlines_join_lines by done.
    apply getValue_lines_string.
Qed.

Lemma arguments_as_vector_witness :
  exists o' argv' g',
    parse 40 ["prog"; "x"; "-a"; "y"] (table_of "-a, --all") process_start
      = Some (o', argv', g') /\
    arguments o' = StringValue.add_all ["x"; "y"] StringValue.default /\
    StringValue.count (arguments o') = 2 /\
    StringValue.as_vector StringValue.getValue_string (arguments o')
      = Ok ["x"; "y"].
Proof.
  destruct (arguments_as_vector (Laws := glibc_laws) 40
              ["prog"; "x"; "-a"; "y"] (table_of "-a, --all") process_start
              eq_refl ltac:(vm_compute; lia))
    as (o1 & argv1 & g1 & o' & Hk & Hp & Harg & Hc & _ & Hvec).
  vm_compute in Hk. injection Hk as <- <- <-.
  eexists o', _, _. split; [exact Hp|]. split; [exact Harg|].
  split; [exact Hc|].
  apply Hvec; [discriminate | repeat constructor].
Defined.
